(** * spfnet: topology graph, SPF calculator, topology sync and forwarding

    A shallow embedding of the Go package [internal/route] of spfnet.

    Conventions of the embedding.
    - A Go [map[string]T] is a [gmap string T].  Reading a missing key
      gives the zero value of [T], as in Go; the reads are written
      with [default].
    - The iteration order of a Go map is unspecified.  Every [range]
      over a map goes through a [RangeOrder]: an arbitrary enumeration
      of the map's entries.  Theorems quantify over it.
    - A [float64] is an exact rational extended with [+Inf], [-Inf] and
      [NaN]; rounding is not modelled.
    - The priority queue of [github.com/emirpasic/gods] is external to
      the package.  It is modelled by its interface ([PriorityQueue]);
      theorems quantify over every implementation of it.
    - Mutexes are not modelled: every operation runs atomically. *)

From Stdlib Require Import QArith Qcanon Lqa.
From stdpp Require Import base numbers option list gmap strings fin_maps pretty.

(** ** float64 *)

Inductive float64 : Type :=
| Fin (q : Qc)
| PInf
| NInf
| NaN.

#[global] Instance float64_eq_dec : EqDecision float64.
Proof. solve_decision. Defined.

#[global] Instance float64_inhabited : Inhabited float64 := populate (Fin 0%Qc).

(** The zero value of a Go [float64]. *)
Definition f64_zero : float64 := Fin 0%Qc.

(** [a + b] *)
Definition f64_add (a b : float64) : float64 :=
  match a, b with
  | NaN, _ | _, NaN => NaN
  | PInf, NInf | NInf, PInf => NaN
  | PInf, _ | _, PInf => PInf
  | NInf, _ | _, NInf => NInf
  | Fin x, Fin y => Fin (x + y)%Qc
  end.

(** [a < b] *)
Definition f64_ltb (a b : float64) : bool :=
  match a, b with
  | NaN, _ | _, NaN => false
  | Fin x, Fin y => bool_decide (x < y)%Qc
  | NInf, NInf => false
  | NInf, _ => true
  | _, NInf => false
  | PInf, _ => false
  | Fin _, PInf => true
  end.

(** [a > b] *)
Definition f64_gtb (a b : float64) : bool := f64_ltb b a.

(** [a <= b] *)
Definition f64_leb (a b : float64) : bool :=
  match a, b with
  | NaN, _ | _, NaN => false
  | Fin x, Fin y => bool_decide (x ≤ y)%Qc
  | NInf, _ => true
  | _, NInf => false
  | _, PInf => true
  | PInf, Fin _ => false
  end.

(** [a == b] and [a != b]: a NaN differs from everything, itself included. *)
Definition f64_eqb (a b : float64) : bool :=
  match a, b with
  | NaN, _ | _, NaN => false
  | _, _ => bool_decide (a = b)
  end.

Definition f64_neb (a b : float64) : bool := negb (f64_eqb a b).

(** [math.Inf(1)] and [math.IsInf(x, 1)] *)
Definition math_Inf_pos : float64 := PInf.

Definition math_IsInf_pos (x : float64) : bool :=
  match x with PInf => true | _ => false end.

(** A cost the specification allows: finite and not negative. *)
Definition f64_nonneg_fin (x : float64) : bool :=
  match x with Fin q => bool_decide (0 ≤ q)%Qc | _ => false end.

Definition f64_is_fin (x : float64) : bool :=
  match x with Fin _ => true | _ => false end.

(** An integer as a [float64], for concrete inputs. *)
Definition f64_of_Z (z : Z) : float64 := Fin (Q2Qc (inject_Z z)).

(** ** Iteration order of Go maps *)

Record RangeOrder : Type := {
  range_of : ∀ {A : Type}, gmap string A → list (string * A);
  range_of_perm : ∀ (A : Type) (m : gmap string A), range_of m ≡ₚ map_to_list m
}.

(** One possible order: the one of [map_to_list]. *)
Definition canonical_order : RangeOrder :=
  {| range_of := λ A m, map_to_list m;
     range_of_perm := λ A m, reflexivity (map_to_list m) |}.

(** ** Topology graph (type [Topology]) *)

Inductive NodeStatus : Type :=
| NodeStatusUnknown
| NodeStatusAlive
| NodeStatusSuspect
| NodeStatusFailed
| NodeStatusLeft.

Record NodeInfo : Type := {
  ID : string;
  IP : string;
  Port : Z;
  RPCAddr : string;
  Status : NodeStatus
}.

Record Topology : Type := {
  nodes : gmap string NodeInfo;
  edges : gmap string (gmap string float64)
}.

Definition NewTopology : Topology := {| nodes := ∅; edges := ∅ |}.

(** [if t.edges[k] == nil { t.edges[k] = make(map[string]float64) }] *)
Definition ensure_adj (k : string) (e : gmap string (gmap string float64))
  : gmap string (gmap string float64) :=
  match e !! k with
  | None => <[k := ∅]> e
  | Some _ => e
  end.

Definition AddNode (t : Topology) (node : NodeInfo) : Topology :=
  {| nodes := <[ID node := node]> (nodes t);
     edges := ensure_adj (ID node) (edges t) |}.

(** The loop of [RemoveNode]: [delete(t.edges[neighbor], nodeName)] for
    every key of [t.edges[nodeName]].  Deleting from a missing inner map
    does nothing.  When the node is its own neighbour the loop deletes
    the key it is standing on, which leaves the keys still to visit
    untouched; the keys are therefore those of the map at loop entry. *)
Definition sweep_incident (nodeName : string) (neighbors : list string)
    (e : gmap string (gmap string float64)) : gmap string (gmap string float64) :=
  fold_left (λ acc neighbor, alter (delete nodeName) neighbor acc) neighbors e.

Definition RemoveNode (R : RangeOrder) (t : Topology) (nodeName : string) : Topology :=
  let e1 :=
    match edges t !! nodeName with
    | Some neighbors => sweep_incident nodeName (range_of R neighbors).*1 (edges t)
    | None => edges t
    end in
  {| nodes := delete nodeName (nodes t);
     edges := delete nodeName e1 |}.

Definition UpdateLink (t : Topology) (from to : string) (cost : float64) : Topology :=
  let e1 := ensure_adj from (edges t) in
  let e2 := ensure_adj to e1 in
  let e3 := alter (insert to cost) from e2 in
  let e4 := alter (insert from cost) to e3 in
  {| nodes := nodes t; edges := e4 |}.

Definition RemoveLink (t : Topology) (from to : string) : Topology :=
  let e1 := alter (delete to) from (edges t) in
  let e2 := alter (delete from) to e1 in
  {| nodes := nodes t; edges := e2 |}.

(** [cost, exists := t.edges[from][to]] *)
Definition GetCost (t : Topology) (from to : string) : float64 * bool :=
  match edges t !! from ≫= (λ m, m !! to) with
  | Some cost => (cost, true)
  | None => (f64_zero, false)
  end.

(** Copying a map entry by entry, in iteration order. *)
Definition copy_map {A : Type} (R : RangeOrder) (m : gmap string A) : gmap string A :=
  fold_left (λ acc kv, <[kv.1 := kv.2]> acc) (range_of R m) ∅.

Definition GetNeighbors (R : RangeOrder) (t : Topology) (nodeName : string)
  : gmap string float64 :=
  copy_map R (default ∅ (edges t !! nodeName)).

Definition GetNode (t : Topology) (nodeID : string) : option NodeInfo :=
  nodes t !! nodeID.

Definition GetAllNodes (R : RangeOrder) (t : Topology) : list NodeInfo :=
  (range_of R (nodes t)).*2.

Definition GetAdjacencyList (R : RangeOrder) (t : Topology)
  : gmap string (gmap string float64) :=
  fold_left (λ adj kv, <[kv.1 := copy_map R kv.2]> adj) (range_of R (edges t)) ∅.

(** The cost stored for the directed entry [a -> b], if any. *)
Definition edge (t : Topology) (a b : string) : option float64 :=
  edges t !! a ≫= (λ m, m !! b).

(** The data-model invariant: the adjacency is symmetric. *)
Definition symmetric (t : Topology) : Prop :=
  ∀ a b c, edge t a b = Some c → edge t b a = Some c.

(** General facts on iteration and copies. *)

Lemma range_of_lookup (R : RangeOrder) {A} (m : gmap string A) k v :
  (k, v) ∈ range_of R m ↔ m !! k = Some v.
Proof. rewrite (range_of_perm R). apply elem_of_map_to_list. Qed.

Lemma range_of_NoDup_fst (R : RangeOrder) {A} (m : gmap string A) :
  NoDup (range_of R m).*1.
Proof.
  assert ((range_of R m).*1 ≡ₚ (map_to_list m).*1) as ->
    by apply fmap_Permutation, range_of_perm.
  apply NoDup_fst_map_to_list.
Qed.

Lemma range_of_length (R : RangeOrder) {A} (m : gmap string A) :
  length (range_of R m) = size m.
Proof. rewrite (range_of_perm R). apply length_map_to_list. Qed.

Lemma range_of_keys (R : RangeOrder) {A} (m : gmap string A) k :
  k ∈ (range_of R m).*1 ↔ is_Some (m !! k).
Proof.
  rewrite list_elem_of_fmap. split.
  - intros [[k' v] [-> Hin]]. apply range_of_lookup in Hin. eauto.
  - intros [v Hv]. exists (k, v). split; [done|]. by apply range_of_lookup.
Qed.

Lemma fold_insert_lookup {A} (l : list (string * A)) (acc : gmap string A) k :
  NoDup l.*1 →
  fold_left (λ acc kv, <[kv.1 := kv.2]> acc) l acc !! k =
    match list_find (λ kv, kv.1 = k) l with
    | Some (_, kv) => Some kv.2
    | None => acc !! k
    end.
Proof.
  revert acc. induction l as [|[k' v] l IH]; intros acc Hnd; [done|].
  apply NoDup_cons in Hnd as [Hk' Hnd]. cbn [fold_left].
  rewrite IH by done. cbn [list_find fst snd]. case_decide as Hk.
  - subst k'. destruct (list_find _ l) as [[i [k'' v'']]|] eqn:Hfind; cbn.
    + apply list_find_Some in Hfind as (Hi & Heq & _). cbn in Heq. subst k''.
      exfalso. apply Hk'. apply list_elem_of_fmap. exists (k, v'').
      split; [done|]. eapply list_elem_of_lookup_2, Hi.
    + by rewrite lookup_insert_eq.
  - destruct (list_find _ l) as [[i kv]|]; cbn; [done|].
    by rewrite lookup_insert_ne.
Qed.

Lemma copy_map_id (R : RangeOrder) {A} (m : gmap string A) : copy_map R m = m.
Proof.
  apply map_eq. intros k. unfold copy_map.
  rewrite fold_insert_lookup by apply range_of_NoDup_fst.
  destruct (list_find _ _) as [[i [k' v]]|] eqn:Hfind.
  - apply list_find_Some in Hfind as (Hi & Heq & _). cbn in Heq. subst k'.
    symmetry. apply (range_of_lookup R). eapply list_elem_of_lookup_2, Hi.
  - rewrite lookup_empty. destruct (m !! k) as [v|] eqn:Hk; [|done].
    apply (range_of_lookup R) in Hk.
    eapply list_find_None, Forall_forall in Hfind; [|exact Hk]. done.
Qed.

Lemma GetNeighbors_eq (R : RangeOrder) t n :
  GetNeighbors R t n = default ∅ (edges t !! n).
Proof. apply copy_map_id. Qed.

Lemma GetNeighbors_lookup (R : RangeOrder) t n w :
  GetNeighbors R t n !! w = edge t n w.
Proof.
  rewrite GetNeighbors_eq. unfold edge.
  destruct (edges t !! n); [done|]. apply lookup_empty.
Qed.

Lemma GetCost_edge t a b :
  GetCost t a b = match edge t a b with Some c => (c, true) | None => (f64_zero, false) end.
Proof. done. Qed.

(** Lookups in the adjacency after each mutator. *)

Lemma ensure_adj_lookup k e j :
  ensure_adj k e !! j = if decide (k = j) then Some (default ∅ (e !! k)) else e !! j.
Proof.
  unfold ensure_adj. destruct (e !! k) as [m|] eqn:Hk; case_decide; subst;
    rewrite ?lookup_insert_eq, ?lookup_insert_ne; auto.
Qed.

Lemma edge_ensure_adj t k a b :
  ensure_adj k (edges t) !! a ≫= (λ m, m !! b) = edge t a b.
Proof.
  unfold edge. rewrite ensure_adj_lookup. case_decide; [subst|done].
  destruct (edges t !! a); [done|]. cbn. apply lookup_empty.
Qed.

Ltac solve_adj t :=
  repeat (case_decide; subst; try (intuition congruence); cbn);
  repeat (destruct (edges t !! _); cbn);
  rewrite ?lookup_insert, ?lookup_delete, ?lookup_empty;
  repeat (case_decide; subst; try (intuition congruence); cbn);
  rewrite ?lookup_insert, ?lookup_delete, ?lookup_empty;
  repeat (case_decide; subst; try (intuition congruence); cbn);
  try done.

Lemma edge_UpdateLink t from to cost a b :
  edge (UpdateLink t from to cost) a b =
    if decide ((a = from ∧ b = to) ∨ (a = to ∧ b = from)) then Some cost
    else edge t a b.
Proof.
  unfold edge, UpdateLink. cbn [edges].
  rewrite !lookup_alter, !ensure_adj_lookup. solve_adj t.
Qed.

Lemma edge_RemoveLink t from to a b :
  edge (RemoveLink t from to) a b =
    if decide ((a = from ∧ b = to) ∨ (a = to ∧ b = from)) then None
    else edge t a b.
Proof.
  unfold edge, RemoveLink. cbn [edges].
  rewrite !lookup_alter. solve_adj t.
Qed.

Lemma edge_AddNode t node a b : edge (AddNode t node) a b = edge t a b.
Proof. apply edge_ensure_adj. Qed.

Lemma sweep_incident_lookup nodeName l e a :
  sweep_incident nodeName l e !! a =
    if decide (a ∈ l) then delete nodeName <$> e !! a else e !! a.
Proof.
  unfold sweep_incident. revert e. induction l as [|n l IH]; intros e; cbn [fold_left].
  - by rewrite decide_False by apply not_elem_of_nil.
  - rewrite IH, lookup_alter.
    destruct (decide (a ∈ l)) as [Hl|Hl], (decide (n = a)) as [->|Hn].
    + rewrite decide_True by (by left). rewrite <- option_fmap_compose.
      apply option_fmap_ext. intros m. apply map_eq. intros j. cbn.
      rewrite !lookup_delete. by repeat case_decide.
    + by rewrite decide_True by (by right).
    + by rewrite decide_True by (by left).
    + rewrite decide_False; [done|]. intros [->|?]%elem_of_cons; done.
Qed.

Lemma edge_RemoveNode R t nodeName a b :
  edge (RemoveNode R t nodeName) a b =
    if decide (a = nodeName) then None
    else if decide (b = nodeName ∧ is_Some (edge t nodeName a)) then None
    else edge t a b.
Proof.
  unfold edge at 1, RemoveNode. cbn [edges]. rewrite lookup_delete.
  destruct (decide (nodeName = a)) as [->|Hne].
  { by rewrite decide_True. }
  rewrite decide_False by done.
  destruct (edges t !! nodeName) as [neighbors|] eqn:Hn.
  - rewrite sweep_incident_lookup.
    assert (a ∈ (range_of R neighbors).*1 ↔ is_Some (edge t nodeName a)) as Hin.
    { rewrite range_of_keys. unfold edge. by rewrite Hn. }
    destruct (decide (a ∈ _)) as [Ha|Ha].
    + apply Hin in Ha.
      assert (edge t a b = edges t !! a ≫= (λ m, m !! b)) as -> by done.
      destruct (edges t !! a) as [m|]; cbn.
      * rewrite lookup_delete. case_decide; subst.
        -- by rewrite decide_True.
        -- rewrite decide_False by (intros [? _]; congruence). done.
      * by case_decide.
    + rewrite decide_False; [done|]. intros [_ ?]. by apply Ha, Hin.
  - rewrite decide_False; [done|]. intros [_ [c Hc]]. unfold edge in Hc.
    by rewrite Hn in Hc.
Qed.

(** Symmetry is kept by every mutator. *)

Lemma NewTopology_symmetric : symmetric NewTopology.
Proof. intros a b c. unfold edge. cbn. by rewrite lookup_empty. Qed.

Lemma AddNode_symmetric t node : symmetric t → symmetric (AddNode t node).
Proof. intros Hs a b c. rewrite !edge_AddNode. apply Hs. Qed.

Lemma UpdateLink_symmetric t from to cost :
  symmetric t → symmetric (UpdateLink t from to cost).
Proof.
  intros Hs a b c. rewrite !edge_UpdateLink.
  repeat case_decide; auto; exfalso; intuition congruence.
Qed.

Lemma RemoveLink_symmetric t from to :
  symmetric t → symmetric (RemoveLink t from to).
Proof.
  intros Hs a b c. rewrite !edge_RemoveLink.
  repeat case_decide; auto; exfalso; intuition congruence.
Qed.

Lemma RemoveNode_symmetric R t nodeName :
  symmetric t → symmetric (RemoveNode R t nodeName).
Proof.
  intros Hs a b c. rewrite !edge_RemoveNode.
  destruct (decide (a = nodeName)) as [->|Ha]; [done|].
  destruct (decide (b = nodeName ∧ _)) as [Hb|Hb]; [done|].
  intros Hab. destruct (decide (b = nodeName)) as [->|Hb'].
  { exfalso. apply Hb. split; [done|]. exists c. by apply Hs. }
  rewrite decide_False by (intros [? _]; congruence). by apply Hs.
Qed.

(** The topologies a process can hold: [NewTopology] and whatever the
    mutators make of it. *)
Inductive built (R : RangeOrder) : Topology → Prop :=
| built_new : built R NewTopology
| built_AddNode t node : built R t → built R (AddNode t node)
| built_RemoveNode t nodeName : built R t → built R (RemoveNode R t nodeName)
| built_UpdateLink t from to cost : built R t → built R (UpdateLink t from to cost)
| built_RemoveLink t from to : built R t → built R (RemoveLink t from to).

Lemma built_symmetric R t : built R t → symmetric t.
Proof.
  induction 1; eauto using NewTopology_symmetric, AddNode_symmetric,
    RemoveNode_symmetric, UpdateLink_symmetric, RemoveLink_symmetric.
Qed.

Lemma GetCost_UpdateLink t a b c :
  GetCost (UpdateLink t a b c) a b = (c, true) ∧
  GetCost (UpdateLink t a b c) b a = (c, true).
Proof.
  rewrite !GetCost_edge, !edge_UpdateLink.
  rewrite !decide_True by auto. done.
Qed.

Lemma GetCost_RemoveNode R t a x :
  symmetric t →
  GetCost (RemoveNode R t a) x a = (f64_zero, false) ∧
  GetCost (RemoveNode R t a) a x = (f64_zero, false).
Proof.
  intros Hs. rewrite !GetCost_edge, !edge_RemoveNode.
  rewrite (decide_True (P := a = a)) by done.
  split; [|done].
  destruct (decide (x = a)) as [->|Hx]; [done|].
  case_decide as Hd; [done|].
  destruct (edge t x a) as [c|] eqn:Hxa; [|done].
  exfalso. apply Hd. split; [done|]. exists c. by apply Hs.
Qed.

(** C4.  Every topology built from [NewTopology] by the mutators is
    symmetric.  After [UpdateLink a b c] both [GetCost a b] and
    [GetCost b a] return [c] with the presence flag set; after
    [RemoveNode a] no entry to or from [a] is present, whatever the
    other endpoint. *)
Theorem topology_symmetry (R : RangeOrder) (t : Topology) :
  built R t →
  symmetric t ∧
  (∀ a b c,
     GetCost (UpdateLink t a b c) a b = (c, true) ∧
     GetCost (UpdateLink t a b c) b a = (c, true) ∧
     symmetric (UpdateLink t a b c)) ∧
  (∀ a,
     (∀ x, GetCost (RemoveNode R t a) x a = (f64_zero, false) ∧
           GetCost (RemoveNode R t a) a x = (f64_zero, false)) ∧
     symmetric (RemoveNode R t a)) ∧
  (∀ node, symmetric (AddNode t node)) ∧
  (∀ a b, symmetric (RemoveLink t a b)).
Proof.
  intros Hb. pose proof (built_symmetric R t Hb) as Hs.
  split; [done|]. split; [|split; [|split]].
  - intros a b c. pose proof (GetCost_UpdateLink t a b c) as [??].
    eauto using UpdateLink_symmetric.
  - intros a. split.
    + intros x. by apply GetCost_RemoveNode.
    + by apply RemoveNode_symmetric.
  - intros node. by apply AddNode_symmetric.
  - intros a b. by apply RemoveLink_symmetric.
Qed.

(** A triangle A-B:1, B-C:1, A-C:10 with all three nodes registered. *)
Definition mkNode (id : string) : NodeInfo :=
  {| ID := id; IP := "127.0.0.1"; Port := 5001; RPCAddr := ""; Status := NodeStatusAlive |}.

Definition triangle : Topology :=
  UpdateLink
    (UpdateLink
       (UpdateLink
          (AddNode (AddNode (AddNode NewTopology (mkNode "A")) (mkNode "B")) (mkNode "C"))
          "A" "B" (f64_of_Z 1))
       "B" "C" (f64_of_Z 1))
    "A" "C" (f64_of_Z 10).

Lemma triangle_built R : built R triangle.
Proof. repeat constructor. Qed.

Lemma topology_symmetry_witness :
  GetCost (UpdateLink triangle "A" "D" (f64_of_Z 4)) "D" "A" = (f64_of_Z 4, true) ∧
  GetCost (RemoveNode canonical_order triangle "B") "C" "B" = (f64_zero, false).
Proof.
  pose proof (topology_symmetry canonical_order triangle
                (triangle_built canonical_order)) as (_ & Hu & Hr & _).
  split.
  - apply (Hu "A" "D" (f64_of_Z 4)).
  - apply (Hr "B").
Defined.

(** ** Routing table (types [Route], [RouteTable]) *)

Record Route : Type := {
  Destination : string;
  NextHop : string;
  Cost : float64;
  Path : list string
}.

Record RouteTable : Type := {
  sourceNode : string;
  routes : gmap string Route
}.

Definition NewRouteTable (sourceNode : string) : RouteTable :=
  {| sourceNode := sourceNode; routes := ∅ |}.

(** [GetRoute] and [GetNextHop] return an error when the destination has
    no entry: [None] here. *)
Definition GetRoute (rt : RouteTable) (destination : string) : option Route :=
  routes rt !! destination.

Definition GetNextHop (rt : RouteTable) (destination : string) : option string :=
  NextHop <$> routes rt !! destination.

Definition AddRoute (rt : RouteTable) (route : Route) : RouteTable :=
  {| sourceNode := sourceNode rt;
     routes := <[Destination route := route]> (routes rt) |}.

Definition RemoveRoute (rt : RouteTable) (destination : string) : RouteTable :=
  {| sourceNode := sourceNode rt; routes := delete destination (routes rt) |}.

Definition Clear (rt : RouteTable) : RouteTable :=
  {| sourceNode := sourceNode rt; routes := ∅ |}.

Definition GetAllRoutes (R : RangeOrder) (rt : RouteTable) : gmap string Route :=
  copy_map R (routes rt).

Definition Size (rt : RouteTable) : nat := size (routes rt).

(** ** Priority queue (interface of [gods/queues/priorityqueue]) *)

Record Item : Type := {
  nodeID : string;
  priority : float64
}.

(** [utils.Float64Comparator] *)
Definition Float64Comparator (a b : float64) : Z :=
  if f64_gtb a b then 1 else if f64_ltb a b then (-1) else 0.

(** A queue built by [priorityqueue.NewWith] on the comparator of item
    priorities.  [pq_items] is the multiset of queued items.  [Dequeue]
    answers [None] exactly on the empty queue, which is also when
    [Empty()] holds.  On a queue whose priorities are all finite the
    dequeued item is a least one for the comparator. *)
Record PriorityQueue : Type := {
  pq_t : Type;
  pq_items : pq_t → list Item;
  pq_New : pq_t;
  Enqueue : Item → pq_t → pq_t;
  Dequeue : pq_t → option (Item * pq_t);
  pq_items_New : pq_items pq_New = [];
  pq_items_Enqueue : ∀ x q, pq_items (Enqueue x q) ≡ₚ x :: pq_items q;
  pq_Dequeue_None : ∀ q, Dequeue q = None → pq_items q = [];
  pq_Dequeue_Some : ∀ q x q', Dequeue q = Some (x, q') → pq_items q ≡ₚ x :: pq_items q';
  pq_Dequeue_min : ∀ q x q',
    Dequeue q = Some (x, q') →
    Forall (λ y, f64_is_fin (priority y) = true) (pq_items q) →
    Forall (λ y, (Float64Comparator (priority x) (priority y) ≤ 0)%Z) (pq_items q')
}.

(** One implementation: an unordered list, searched on [Dequeue]. *)
Fixpoint extract_min (l : list Item) : option (Item * list Item) :=
  match l with
  | [] => None
  | x :: l' =>
    match extract_min l' with
    | None => Some (x, [])
    | Some (y, r) =>
      if f64_ltb (priority y) (priority x) then Some (y, x :: r) else Some (x, l')
    end
  end.

(** ** SPF calculator, current version (spf.go) *)

Section SPF.
Variable Q : PriorityQueue.
Variable R : RangeOrder.

Record spf_state : Type := {
  distance : gmap string float64;
  nextHop : gmap string string;
  previous : gmap string string;
  pq : pq_t Q;
  neighborCache : gmap string (gmap string float64)
}.

(** [distance[node.ID] = math.Inf(1)] for all nodes, then
    [distance[sourceNodeID] = 0]. *)
Definition init_distance (sourceNodeID : string) (allNodes : list NodeInfo)
  : gmap string float64 :=
  <[sourceNodeID := f64_zero]>
    (fold_left (λ d node, <[ID node := math_Inf_pos]> d) allNodes ∅).

Definition spf_init (sourceNodeID : string) (topology : Topology) : spf_state :=
  {| distance := init_distance sourceNodeID (GetAllNodes R topology);
     nextHop := ∅;
     previous := ∅;
     pq := Enqueue Q {| nodeID := sourceNodeID; priority := f64_zero |} (pq_New Q);
     neighborCache := ∅ |}.

(** The body of [for neighborID, linkCost := range neighbors]. *)
Definition relax (sourceNodeID currentNodeID : string) (currentCost : float64)
    (st : spf_state) (nb : string * float64) : spf_state :=
  let neighborID := nb.1 in
  let linkCost := nb.2 in
  let newCost := f64_add currentCost linkCost in
  if f64_ltb newCost (default f64_zero (distance st !! neighborID)) then
    {| distance := <[neighborID := newCost]> (distance st);
       previous := <[neighborID := currentNodeID]> (previous st);
       nextHop :=
         <[neighborID :=
             if decide (currentNodeID = sourceNodeID) then neighborID
             else default "" (nextHop st !! currentNodeID)]> (nextHop st);
       pq := Enqueue Q {| nodeID := neighborID; priority := newCost |} (pq st);
       neighborCache := neighborCache st |}
  else st.

(** [neighbors, ok := neighborCache[currentNodeID]], filled on a miss. *)
Definition cached_neighbors (topology : Topology) (currentNodeID : string)
    (cache : gmap string (gmap string float64))
  : gmap string float64 * gmap string (gmap string float64) :=
  match cache !! currentNodeID with
  | Some neighbors => (neighbors, cache)
  | None =>
    let neighbors := GetNeighbors R topology currentNodeID in
    (neighbors, <[currentNodeID := neighbors]> cache)
  end.

(** The body of [for !pq.Empty() { item, _ := pq.Dequeue() ... }], given
    the dequeued item and the rest of the queue. *)
Definition spf_step (sourceNodeID : string) (topology : Topology)
    (st : spf_state) (item : Item) (q' : pq_t Q) : spf_state :=
  let currentNodeID := nodeID item in
  let currentCost := priority item in
  if f64_gtb currentCost (default f64_zero (distance st !! currentNodeID)) then
    {| distance := distance st; nextHop := nextHop st; previous := previous st;
       pq := q'; neighborCache := neighborCache st |}
  else
    let nc := cached_neighbors topology currentNodeID (neighborCache st) in
    fold_left (relax sourceNodeID currentNodeID currentCost) (range_of R nc.1)
      {| distance := distance st; nextHop := nextHop st; previous := previous st;
         pq := q'; neighborCache := nc.2 |}.

(** [for !pq.Empty() { ... }].  Each iteration takes one unit of fuel;
    [None] means the fuel ran out before the queue was empty. *)
Fixpoint spf_loop (sourceNodeID : string) (topology : Topology) (fuel : nat)
    (st : spf_state) : option spf_state :=
  match Dequeue Q (pq st) with
  | None => Some st
  | Some (item, q') =>
    match fuel with
    | O => None
    | S fuel' =>
      spf_loop sourceNodeID topology fuel' (spf_step sourceNodeID topology st item q')
    end
  end.

(** [for at := destNodeID; at != ""; at = previous[at] { path = append(path, at);
    if at == sourceNodeID { break } }].  One unit of fuel per iteration. *)
Fixpoint trace_back (fuel : nat) (sourceNodeID : string) (previous : gmap string string)
    (at_ : string) (path : list string) : option (list string) :=
  if decide (at_ = "") then Some path
  else
    match fuel with
    | O => None
    | S fuel' =>
      let path := path ++ [at_] in
      if decide (at_ = sourceNodeID) then Some path
      else trace_back fuel' sourceNodeID previous (default "" (previous !! at_)) path
    end.

(** The body of [for destNodeID, dist := range distance]. *)
Definition collect_route (fuel : nat) (sourceNodeID : string) (st : spf_state)
    (acc : option RouteTable) (kv : string * float64) : option RouteTable :=
  routeTable ← acc;
  let destNodeID := kv.1 in
  let dist := kv.2 in
  if decide (destNodeID = sourceNodeID) then Some routeTable
  else if math_IsInf_pos dist then Some routeTable
  else
    path ← trace_back fuel sourceNodeID (previous st) destNodeID [];
    Some (AddRoute routeTable
            {| Destination := destNodeID;
               NextHop := default "" (nextHop st !! destNodeID);
               Cost := dist;
               Path := reverse path |}).

Definition collect (fuel : nat) (sourceNodeID : string) (st : spf_state)
  : option RouteTable :=
  fold_left (collect_route fuel sourceNodeID st) (range_of R (distance st))
    (Some (NewRouteTable sourceNodeID)).

(** [ComputeRoutes].  The Go function returns when both loops end; the
    model returns [None] when [fuel] iterations were not enough for one
    of them. *)
Definition ComputeRoutes (fuel : nat) (sourceNodeID : string) (topology : Topology)
  : option RouteTable :=
  st ← spf_loop sourceNodeID topology fuel (spf_init sourceNodeID topology);
  collect fuel sourceNodeID st.

End SPF.

Arguments distance {Q} _.
Arguments nextHop {Q} _.
Arguments previous {Q} _.
Arguments pq {Q} _.
Arguments neighborCache {Q} _.

(** ** SPF calculator, earlier version (visited set, no path) *)

Module Legacy.
Section SPF.
Variable Q : PriorityQueue.
Variable R : RangeOrder.

Record spf_state : Type := {
  distance : gmap string float64;
  nextHop : gmap string string;
  pq : pq_t Q;
  visited : gmap string bool;
  neighbor_cache : gmap string (gmap string float64)
}.

Definition spf_init (sourceNodeID : string) (topology : Topology) : spf_state :=
  {| distance := init_distance sourceNodeID (GetAllNodes R topology);
     nextHop := ∅;
     pq := Enqueue Q {| nodeID := sourceNodeID; priority := f64_zero |} (pq_New Q);
     visited := ∅;
     neighbor_cache := ∅ |}.

(** The body of [for neighborID, linkCost := range neighbors]. *)
Definition relax (sourceNodeID currentNodeID : string) (currentCost : float64)
    (st : spf_state) (nb : string * float64) : spf_state :=
  let neighborID := nb.1 in
  let linkCost := nb.2 in
  let newCost := f64_add currentCost linkCost in
  if f64_ltb newCost (default f64_zero (distance st !! neighborID)) then
    {| distance := <[neighborID := newCost]> (distance st);
       nextHop :=
         <[neighborID :=
             if decide (currentNodeID = sourceNodeID) then neighborID
             else default "" (nextHop st !! currentNodeID)]> (nextHop st);
       pq := Enqueue Q {| nodeID := neighborID; priority := newCost |} (pq st);
       visited := visited st;
       neighbor_cache := neighbor_cache st |}
  else st.

(** The body of the main loop: [if visited[currentNodeID] { continue }],
    then mark and relax. *)
Definition spf_step (sourceNodeID : string) (topology : Topology)
    (st : spf_state) (item : Item) (q' : pq_t Q) : spf_state :=
  let currentNodeID := nodeID item in
  let currentCost := priority item in
  if default false (visited st !! currentNodeID) then
    {| distance := distance st; nextHop := nextHop st; pq := q';
       visited := visited st; neighbor_cache := neighbor_cache st |}
  else
    let nc := cached_neighbors R topology currentNodeID (neighbor_cache st) in
    fold_left (relax sourceNodeID currentNodeID currentCost) (range_of R nc.1)
      {| distance := distance st; nextHop := nextHop st; pq := q';
         visited := <[currentNodeID := true]> (visited st);
         neighbor_cache := nc.2 |}.

Fixpoint spf_loop (sourceNodeID : string) (topology : Topology) (fuel : nat)
    (st : spf_state) : option spf_state :=
  match Dequeue Q (pq st) with
  | None => Some st
  | Some (item, q') =>
    match fuel with
    | O => None
    | S fuel' =>
      spf_loop sourceNodeID topology fuel' (spf_step sourceNodeID topology st item q')
    end
  end.

(** The body of [for destNodeID, dist := range distance].  The routes of
    this version carry no path. *)
Definition collect_route (sourceNodeID : string) (st : spf_state)
    (routeTable : RouteTable) (kv : string * float64) : RouteTable :=
  let destNodeID := kv.1 in
  let dist := kv.2 in
  if decide (destNodeID = sourceNodeID) then routeTable
  else if math_IsInf_pos dist then routeTable
  else
    AddRoute routeTable
      {| Destination := destNodeID;
         NextHop := default "" (nextHop st !! destNodeID);
         Cost := dist;
         Path := [] |}.

Definition collect (sourceNodeID : string) (st : spf_state) : RouteTable :=
  fold_left (collect_route sourceNodeID st) (range_of R (distance st))
    (NewRouteTable sourceNodeID).

Definition ComputeRoutes (fuel : nat) (sourceNodeID : string) (topology : Topology)
  : option RouteTable :=
  st ← spf_loop sourceNodeID topology fuel (spf_init sourceNodeID topology);
  Some (collect sourceNodeID st).

End SPF.

Arguments distance {Q} _.
Arguments nextHop {Q} _.
Arguments pq {Q} _.
Arguments visited {Q} _.
Arguments neighbor_cache {Q} _.
End Legacy.

(** Linear arithmetic on [Qc], through [Q]. *)
Ltac qc_lra :=
  try (apply Qc_is_canon);
  unfold Qcle, Qclt in *; cbn [this Qcplus Qcopp Qcminus Q2Qc] in *;
  rewrite ?Qred_correct in *; lra.

(** Facts on [float64] comparisons. *)

Lemma f64_ltb_Fin a b : f64_ltb (Fin a) (Fin b) = true ↔ (a < b)%Qc.
Proof. cbn. apply bool_decide_eq_true. Qed.

Lemma f64_ltb_Fin_false a b : f64_ltb (Fin a) (Fin b) = false ↔ (b ≤ a)%Qc.
Proof.
  cbn. rewrite bool_decide_eq_false. split.
  - apply Qcnot_lt_le.
  - apply Qcle_not_lt.
Qed.

Lemma f64_is_fin_inv x : f64_is_fin x = true → ∃ q, x = Fin q.
Proof. destruct x; naive_solver. Qed.

Lemma f64_nonneg_fin_inv x : f64_nonneg_fin x = true → ∃ q, x = Fin q ∧ (0 ≤ q)%Qc.
Proof. destruct x; cbn; try done. intros ?%bool_decide_eq_true. eauto. Qed.

Lemma Float64Comparator_Fin a b :
  (Float64Comparator (Fin a) (Fin b) ≤ 0)%Z ↔ (a ≤ b)%Qc.
Proof.
  unfold Float64Comparator, f64_gtb.
  destruct (f64_ltb (Fin b) (Fin a)) eqn:Hba.
  - apply f64_ltb_Fin in Hba. split; [lia|]. intros ?. by apply Qclt_not_le in Hba.
  - apply f64_ltb_Fin_false in Hba. split; [done|]. intros _.
    destruct (f64_ltb (Fin a) (Fin b)); lia.
Qed.

(** The list queue implements the interface. *)

Lemma extract_min_None l : extract_min l = None → l = [].
Proof.
  destruct l as [|x l]; [done|]. cbn.
  destruct (extract_min l) as [[y r]|]; [|done]. by case_match.
Qed.

Lemma extract_min_Some l x r : extract_min l = Some (x, r) → l ≡ₚ x :: r.
Proof.
  revert x r. induction l as [|a l IH]; intros x r; [done|]. cbn.
  destruct (extract_min l) as [[y r']|] eqn:Hl.
  - case_match; intros [= <- <-]; [|done].
    rewrite (IH _ _ eq_refl). apply perm_swap.
  - intros [= <- <-]. by rewrite (extract_min_None l Hl).
Qed.

Lemma extract_min_min l x r :
  extract_min l = Some (x, r) →
  Forall (λ y, f64_is_fin (priority y) = true) l →
  Forall (λ y, (Float64Comparator (priority x) (priority y) ≤ 0)%Z) r.
Proof.
  revert x r. induction l as [|a l IH]; intros x r; [done|]. cbn.
  intros Hx Hfin. apply Forall_cons in Hfin as [Ha Hfin].
  apply f64_is_fin_inv in Ha as [qa Ha].
  destruct (extract_min l) as [[y r']|] eqn:Hl.
  - pose proof (extract_min_Some _ _ _ Hl) as Hperm.
    specialize (IH _ _ eq_refl Hfin).
    assert (∃ qy, priority y = Fin qy) as [qy Hy].
    { apply f64_is_fin_inv. rewrite Hperm in Hfin. by apply Forall_cons in Hfin as [? _]. }
    rewrite Ha, Hy in Hx. destruct (f64_ltb (Fin qy) (Fin qa)) eqn:Hlt.
    + injection Hx as <- <-. apply Forall_cons. split; [|done].
      rewrite Ha, Hy. apply Float64Comparator_Fin, Qclt_le_weak.
      by apply f64_ltb_Fin.
    + injection Hx as <- <-. apply f64_ltb_Fin_false in Hlt.
      rewrite Hperm. apply Forall_cons. split.
      * rewrite Ha, Hy. by apply Float64Comparator_Fin.
      * rewrite Hperm in Hfin. apply Forall_cons in Hfin as [_ Hfin].
        rewrite Forall_forall in IH, Hfin |- *. intros z Hz.
        destruct (f64_is_fin_inv _ (Hfin z Hz)) as [qz Hqz].
        specialize (IH z Hz). rewrite Ha, Hqz. rewrite Hy, Hqz in IH.
        apply Float64Comparator_Fin. apply Float64Comparator_Fin in IH.
        by eapply Qcle_trans.
  - injection Hx as <- <-. constructor.
Qed.

Definition list_pq : PriorityQueue :=
  {| pq_t := list Item;
     pq_items := λ q, q;
     pq_New := [];
     Enqueue := λ x q, x :: q;
     Dequeue := extract_min;
     pq_items_New := eq_refl;
     pq_items_Enqueue := λ x q, reflexivity (x :: q);
     pq_Dequeue_None := extract_min_None;
     pq_Dequeue_Some := extract_min_Some;
     pq_Dequeue_min := extract_min_min |}.

(** The scenarios of the specification, computed. *)

Definition route_to (rt : option RouteTable) (destination : string) : option Route :=
  rt ≫= (λ rt, GetRoute rt destination).

Example triangle_route_C :
  route_to (ComputeRoutes list_pq canonical_order 10 "A" triangle) "C" =
    Some {| Destination := "C"; NextHop := "B"; Cost := f64_of_Z 2;
            Path := ["A"; "B"; "C"] |}.
Proof. vm_compute. reflexivity. Qed.

Example triangle_route_A :
  route_to (ComputeRoutes list_pq canonical_order 10 "A" triangle) "A" = None.
Proof. vm_compute. reflexivity. Qed.

(** ** Shortest paths: the specification side *)

(** Every stored cost is finite and not negative. *)
Definition costs_ok (t : Topology) : Prop :=
  map_Forall (λ _ m, map_Forall (λ _ x, f64_nonneg_fin x = true) m) (edges t).

#[global] Instance costs_ok_dec t : Decision (costs_ok t).
Proof. unfold costs_ok. apply _. Defined.

(** A node is known when some registered [NodeInfo] carries its id. *)
Definition known (t : Topology) (d : string) : Prop :=
  map_Exists (λ _ ni, ID ni = d) (nodes t).

#[global] Instance known_dec t d : Decision (known t d).
Proof. unfold known. apply _. Defined.

(** [walk t allowed u c d]: a walk along stored entries from [u] to [d]
    of total cost [c] (summed from the start), every node entered
    satisfying [allowed]. *)
Inductive walk (t : Topology) (allowed : string → Prop) (u : string)
  : Qc → string → Prop :=
| walk_nil : walk t allowed u 0%Qc u
| walk_snoc c v cw w :
    walk t allowed u c v →
    edge t v w = Some (Fin cw) →
    allowed w →
    walk t allowed u (c + cw)%Qc w.

(** [c] is the least cost of a walk from [u] to [d] through known nodes. *)
Definition shortest (t : Topology) (u d : string) (c : Qc) : Prop :=
  walk t (known t) u c d ∧ ∀ c', walk t (known t) u c' d → (c ≤ c')%Qc.


Lemma costs_ok_edge t a b x :
  costs_ok t → edge t a b = Some x → ∃ q, x = Fin q ∧ (0 ≤ q)%Qc.
Proof.
  unfold costs_ok, edge. intros Hc Hab.
  destruct (edges t !! a) as [m|] eqn:Ha; [|done]. cbn in Hab.
  apply f64_nonneg_fin_inv. exact (Hc _ _ Ha _ _ Hab).
Qed.

Lemma walk_weaken t (P P' : string → Prop) u c d :
  (∀ w, P w → P' w) → walk t P u c d → walk t P' u c d.
Proof. intros HP. induction 1; econstructor; eauto. Qed.

Lemma walk_nonneg t P u c d : costs_ok t → walk t P u c d → (0 ≤ c)%Qc.
Proof.
  intros Hc. induction 1 as [|c v cw w _ IH He _]; [done|].
  apply (costs_ok_edge _ _ _ _ Hc) in He as (q & [= <-] & Hq).
  by apply Qcplus_nonneg_nonneg.
Qed.

(** A walk with one more entry in front. *)
Lemma walk_cons t (P : string → Prop) u h ch c d :
  edge t u h = Some (Fin ch) → P h →
  walk t P h c d → walk t P u (ch + c)%Qc d.
Proof.
  intros He Hh. induction 1 as [|c v cw w _ IH Hvw Hw].
  - replace (ch + 0)%Qc with (0 + ch)%Qc by ring. econstructor; eauto. constructor.
  - replace (ch + (c + cw))%Qc with ((ch + c) + cw)%Qc by ring.
    econstructor; eauto.
Qed.

Lemma shortest_unique t u d c c' : shortest t u d c → shortest t u d c' → c = c'.
Proof. intros [H1 H2] [H1' H2']. apply Qcle_antisym; auto. Qed.

Lemma known_GetAllNodes R t d : known t d ↔ d ∈ ID <$> GetAllNodes R t.
Proof.
  unfold known, map_Exists, GetAllNodes. rewrite list_elem_of_fmap. split.
  - intros (k & ni & Hk & <-). exists ni. split; [done|].
    apply list_elem_of_fmap. exists (k, ni). split; [done|]. by apply range_of_lookup.
  - intros (ni & -> & Hin). apply list_elem_of_fmap in Hin as ([k ni'] & -> & Hin).
    apply range_of_lookup in Hin. by exists k, ni'.
Qed.

Lemma fold_mark_lookup (l : list NodeInfo) (d0 : gmap string float64) n :
  fold_left (λ d node, <[ID node := math_Inf_pos]> d) l d0 !! n =
    if decide (n ∈ ID <$> l) then Some PInf else d0 !! n.
Proof.
  revert d0. induction l as [|a l IH]; intros d0; cbn [fold_left].
  - by rewrite decide_False by apply not_elem_of_nil.
  - rewrite IH. rewrite fmap_cons. destruct (decide (n ∈ ID <$> l)) as [Hl|Hl].
    + by rewrite decide_True by (by right).
    + rewrite lookup_insert. destruct (decide (ID a = n)) as [<-|Hne].
      * by rewrite decide_True by (by left).
      * rewrite decide_False; [done|]. intros [->|?]%elem_of_cons; done.
Qed.

Lemma init_distance_src R t src :
  init_distance src (GetAllNodes R t) !! src = Some f64_zero.
Proof. unfold init_distance. by rewrite lookup_insert_eq. Qed.

Lemma init_distance_known R t src n :
  n ≠ src → known t n → init_distance src (GetAllNodes R t) !! n = Some PInf.
Proof.
  intros Hne Hk. unfold init_distance. rewrite lookup_insert_ne by done.
  rewrite fold_mark_lookup. rewrite decide_True; [done|].
  by apply known_GetAllNodes.
Qed.

Lemma init_distance_unknown R t src n :
  n ≠ src → ¬ known t n → init_distance src (GetAllNodes R t) !! n = None.
Proof.
  intros Hne Hk. unfold init_distance. rewrite lookup_insert_ne by done.
  rewrite fold_mark_lookup. rewrite decide_False; [by rewrite lookup_empty|].
  intros Hin. apply Hk. by apply (known_GetAllNodes R).
Qed.

(** ** The invariant of the main loop *)

Section SPF_invariant.
Variable R : RangeOrder.
Variable topo : Topology.
Variable src : string.
Hypothesis Hcosts : costs_ok topo.

Local Open Scope Qc_scope.

(** Nodes a relaxation can enter: known, and not the source. *)
Definition enterable (w : string) : Prop := known topo w ∧ w ≠ src.

(** The keys of [distance]. *)
Definition in_distance (n : string) : Prop := n = src ∨ known topo n.

(** [S] lists the nodes whose neighbours have been relaxed, the latest
    first; [todo] are the neighbours of the head of [S] still to relax.
    [D], [N], [P], [I] and [C] are [distance], [nextHop], [previous],
    the queued items and [neighborCache]. *)
Record Inv (S todo : list string)
    (D : gmap string float64) (N P : gmap string string) (I : list Item)
    (C : gmap string (gmap string float64)) : Prop := {
  inv_src : D !! src = Some (Fin 0);
  inv_dom : ∀ n, is_Some (D !! n) ↔ in_distance n;
  inv_walk : ∀ n x, D !! n = Some x →
    x = PInf ∨ ∃ c, x = Fin c ∧ walk topo enterable src c n;
  inv_pending : ∀ u c, D !! u = Some (Fin c) →
    u ∈ S ∨ {| nodeID := u; priority := Fin c |} ∈ I;
  inv_relaxed : ∀ u, u ∈ S → ∃ c, D !! u = Some (Fin c) ∧
    ∀ w cw, edge topo u w = Some (Fin cw) → in_distance w →
      (head S = Some u ∧ w ∈ todo) ∨ ∃ c', D !! w = Some (Fin c') ∧ c' ≤ c + cw;
  inv_items : ∀ it, it ∈ I →
    ∃ q c, priority it = Fin q ∧ D !! nodeID it = Some (Fin c) ∧ c ≤ q;
  inv_bound : ∀ u it c q, u ∈ S → it ∈ I →
    D !! u = Some (Fin c) → priority it = Fin q → c ≤ q;
  inv_head : ∀ v u cv cu, head S = Some v → u ∈ S →
    D !! v = Some (Fin cv) → D !! u = Some (Fin cu) → cu ≤ cv;
  inv_stale : ∀ it q c, it ∈ I → nodeID it ∈ S →
    priority it = Fin q → D !! nodeID it = Some (Fin c) → c < q;
  inv_nodup_items : NoDup I;
  inv_nexthop : ∀ w c, w ≠ src → D !! w = Some (Fin c) →
    ∃ h ch c2, N !! w = Some h ∧ edge topo src h = Some (Fin ch) ∧
      enterable h ∧ walk topo enterable h c2 w ∧ c = ch + c2;
  inv_previous : ∀ w c, w ≠ src → D !! w = Some (Fin c) →
    ∃ v, P !! w = Some v ∧ v ∈ S ∧ ∀ S1 S2, S = S1 ++ w :: S2 → v ∈ S2;
  inv_cache : ∀ n m, C !! n = Some m → m = GetNeighbors R topo n;
  inv_nodup_settled : NoDup S
}.

Lemma Inv_perm S todo D N P I I' C :
  I ≡ₚ I' → Inv S todo D N P I C → Inv S todo D N P I' C.
Proof.
  intros HI [].
  split; try done; intros *; rewrite <- ?HI; eauto.
Qed.

Lemma Inv_fin_nonneg S todo D N P I C n c :
  Inv S todo D N P I C → D !! n = Some (Fin c) → 0 ≤ c.
Proof.
  intros HI Hn. destruct (inv_walk _ _ _ _ _ _ _ HI _ _ Hn) as [?|(c' & [= <-] & Hw)]; [done|].
  by eapply walk_nonneg.
Qed.

Lemma Inv_settled_fin S todo D N P I C u :
  Inv S todo D N P I C → u ∈ S → ∃ c, D !! u = Some (Fin c).
Proof. intros HI Hu. destruct (inv_relaxed _ _ _ _ _ _ _ HI _ Hu) as (c & ? & _). eauto. Qed.

(** The initial state satisfies the invariant. *)
Lemma Inv_init :
  Inv [] [] (init_distance src (GetAllNodes R topo)) ∅ ∅
    [{| nodeID := src; priority := f64_zero |}] ∅.
Proof.
  assert (∀ n x, init_distance src (GetAllNodes R topo) !! n = Some x →
            (n = src ∧ x = Fin 0) ∨ (n ≠ src ∧ known topo n ∧ x = PInf)) as Hinit.
  { intros n x Hn. destruct (decide (n = src)) as [->|Hne].
    - rewrite init_distance_src in Hn. left. by simplify_eq.
    - right. split; [done|].
      destruct (decide (known topo n)) as [Hk|Hk].
      + rewrite init_distance_known in Hn by done. by simplify_eq.
      + by rewrite init_distance_unknown in Hn. }
  split.
  - apply init_distance_src.
  - intros n. split.
    + intros [x Hx]. apply Hinit in Hx as [[-> _]|(_ & ? & _)]; [by left|by right].
    + intros [->|Hk].
      * rewrite init_distance_src. eauto.
      * destruct (decide (n = src)) as [->|Hne].
        -- rewrite init_distance_src. eauto.
        -- rewrite init_distance_known by done. eauto.
  - intros n x Hx. apply Hinit in Hx as [[-> ->]|(_ & _ & ->)]; [right|by left].
    exists 0. split; [done|]. constructor.
  - intros u c Hu. apply Hinit in Hu as [[-> [= ->]]|(_ & _ & ?)]; [|done].
    right. apply list_elem_of_singleton. done.
  - intros u Hu. by apply elem_of_nil in Hu.
  - intros it ->%list_elem_of_singleton. exists 0, 0. cbn.
    rewrite init_distance_src. done.
  - intros u it c q Hu. by apply elem_of_nil in Hu.
  - intros v u cv cu Hv. done.
  - intros it q c _ Hin. by apply elem_of_nil in Hin.
  - apply NoDup_singleton.
  - intros w c Hw Hd. apply Hinit in Hd as [[? _]|(_ & _ & ?)]; done.
  - intros w c Hw Hd. apply Hinit in Hd as [[? _]|(_ & _ & ?)]; done.
  - intros n m. by rewrite lookup_empty.
  - constructor.
Qed.


(** Dropping a stale item keeps the invariant. *)
Lemma Inv_drop_stale S D N P it I C :
  Inv S [] D N P (it :: I) C →
  f64_gtb (priority it) (default f64_zero (D !! nodeID it)) = true →
  Inv S [] D N P I C.
Proof.
  intros HI Hgt. destruct HI.
  apply NoDup_cons in inv_nodup_items0 as [Hit Hnd].
  split; try done.
  - intros u c Hu. destruct (inv_pending0 u c Hu) as [?|Hin]; [by left|].
    apply elem_of_cons in Hin as [<-|?]; [|by right].
    exfalso. cbn in Hgt. rewrite Hu in Hgt. cbn in Hgt.
    apply bool_decide_eq_true in Hgt. qc_lra.
  - intros it' Hin. apply inv_items0. by right.
  - intros u it' c q Hu Hin. eapply inv_bound0; [done|by right].
  - intros it' q c Hin. apply inv_stale0. by right.
Qed.

(** Taking an item that is not stale settles its node. *)
Lemma Inv_settle S D N P it I C C' l :
  Inv S [] D N P (it :: I) C →
  f64_gtb (priority it) (default f64_zero (D !! nodeID it)) = false →
  Forall (λ y, (Float64Comparator (priority it) (priority y) ≤ 0)%Z) I →
  (∀ w cw, edge topo (nodeID it) w = Some (Fin cw) → w ∈ l) →
  (∀ n m, C' !! n = Some m → m = GetNeighbors R topo n) →
  ∃ c, priority it = Fin c ∧ D !! nodeID it = Some (Fin c) ∧ (nodeID it ∉ S) ∧
       Inv (nodeID it :: S) l D N P I C'.
Proof.
  intros HI Hgt Hmin Hl HC'. destruct HI.
  apply NoDup_cons in inv_nodup_items0 as [Hit Hnd].
  destruct (inv_items0 it) as (q & c & Hq & Hc & Hcq); [by left|].
  assert (q = c) as ->.
  { rewrite Hq, Hc in Hgt. cbn in Hgt. apply bool_decide_eq_false in Hgt. qc_lra. }
  assert (nodeID it ∉ S) as HnS.
  { intros Hin. assert (c < c) as Hlt; [|qc_lra].
    eapply (inv_stale0 it); [by left|done..]. }
  exists c. split_and!; try done.
  split; try done.
  - intros u cu Hu. destruct (inv_pending0 u cu Hu) as [?|Hin]; [left; by right|].
    apply elem_of_cons in Hin as [<-|?]; [|by right].
    left. by left.
  - intros u [->|Hu]%elem_of_cons.
    + exists c. split; [done|]. intros w cw Hw _. left. split; [done|]. eauto.
    + destruct (inv_relaxed0 u Hu) as (cu & Hcu & Hrel). exists cu. split; [done|].
      intros w cw Hw HwK. destruct (Hrel w cw Hw HwK) as [[_ Hin]|?]; [|by right].
      by apply elem_of_nil in Hin.
  - intros it' Hin. apply inv_items0. by right.
  - intros u it' cu q' [->|Hu]%elem_of_cons Hin Hcu Hq'.
    + rewrite Forall_forall in Hmin. specialize (Hmin it' Hin).
      rewrite Hq, Hq' in Hmin. apply Float64Comparator_Fin in Hmin. by simplify_eq.
    + eapply inv_bound0; [done|by right|done..].
  - intros v u cv cu [= <-] [->|Hu]%elem_of_cons Hcv Hcu.
    + simplify_eq. qc_lra.
    + simplify_eq. eapply (inv_bound0 u it); [done|by left|done..].
  - intros it' q' c' Hin [Heq|HinS]%elem_of_cons Hq' Hc'.
    + rewrite Heq in Hc'. simplify_eq.
      destruct (inv_items0 it') as (q'' & c'' & Hq'' & Hc'' & Hle); [by right|].
      rewrite Heq in Hc''. rewrite Hq' in Hq''. simplify_eq.
      destruct (Qcle_lt_or_eq _ _ Hle) as [? | Hcc]; [done|].
      exfalso. apply Hit. destruct it, it'. cbn in *. by simplify_eq.
    + eapply inv_stale0; [by right|done..].
  - intros w cw Hw Hd. destruct (inv_previous0 w cw Hw Hd) as (v & Hv & HvS & Hbefore).
    exists v. split; [done|]. split; [by right|].
    intros [|a S1] S2 Heq; cbn in Heq; simplify_eq; [done|]. by eapply Hbefore.
  - by apply NoDup_cons.
Qed.

(** A neighbour whose distance is not improved. *)
Lemma Inv_relax_keep v S w todo D N P I C c cw :
  Inv (v :: S) (w :: todo) D N P I C →
  D !! v = Some (Fin c) → edge topo v w = Some (Fin cw) →
  f64_ltb (Fin (c + cw)) (default f64_zero (D !! w)) = false →
  Inv (v :: S) todo D N P I C.
Proof.
  intros HI Hv He Hlt. destruct HI. split; try done.
  intros u Hu. destruct (inv_relaxed0 u Hu) as (cu & Hcu & Hrel).
  exists cu. split; [done|].
  intros w' cw' Hw' HK. destruct (Hrel w' cw' Hw' HK) as [[Hhead Hin]|?]; [|by right].
  apply elem_of_cons in Hin as [->|Hin]; [|by left].
  right. cbn in Hhead. simplify_eq.
  apply inv_dom0 in HK as [y Hy]. rewrite Hy in Hlt. cbn in Hlt.
  destruct (inv_walk0 _ _ Hy) as [->|(cy & -> & _)]; [done|].
  exists cy. split; [done|]. by apply f64_ltb_Fin_false in Hlt.
Qed.

(** A neighbour whose distance is improved. *)
Lemma Inv_relax_update v S w todo D N P I C c cw :
  Inv (v :: S) (w :: todo) D N P I C →
  D !! v = Some (Fin c) → edge topo v w = Some (Fin cw) →
  f64_ltb (Fin (c + cw)) (default f64_zero (D !! w)) = true →
  (w ∉ v :: S) ∧
  Inv (v :: S) todo (<[w := Fin (c + cw)]> D)
      (<[w := if decide (v = src) then w else default "" (N !! v)]> N)
      (<[w := v]> P) ({| nodeID := w; priority := Fin (c + cw) |} :: I) C.
Proof.
  intros HI Hv He Hlt.
  pose proof (Inv_fin_nonneg _ _ _ _ _ _ _ _ _ HI Hv) as Hc0.
  destruct (costs_ok_edge _ _ _ _ Hcosts He) as (? & [= <-] & Hcw0).
  destruct HI.
  assert (∃ y, D !! w = Some y ∧ (y = PInf ∨ ∃ cy, y = Fin cy ∧ c + cw < cy))
    as (y & Hy & Hycase).
  { destruct (D !! w) as [y|] eqn:Hy; cbn in Hlt.
    - exists y. split; [done|].
      destruct (inv_walk0 _ _ Hy) as [->|(cy & -> & _)]; [by left|].
      right. exists cy. split; [done|]. by apply f64_ltb_Fin in Hlt.
    - apply f64_ltb_Fin in Hlt. qc_lra. }
  assert (w ≠ src) as Hwsrc.
  { intros ->. rewrite inv_src0 in Hy.
    destruct Hycase as [->|(cy & -> & ?)]; simplify_eq. qc_lra. }
  assert (w ∉ v :: S) as HwS.
  { intros HwS. destruct (inv_relaxed0 w HwS) as (cw' & Hcw' & _).
    pose proof (inv_head0 v w c cw' eq_refl HwS Hv Hcw') as Hle.
    rewrite Hcw' in Hy. destruct Hycase as [->|(cy & -> & ?)]; simplify_eq. qc_lra. }
  assert (enterable w) as Hent.
  { split; [|done]. destruct (proj1 (inv_dom0 w)) as [?|?]; eauto. done. }
  assert (walk topo enterable src c v) as Hwalkv.
  { destruct (inv_walk0 _ _ Hv) as [?|(c' & [= <-] & ?)]; done. }
  assert (∀ u, u ∈ v :: S → w ≠ u) as HSw by (intros u Hu ->; done).
  split; [done|]. split.
  - by rewrite lookup_insert_ne.
  - intros n. rewrite lookup_insert. case_decide; [subst|done].
    split; [|eauto]. intros _. apply inv_dom0. eauto.
  - intros n x. rewrite lookup_insert. case_decide; [subst|eauto].
    intros [= <-]. right. exists (c + cw). split; [done|]. econstructor; eauto.
  - intros u cu. rewrite lookup_insert. case_decide; [subst|].
    + intros [= <-]. right. by left.
    + intros Hu. destruct (inv_pending0 u cu Hu); [by left|right; by right].
  - intros u Hu. destruct (inv_relaxed0 u Hu) as (cu & Hcu & Hrel). exists cu.
    rewrite lookup_insert_ne by (by apply HSw). split; [done|].
    intros w' cw' Hw' HK.
    destruct (Hrel w' cw' Hw' HK) as [[Hhead Hin]|(c' & Hc' & Hle)].
    + apply elem_of_cons in Hin as [->|Hin]; [|by left].
      right. cbn in Hhead. simplify_eq. exists (c + cw).
      rewrite lookup_insert_eq. split; [done|]. qc_lra.
    + right. destruct (decide (w' = w)) as [->|Hne].
      * exists (c + cw). rewrite lookup_insert_eq. split; [done|].
        rewrite Hc' in Hy. destruct Hycase as [->|(cy & -> & ?)]; simplify_eq. qc_lra.
      * exists c'. by rewrite lookup_insert_ne.
  - intros it [->|Hin]%elem_of_cons.
    + exists (c + cw), (c + cw). cbn. rewrite lookup_insert_eq.
      split_and!; [done|done|qc_lra].
    + destruct (inv_items0 it Hin) as (q & ci & Hq & Hci & Hle). exists q.
      destruct (decide (nodeID it = w)) as [Heq|Hne].
      * exists (c + cw). rewrite Heq, lookup_insert_eq. split_and!; try done.
        rewrite Heq, Hy in Hci. destruct Hycase as [->|(cy & -> & ?)]; simplify_eq. qc_lra.
      * exists ci. by rewrite lookup_insert_ne.
  - intros u it cu q Hu Hin. rewrite lookup_insert_ne by (by apply HSw).
    intros Hcu Hq. apply elem_of_cons in Hin as [->|Hin].
    + cbn in Hq. simplify_eq.
      pose proof (inv_head0 v u c cu eq_refl Hu Hv Hcu). qc_lra.
    + by eapply inv_bound0.
  - intros v' u cv cu Hhead Hu. cbn in Hhead. simplify_eq.
    rewrite !lookup_insert_ne by (apply HSw; by try left). by apply inv_head0.
  - intros it q c0 [->|Hin]%elem_of_cons HinS; [done|].
    rewrite lookup_insert_ne by (by apply HSw). by apply inv_stale0.
  - apply NoDup_cons. split; [|done]. intros Hin.
    destruct (inv_items0 _ Hin) as (q & ci & Hq & Hci & Hle). cbn in *.
    rewrite Hy in Hci. destruct Hycase as [->|(cy & -> & ?)]; simplify_eq. qc_lra.
  - intros n cn Hn. destruct (decide (n = w)) as [->|Hne].
    + rewrite !lookup_insert_eq. intros [= <-]. case_decide as Hvs.
      * subst v. rewrite inv_src0 in Hv. simplify_eq.
        exists w, cw, 0. split_and!; try done; [constructor|qc_lra].
      * destruct (inv_nexthop0 v c Hvs Hv) as (h & ch & c2 & HN & Hedge & Hh & Hwalk & ->).
        rewrite HN. cbn. exists h, ch, (c2 + cw). split_and!; try done.
        -- econstructor; eauto.
        -- ring.
    + rewrite !lookup_insert_ne by done. by apply inv_nexthop0.
  - intros n cn Hn. destruct (decide (n = w)) as [->|Hne].
    + rewrite !lookup_insert_eq. intros _. exists v. split; [done|]. split; [by left|].
      intros S1 S2 Heq. exfalso. apply HwS. rewrite Heq.
      apply elem_of_app. right. by left.
    + rewrite !lookup_insert_ne by done. by apply inv_previous0.
  - done.
  - done.
Qed.

(** *** The invariant on states *)

Variable Q : PriorityQueue.

Definition Inv_st (S todo : list string) (st : spf_state Q) : Prop :=
  Inv S todo (distance st) (nextHop st) (previous st) (pq_items Q (pq st))
    (neighborCache st).

Lemma relax_fold_Inv v S c l : ∀ st,
  Inv_st (v :: S) l.*1 st →
  NoDup l.*1 →
  (∀ w x, (w, x) ∈ l → edge topo v w = Some x) →
  distance st !! v = Some (Fin c) →
  Inv_st (v :: S) [] (fold_left (relax Q src v (Fin c)) l st) ∧
  (length (pq_items Q (pq (fold_left (relax Q src v (Fin c)) l st)))
     ≤ length (pq_items Q (pq st)) + length l)%nat.
Proof.
  induction l as [|[w x] l IH]; intros st HI Hnd Hedges Hv; cbn [fold_left].
  { split; [done|]. cbn. lia. }
  rewrite fmap_cons in HI, Hnd. cbn [fst] in HI, Hnd.
  apply NoDup_cons in Hnd as [Hwl Hnd].
  pose proof (Hedges w x (list_elem_of_here _ _)) as He.
  destruct (costs_ok_edge _ _ _ _ Hcosts He) as (cw & -> & Hcw0).
  assert (∀ w' x', (w', x') ∈ l → edge topo v w' = Some x') as Hedges'
    by (intros ???; apply Hedges; by right).
  unfold relax at 2 4. cbn [fst snd f64_add].
  destruct (f64_ltb (Fin (c + cw)) _) eqn:Hlt.
  - destruct (Inv_relax_update _ _ _ _ _ _ _ _ _ _ _ HI Hv He Hlt) as [HwS HI'].
    match goal with
    | |- context [fold_left _ l ?st'] =>
      destruct (IH st') as [HI'' Hlen]; [| done | done | | split; [exact HI''|] ]
    end.
    + unfold Inv_st. cbn. eapply Inv_perm; [|exact HI'].
      symmetry. apply pq_items_Enqueue.
    + cbn. rewrite lookup_insert_ne; [done|]. intros ->. apply HwS. by left.
    + etrans; [exact Hlen|]. cbn [pq].
      rewrite (Permutation_length (pq_items_Enqueue Q _ _)). cbn. lia.
  - pose proof (Inv_relax_keep _ _ _ _ _ _ _ _ _ _ _ HI Hv He Hlt) as HI'.
    destruct (IH _ HI' Hnd Hedges' Hv) as [HI'' Hlen].
    split; [done|]. cbn. lia.
Qed.

(** *** Progress of the main loop *)

Definition deg (n : string) : nat := size (GetNeighbors R topo n).

Definition unsettled_weight (S : list string) (D : gmap string float64) : nat :=
  sum_list (deg <$> filter (λ u, u ∉ S) (elements (dom D))).

Definition potential (S : list string) (st : spf_state Q) : nat :=
  (length (pq_items Q (pq st)) + unsettled_weight S (distance st))%nat.

Lemma filter_settled_fresh (L S : list string) v :
  v ∉ L → filter (λ u, u ∉ v :: S) L = filter (λ u, u ∉ S) L.
Proof.
  induction L as [|a L IH]; intros Hv; [done|].
  apply not_elem_of_cons in Hv as [Hva HvL]. rewrite !filter_cons.
  rewrite IH by done. destruct (decide (a ∉ S)) as [Ha|Ha].
  - rewrite decide_True; [done|]. intros [->|?]%elem_of_cons; done.
  - rewrite decide_False; [done|]. intros Hn. apply Ha. intros ?. apply Hn. by right.
Qed.

Lemma weight_settle (L S : list string) v :
  NoDup L → v ∈ L → v ∉ S →
  (sum_list (deg <$> filter (λ u, u ∉ v :: S) L) + deg v =
   sum_list (deg <$> filter (λ u, u ∉ S) L))%nat.
Proof.
  induction L as [|a L IH]; intros Hnd HvL HvS.
  { by apply elem_of_nil in HvL. }
  apply NoDup_cons in Hnd as [HaL Hnd]. rewrite !filter_cons.
  destruct (decide (a = v)) as [->|Hne].
  - rewrite decide_False by (intros Hn; apply Hn; by left).
    rewrite decide_True by done. rewrite filter_settled_fresh by done. cbn. lia.
  - apply elem_of_cons in HvL as [->|HvL]; [done|]. specialize (IH Hnd HvL HvS).
    destruct (decide (a ∉ S)) as [Ha|Ha].
    + rewrite decide_True by (intros [->|?]%elem_of_cons; done). cbn. lia.
    + rewrite decide_False; [done|]. intros Hn. apply Ha. intros ?. apply Hn. by right.
Qed.

Lemma Inv_dom_eq S todo D N P I C S' todo' D' N' P' I' C' :
  Inv S todo D N P I C → Inv S' todo' D' N' P' I' C' → dom D = dom D'.
Proof.
  intros H1 H2. apply set_eq. intros x. rewrite !elem_of_dom.
  rewrite (inv_dom _ _ _ _ _ _ _ H1), (inv_dom _ _ _ _ _ _ _ H2). done.
Qed.

Lemma cached_neighbors_spec C n :
  (∀ k m, C !! k = Some m → m = GetNeighbors R topo k) →
  (cached_neighbors R topo n C).1 = GetNeighbors R topo n ∧
  (∀ k m, (cached_neighbors R topo n C).2 !! k = Some m → m = GetNeighbors R topo k).
Proof.
  intros HC. unfold cached_neighbors. destruct (C !! n) as [m|] eqn:Hn; cbn.
  - split; [by apply HC|done].
  - split; [done|]. intros k m. rewrite lookup_insert. case_decide; [|by apply HC].
    subst. by intros [= <-].
Qed.

(** One iteration keeps the invariant and lowers the potential. *)
Lemma spf_step_Inv S st it q' :
  Inv_st S [] st →
  Dequeue Q (pq st) = Some (it, q') →
  let stale := f64_gtb (priority it) (default f64_zero (distance st !! nodeID it)) in
  let S' := if stale then S else nodeID it :: S in
  (stale = true ↔ nodeID it ∈ S) ∧
  Inv_st S' [] (spf_step Q R src topo st it q') ∧
  (potential S' (spf_step Q R src topo st it q') < potential S st)%nat.
Proof.
  intros HI Hdq. unfold Inv_st in HI.
  pose proof (pq_Dequeue_Some Q _ _ _ Hdq) as Hperm.
  assert (Forall (λ y, (Float64Comparator (priority it) (priority y) ≤ 0)%Z)
            (pq_items Q q')) as Hmin.
  { apply (pq_Dequeue_min Q _ _ _ Hdq). apply Forall_forall. intros y Hy.
    destruct (inv_items _ _ _ _ _ _ _ HI y Hy) as (q & _ & -> & _). done. }
  eapply Inv_perm in HI; [|exact Hperm].
  cbn zeta. unfold spf_step. destruct (f64_gtb _ _) eqn:Hgt.
  - split; [|split].
    + split; [intros _|done].
      destruct (inv_items _ _ _ _ _ _ _ HI it) as (q & c & Hq & Hc & Hle); [by left|].
      rewrite Hq, Hc in Hgt. cbn in Hgt. apply bool_decide_eq_true in Hgt.
      destruct (inv_pending _ _ _ _ _ _ _ HI _ _ Hc) as [?|Hin]; [done|].
      exfalso. apply elem_of_cons in Hin as [Heq|Hin].
      * rewrite <- Heq in Hq. cbn in Hq. simplify_eq. qc_lra.
      * rewrite Forall_forall in Hmin. specialize (Hmin _ Hin). cbn in Hmin.
        rewrite Hq in Hmin. apply Float64Comparator_Fin in Hmin. qc_lra.
    + by eapply Inv_drop_stale.
    + unfold potential. cbn. rewrite (Permutation_length Hperm). cbn. lia.
  - destruct (cached_neighbors_spec (neighborCache st) (nodeID it)) as [Hnb HC'].
    { apply (inv_cache _ _ _ _ _ _ _ HI). }
    rewrite Hnb.
    destruct (Inv_settle _ _ _ _ _ _ _
                (cached_neighbors R topo (nodeID it) (neighborCache st)).2
                (range_of R (GetNeighbors R topo (nodeID it))).*1
                HI Hgt Hmin) as (c & Hq & Hc & HnS & HI'); [|exact HC'|].
    { intros w cw Hw. apply range_of_keys. rewrite GetNeighbors_lookup. eauto. }
    rewrite Hq.
    match goal with
    | |- context [fold_left _ _ ?st'] =>
      destruct (relax_fold_Inv (nodeID it) S c
                  (range_of R (GetNeighbors R topo (nodeID it))) st')
        as [HI'' Hlen]
    end.
    + exact HI'.
    + apply range_of_NoDup_fst.
    + intros w x Hin. apply range_of_lookup in Hin. by rewrite <- (GetNeighbors_lookup R).
    + done.
    + split; [|split; [done|]].
      { split; [done|]. intros ?. done. }
      unfold potential, unsettled_weight.
      rewrite <- (Inv_dom_eq _ _ _ _ _ _ _ _ _ _ _ _ _ _ HI HI'').
      pose proof (weight_settle (elements (dom (distance st))) S (nodeID it)) as Hw.
      rewrite (Permutation_length Hperm). cbn [length pq] in Hlen |- *.
      rewrite range_of_length in Hlen. fold (deg (nodeID it)) in Hlen.
      assert (nodeID it ∈ elements (dom (distance st))) as Hel.
      { apply elem_of_elements, elem_of_dom. eauto. }
      specialize (Hw (NoDup_elements _) Hel HnS). lia.
Qed.

Lemma Dequeue_None_iff q : Dequeue Q q = None ↔ pq_items Q q = [].
Proof.
  split; [apply pq_Dequeue_None|]. intros Hq.
  destruct (Dequeue Q q) as [[x q']|] eqn:Hdq; [|done].
  apply pq_Dequeue_Some in Hdq. rewrite Hq in Hdq.
  by apply Permutation_nil_cons in Hdq.
Qed.

(** When the loop ends the queue is empty and the invariant holds. *)
Lemma spf_loop_partial fuel : ∀ S st st',
  Inv_st S [] st →
  spf_loop Q R src topo fuel st = Some st' →
  ∃ S', Inv_st S' [] st' ∧ pq_items Q (pq st') = [].
Proof.
  induction fuel as [|fuel IH]; intros S st st' HI Hloop; cbn in Hloop;
    destruct (Dequeue Q (pq st)) as [[it q']|] eqn:Hdq; try done.
  - injection Hloop as <-. exists S. split; [done|]. by apply Dequeue_None_iff.
  - destruct (spf_step_Inv S st it q' HI Hdq) as (_ & HI1 & _). eauto.
  - injection Hloop as <-. exists S. split; [done|]. by apply Dequeue_None_iff.
Qed.

(** The loop ends within [potential] iterations. *)
Lemma spf_loop_terminates fuel : ∀ S st,
  Inv_st S [] st →
  (potential S st ≤ fuel)%nat →
  is_Some (spf_loop Q R src topo fuel st).
Proof.
  induction fuel as [|fuel IH]; intros S st HI Hpot; cbn;
    destruct (Dequeue Q (pq st)) as [[it q']|] eqn:Hdq; try done.
  - apply pq_Dequeue_Some, Permutation_length in Hdq.
    unfold potential in Hpot. cbn in Hdq. lia.
  - destruct (spf_step_Inv S st it q' HI Hdq) as (_ & HI1 & Hlt).
    eapply IH; [exact HI1|lia].
Qed.

(** *** The distances when the loop has ended *)

Lemma final_lower_bound S st :
  Inv_st S [] st → pq_items Q (pq st) = [] →
  ∀ c' d, walk topo (known topo) src c' d →
    ∃ c, distance st !! d = Some (Fin c) ∧ c ≤ c'.
Proof.
  intros HI Hempty c' d Hwalk. unfold Inv_st in HI. rewrite Hempty in HI.
  induction Hwalk as [|c0 v cw w _ IH He Hw].
  - exists 0. split; [apply (inv_src _ _ _ _ _ _ _ HI)|done].
  - destruct IH as (c & Hc & Hle).
    assert (v ∈ S) as HvS.
    { destruct (inv_pending _ _ _ _ _ _ _ HI v c Hc) as [?|Hin]; [done|].
      by apply elem_of_nil in Hin. }
    destruct (inv_relaxed _ _ _ _ _ _ _ HI v HvS) as (c1 & Hc1 & Hrel).
    simplify_eq.
    destruct (Hrel w cw He (or_intror Hw)) as [[_ Hin]|(c2 & Hc2 & Hle2)].
    { by apply elem_of_nil in Hin. }
    exists c2. split; [done|].
    destruct (costs_ok_edge _ _ _ _ Hcosts He) as (? & ? & ?). qc_lra.
Qed.

Lemma enterable_known w : enterable w → known topo w.
Proof. by intros [? _]. Qed.

Lemma final_distance S st d c :
  Inv_st S [] st → pq_items Q (pq st) = [] →
  distance st !! d = Some (Fin c) ↔ shortest topo src d c.
Proof.
  intros HI Hempty.
  assert (∀ c0, distance st !! d = Some (Fin c0) → shortest topo src d c0) as Hfwd.
  { intros c0 Hd. split.
    - destruct (inv_walk _ _ _ _ _ _ _ HI d _ Hd) as [?|(c1 & [= <-] & Hwalk)]; [done|].
      eapply walk_weaken; [|exact Hwalk]. apply enterable_known.
    - intros c' Hwalk.
      destruct (final_lower_bound S st HI Hempty c' d Hwalk) as (c1 & Hc1 & Hle).
      by simplify_eq. }
  split; [apply Hfwd|].
  intros Hsh. destruct Hsh as [Hwalk Hmin].
  destruct (final_lower_bound S st HI Hempty c d Hwalk) as (c1 & Hc1 & Hle).
  rewrite Hc1. do 2 f_equal. apply Qcle_antisym; [done|].
  apply Hmin. by apply Hfwd.
Qed.

Lemma final_values S st d x :
  Inv_st S [] st → distance st !! d = Some x →
  x = PInf ∨ ∃ c, x = Fin c.
Proof.
  intros HI Hd. destruct (inv_walk _ _ _ _ _ _ _ HI d _ Hd) as [?|(c & ? & _)]; eauto.
Qed.

(** *** Path reconstruction and the result table *)

(** Following [previous] from a settled node ends: every step moves to
    a node settled earlier. *)
Lemma trace_back_total S todo D N P I C :
  Inv S todo D N P I C →
  ∀ fuel S1 at_ S2 path,
    S = S1 ++ at_ :: S2 → (length S2 < fuel)%nat →
    is_Some (trace_back fuel src P at_ path).
Proof.
  intros HI. induction fuel as [|fuel IH]; intros S1 a S2 path HS Hlen; [lia|].
  cbn. case_decide; [done|]. case_decide; [done|].
  assert (a ∈ S) as HaS by (rewrite HS; apply elem_of_app; right; by left).
  destruct (Inv_settled_fin _ _ _ _ _ _ _ _ HI HaS) as [c Hc].
  destruct (inv_previous _ _ _ _ _ _ _ HI a c) as (v & Hv & HvS & Hbefore); [done..|].
  rewrite Hv. cbn. pose proof (Hbefore S1 S2 HS) as HvS2.
  apply list_elem_of_split in HvS2 as (S2a & S2b & ->).
  apply (IH (S1 ++ a :: S2a) v S2b).
  - rewrite HS. by rewrite <- app_assoc.
  - rewrite length_app in Hlen. cbn in Hlen. lia.
Qed.

Lemma settled_length S todo D N P I C :
  Inv S todo D N P I C → (length S ≤ size D)%nat.
Proof.
  intros HI. rewrite <- size_dom. unfold size, set_size. cbn.
  apply submseteq_length, NoDup_submseteq.
  - apply (inv_nodup_settled _ _ _ _ _ _ _ HI).
  - intros u Hu. apply elem_of_elements, elem_of_dom.
    destruct (Inv_settled_fin _ _ _ _ _ _ _ _ HI Hu). eauto.
Qed.

(** The route written for destination [d] at distance [x]. *)
Definition route_for (st : spf_state Q) (d : string) (x : float64)
    (path : list string) : Route :=
  {| Destination := d; NextHop := default "" (nextHop st !! d); Cost := x;
     Path := reverse path |}.

Lemma collect_fold_None fuel st l :
  fold_left (collect_route Q fuel src st) l None = None.
Proof. by induction l. Qed.

Lemma collect_fold_spec fuel st l : ∀ rt0 rt,
  NoDup l.*1 →
  (∀ d, d ∈ l.*1 → routes rt0 !! d = None) →
  fold_left (collect_route Q fuel src st) l (Some rt0) = Some rt →
  sourceNode rt = sourceNode rt0 ∧
  (∀ d x, (d, x) ∈ l → d ≠ src → math_IsInf_pos x = false →
     is_Some (trace_back fuel src (previous st) d [])) ∧
  (∀ d r, routes rt !! d = Some r ↔
     routes rt0 !! d = Some r ∨
     ∃ x path, (d, x) ∈ l ∧ d ≠ src ∧ math_IsInf_pos x = false ∧
       trace_back fuel src (previous st) d [] = Some path ∧
       r = route_for st d x path).
Proof.
  induction l as [|[d0 x0] l IH]; intros rt0 rt Hnd Hfresh Hfold.
  { cbn in Hfold. injection Hfold as <-. split; [done|]. split.
    - intros d x Hin. by apply elem_of_nil in Hin.
    - intros d r. split; [by left|]. intros [?|(x & path & Hin & _)]; [done|].
      by apply elem_of_nil in Hin. }
  rewrite fmap_cons in Hnd, Hfresh. cbn [fst] in Hnd, Hfresh.
  apply NoDup_cons in Hnd as [Hd0 Hnd].
  cbn [fold_left] in Hfold. unfold collect_route at 2 in Hfold.
  cbn [fst snd mbind option_bind] in Hfold.
  assert (∀ d, d ∈ l.*1 → routes rt0 !! d = None) as Hfresh'
    by (intros d Hd; apply Hfresh; by right).
  destruct (decide (d0 = src)) as [->|Hne].
  { destruct (IH rt0 rt Hnd Hfresh' Hfold) as (Hsrc & Htb & Hrt).
    split; [done|]. split.
    - intros d x [[= -> ->]|Hin]%elem_of_cons; [done|]. by apply Htb.
    - intros d r. rewrite Hrt. split; (intros [?|(x & path & Hin & Hd & Hrest)]; [by left|]).
      + right. exists x, path. split; [by right|done].
      + apply elem_of_cons in Hin as [[= -> ->]|Hin]; [done|]. right. eauto. }
  destruct (math_IsInf_pos x0) eqn:Hinf.
  { destruct (IH rt0 rt Hnd Hfresh' Hfold) as (Hsrc & Htb & Hrt).
    split; [done|]. split.
    - intros d x [[= -> ->]|Hin]%elem_of_cons; [congruence|]. by apply Htb.
    - intros d r. rewrite Hrt. split; (intros [?|(x & path & Hin & Hd & Hx & Hrest)]; [by left|]).
      + right. exists x, path. split; [by right|done].
      + apply elem_of_cons in Hin as [[= -> ->]|Hin]; [congruence|]. right.
        exists x, path. done. }
  destruct (trace_back fuel src (previous st) d0 []) as [path0|] eqn:Htb0; cbn in Hfold.
  2: { by rewrite collect_fold_None in Hfold. }
  fold (route_for st d0 x0 path0) in Hfold.
  destruct (IH (AddRoute rt0 (route_for st d0 x0 path0)) rt Hnd)
    as (Hsrc & Htb & Hrt); [|exact Hfold|].
  { intros d Hd. cbn. rewrite lookup_insert_ne; [by apply Hfresh'|].
    intros ->. done. }
  split; [done|]. split.
  - intros d x [[= -> ->]|Hin]%elem_of_cons; [by rewrite Htb0|]. by apply Htb.
  - intros d r. rewrite Hrt. cbn. split.
    + intros [Hd|(x & path & Hin & Hrest)].
      * rewrite lookup_insert in Hd. case_decide; [|by left].
        subst d0. injection Hd as <-. right. exists x0, path0.
        split; [by left|done].
      * right. exists x, path. split; [by right|done].
    + intros [Hd|(x & path & Hin & Hd & Hx & Hpath & Hr)].
      * left. rewrite lookup_insert_ne; [done|]. intros ->.
        rewrite Hfresh in Hd by (by left). done.
      * apply elem_of_cons in Hin as [[= -> ->]|Hin].
        -- left. rewrite lookup_insert_eq. rewrite Htb0 in Hpath.
           injection Hpath as <-. by rewrite Hr.
        -- right. exists x, path. done.
Qed.

Lemma collect_fold_total fuel st l : ∀ rt0,
  (∀ d x, (d, x) ∈ l → d ≠ src → math_IsInf_pos x = false →
     is_Some (trace_back fuel src (previous st) d [])) →
  is_Some (fold_left (collect_route Q fuel src st) l (Some rt0)).
Proof.
  induction l as [|[d0 x0] l IH]; intros rt0 Htb; [by eexists|].
  cbn [fold_left]. unfold collect_route at 2. cbn [fst snd mbind option_bind].
  assert (∀ d x, (d, x) ∈ l → d ≠ src → math_IsInf_pos x = false →
            is_Some (trace_back fuel src (previous st) d [])) as Htb'
    by (intros d x Hin; apply Htb; by right).
  destruct (decide (d0 = src)); [by apply IH|].
  destruct (math_IsInf_pos x0) eqn:Hinf; [by apply IH|].
  destruct (Htb d0 x0) as [path Hpath]; [by left|done..|].
  rewrite Hpath. cbn. by apply IH.
Qed.

(** *** The computed table *)

Lemma spf_init_Inv : Inv_st [] [] (spf_init Q R src topo).
Proof.
  unfold Inv_st, spf_init. cbn. eapply Inv_perm; [|apply Inv_init].
  symmetry. rewrite pq_items_Enqueue, pq_items_New. done.
Qed.

(** Iterations that are always enough for both loops. *)
Definition spf_fuel : nat :=
  (2 + unsettled_weight [] (init_distance src (GetAllNodes R topo))
     + size (init_distance src (GetAllNodes R topo)))%nat.

(** What a table returned for [src] on [topo] satisfies. *)
Record table_ok (rt : RouteTable) : Prop := {
  tbl_source : sourceNode rt = src;
  tbl_dest : ∀ d r, routes rt !! d = Some r → Destination r = d ∧ d ≠ src;
  tbl_cost : ∀ d r, routes rt !! d = Some r →
    ∃ c, Cost r = Fin c ∧ shortest topo src d c;
  tbl_complete : ∀ d c, d ≠ src → shortest topo src d c →
    ∃ r, routes rt !! d = Some r ∧ Cost r = Fin c;
  tbl_nexthop : ∀ d r, routes rt !! d = Some r →
    ∃ c ch c2, Cost r = Fin c ∧ edge topo src (NextHop r) = Some (Fin ch) ∧
      enterable (NextHop r) ∧ shortest topo (NextHop r) d c2 ∧ c = ch + c2
}.

Lemma final_nexthop S st d c :
  Inv_st S [] st → pq_items Q (pq st) = [] →
  d ≠ src → distance st !! d = Some (Fin c) →
  ∃ ch c2, edge topo src (default "" (nextHop st !! d)) = Some (Fin ch) ∧
    enterable (default "" (nextHop st !! d)) ∧
    shortest topo (default "" (nextHop st !! d)) d c2 ∧ c = ch + c2.
Proof.
  intros HI Hempty Hd Hc.
  destruct (inv_nexthop _ _ _ _ _ _ _ HI d c Hd Hc)
    as (h & ch & c2 & HN & Hedge & Hh & Hwalk & ->).
  rewrite HN. cbn. exists ch, c2. split_and!; try done. split.
  - eapply walk_weaken; [|exact Hwalk]. apply enterable_known.
  - intros c' Hwalk'.
    assert (walk topo (known topo) src (ch + c') d) as Hsrc.
    { eapply walk_cons; [exact Hedge|by apply enterable_known|done]. }
    apply (final_distance S st d _ HI Hempty) in Hc as [_ Hmin].
    specialize (Hmin _ Hsrc). qc_lra.
Qed.

Lemma ComputeRoutes_partial fuel rt :
  ComputeRoutes Q R fuel src topo = Some rt → table_ok rt.
Proof.
  unfold ComputeRoutes. intros Hrt.
  destruct (spf_loop Q R src topo fuel (spf_init Q R src topo)) as [st|] eqn:Hloop;
    [|done]. cbn in Hrt.
  destruct (spf_loop_partial fuel [] _ st spf_init_Inv Hloop) as (S & HI & Hempty).
  unfold collect in Hrt.
  apply collect_fold_spec in Hrt as (Hsrc & Htb & Hroutes).
  2: { apply range_of_NoDup_fst. }
  2: { intros d _. apply lookup_empty. }
  assert (∀ d r, routes rt !! d = Some r ↔
            ∃ x path, distance st !! d = Some x ∧ d ≠ src ∧ math_IsInf_pos x = false ∧
              trace_back fuel src (previous st) d [] = Some path ∧
              r = route_for st d x path) as Hroutes'.
  { intros d r. rewrite Hroutes. cbn. rewrite lookup_empty. split.
    - intros [?|(x & path & Hin & Hrest)]; [done|].
      apply range_of_lookup in Hin. eauto.
    - intros (x & path & Hin & Hrest). right. exists x, path.
      split; [by apply range_of_lookup|done]. }
  assert (∀ d x, distance st !! d = Some x → math_IsInf_pos x = false →
            ∃ c, x = Fin c) as Hfin.
  { intros d x Hd Hx. destruct (final_values S st d x HI Hd) as [->|?]; done. }
  split.
  - done.
  - intros d r (x & path & _ & Hd & _ & _ & ->)%Hroutes'. done.
  - intros d r (x & path & Hx & Hd & Hinf & _ & ->)%Hroutes'.
    destruct (Hfin d x Hx Hinf) as [c ->]. exists c. split; [done|].
    by apply (final_distance S st d c HI Hempty).
  - intros d c Hd Hsh. apply (final_distance S st d c HI Hempty) in Hsh.
    destruct (Htb d (Fin c)) as [path Hpath]; [by apply range_of_lookup|done..|].
    exists (route_for st d (Fin c) path). split; [|done].
    apply Hroutes'. exists (Fin c), path. done.
  - intros d r (x & path & Hx & Hd & Hinf & _ & ->)%Hroutes'.
    destruct (Hfin d x Hx Hinf) as [c ->]. cbn.
    destruct (final_nexthop S st d c HI Hempty Hd Hx) as (ch & c2 & ?).
    exists c, ch, c2. done.
Qed.

Lemma ComputeRoutes_total fuel :
  (spf_fuel ≤ fuel)%nat → is_Some (ComputeRoutes Q R fuel src topo).
Proof.
  intros Hfuel. unfold ComputeRoutes, spf_fuel in *.
  destruct (spf_loop_terminates fuel [] _ spf_init_Inv) as [st Hloop].
  { unfold potential, spf_init. cbn.
    rewrite (Permutation_length (pq_items_Enqueue Q _ _)), pq_items_New. cbn. lia. }
  rewrite Hloop. cbn.
  destruct (spf_loop_partial fuel [] _ st spf_init_Inv Hloop) as (S & HI & Hempty).
  apply collect_fold_total. intros d x Hin Hd Hinf.
  apply range_of_lookup in Hin.
  destruct (final_values S st d x HI Hin) as [->|[c ->]]; [done|].
  assert (d ∈ S) as HdS.
  { unfold Inv_st in HI. rewrite Hempty in HI.
    destruct (inv_pending _ _ _ _ _ _ _ HI d c Hin) as [?|Hel]; [done|].
    by apply elem_of_nil in Hel. }
  apply list_elem_of_split in HdS as (S1 & S2 & HS).
  eapply (trace_back_total _ _ _ _ _ _ _ HI fuel S1 d S2 []); [done|].
  pose proof (settled_length _ _ _ _ _ _ _ HI) as Hlen.
  rewrite HS, length_app in Hlen. cbn in Hlen.
  assert (size (distance st) = size (init_distance src (GetAllNodes R topo))) as Hsz.
  { rewrite <- !size_dom. f_equal.
    eapply Inv_dom_eq; [exact HI|apply spf_init_Inv]. }
  lia.
Qed.


(** *** The earlier version runs in lockstep with the current one *)

(** A state of the earlier version: a state of the current one without
    [previous], with a visited set. *)
Definition forget (sn : spf_state Q) (vis : gmap string bool) : Legacy.spf_state Q :=
  {| Legacy.distance := distance sn;
     Legacy.nextHop := nextHop sn;
     Legacy.pq := pq sn;
     Legacy.visited := vis;
     Legacy.neighbor_cache := neighborCache sn |}.

Definition visited_is (vis : gmap string bool) (S : list string) : Prop :=
  ∀ n, default false (vis !! n) = true ↔ n ∈ S.

Lemma legacy_relax_forget v c sn vis nb :
  Legacy.relax Q src v c (forget sn vis) nb = forget (relax Q src v c sn nb) vis.
Proof. unfold Legacy.relax, relax, forget. cbn. by case_match. Qed.

Lemma legacy_relax_fold v c l : ∀ sn vis,
  fold_left (Legacy.relax Q src v c) l (forget sn vis) =
  forget (fold_left (relax Q src v c) l sn) vis.
Proof.
  induction l as [|nb l IH]; intros sn vis; [done|].
  cbn [fold_left]. by rewrite legacy_relax_forget, IH.
Qed.

Lemma legacy_step_forget S sn vis it q' :
  Inv_st S [] sn →
  Dequeue Q (pq sn) = Some (it, q') →
  visited_is vis S →
  ∃ vis' S',
    Legacy.spf_step Q R src topo (forget sn vis) it q' =
      forget (spf_step Q R src topo sn it q') vis' ∧
    visited_is vis' S' ∧
    Inv_st S' [] (spf_step Q R src topo sn it q').
Proof.
  intros HI Hdq Hvis.
  destruct (spf_step_Inv S sn it q' HI Hdq) as (Hstale & HI' & _).
  cbn zeta in HI', Hstale.
  unfold Legacy.spf_step, spf_step in *. cbn [forget Legacy.visited Legacy.distance
    Legacy.nextHop Legacy.pq Legacy.neighbor_cache].
  destruct (f64_gtb _ _) eqn:Hgt.
  - exists vis, S. assert (default false (vis !! nodeID it) = true) as ->.
    { apply Hvis. by apply Hstale. }
    done.
  - exists (<[nodeID it := true]> vis), (nodeID it :: S).
    assert (default false (vis !! nodeID it) = false) as ->.
    { apply not_true_is_false. intros Hv%Hvis. by apply Hstale in Hv. }
    split; [|split; [|done]].
    + match goal with
      | |- fold_left _ _ ?so = forget (fold_left _ _ ?sn') _ =>
        change so with (forget sn' (<[nodeID it := true]> vis))
      end.
      apply legacy_relax_fold.
    + intros n. rewrite lookup_insert. case_decide; [subst; cbn|].
      * split; [by left|done].
      * rewrite (Hvis n). split; [by right|]. intros [->|?]%elem_of_cons; done.
Qed.

Lemma legacy_loop_forget fuel : ∀ S sn vis,
  Inv_st S [] sn → visited_is vis S →
  (Legacy.spf_loop Q R src topo fuel (forget sn vis) = None ∧
   spf_loop Q R src topo fuel sn = None) ∨
  ∃ sn' vis',
    Legacy.spf_loop Q R src topo fuel (forget sn vis) = Some (forget sn' vis') ∧
    spf_loop Q R src topo fuel sn = Some sn'.
Proof.
  induction fuel as [|fuel IH]; intros S sn vis HI Hvis; cbn;
    destruct (Dequeue Q (pq sn)) as [[it q']|] eqn:Hdq; eauto.
  destruct (legacy_step_forget S sn vis it q' HI Hdq Hvis) as (vis' & S' & -> & Hvis' & HI').
  by eapply IH.
Qed.

Lemma legacy_collect_fold (st : Legacy.spf_state Q) l : ∀ rt0,
  NoDup l.*1 →
  (∀ d, d ∈ l.*1 → routes rt0 !! d = None) →
  sourceNode (fold_left (Legacy.collect_route Q src st) l rt0) = sourceNode rt0 ∧
  ∀ d r, routes (fold_left (Legacy.collect_route Q src st) l rt0) !! d = Some r ↔
    routes rt0 !! d = Some r ∨
    ∃ x, (d, x) ∈ l ∧ d ≠ src ∧ math_IsInf_pos x = false ∧
      r = {| Destination := d; NextHop := default "" (Legacy.nextHop st !! d);
             Cost := x; Path := [] |}.
Proof.
  induction l as [|[d0 x0] l IH]; intros rt0 Hnd Hfresh.
  { cbn. split; [done|]. intros d r. split; [by left|].
    intros [?|(x & Hin & _)]; [done|]. by apply elem_of_nil in Hin. }
  rewrite fmap_cons in Hnd, Hfresh. cbn [fst] in Hnd, Hfresh.
  apply NoDup_cons in Hnd as [Hd0 Hnd].
  cbn [fold_left]. unfold Legacy.collect_route at 2 4. cbn [fst snd].
  assert (∀ d, d ∈ l.*1 → routes rt0 !! d = None) as Hfresh'
    by (intros d Hd; apply Hfresh; by right).
  destruct (decide (d0 = src)) as [->|Hne].
  { destruct (IH rt0 Hnd Hfresh') as (Hsrc & Hrt). split; [done|].
    intros d r. rewrite Hrt. split; (intros [?|(x & Hin & Hd & Hrest)]; [by left|]).
    - right. exists x. split; [by right|done].
    - apply elem_of_cons in Hin as [[= -> ->]|Hin]; [done|]. right. eauto. }
  destruct (math_IsInf_pos x0) eqn:Hinf.
  { destruct (IH rt0 Hnd Hfresh') as (Hsrc & Hrt). split; [done|].
    intros d r. rewrite Hrt. split; (intros [?|(x & Hin & Hd & Hx & Hrest)]; [by left|]).
    - right. exists x. split; [by right|done].
    - apply elem_of_cons in Hin as [[= -> ->]|Hin]; [congruence|]. right.
      exists x. done. }
  match goal with
  | |- context [fold_left _ l ?rt1] => destruct (IH rt1 Hnd) as (Hsrc & Hrt)
  end.
  { intros d Hd. cbn. rewrite lookup_insert_ne; [by apply Hfresh'|].
    intros ->. done. }
  split; [done|]. intros d r. rewrite Hrt. cbn. split.
  - intros [Hd|(x & Hin & Hrest)].
    + rewrite lookup_insert in Hd. case_decide; [|by left].
      subst d0. injection Hd as <-. right. exists x0. split; [by left|done].
    + right. exists x. split; [by right|done].
  - intros [Hd|(x & Hin & Hd & Hx & Hr)].
    + left. rewrite lookup_insert_ne; [done|]. intros ->.
      rewrite Hfresh in Hd by (by left). done.
    + apply elem_of_cons in Hin as [[= -> ->]|Hin].
      * left. rewrite lookup_insert_eq. by rewrite Hr.
      * right. exists x. done.
Qed.

Lemma legacy_init_forget :
  Legacy.spf_init Q R src topo = forget (spf_init Q R src topo) ∅.
Proof. done. Qed.

Lemma visited_is_empty : visited_is ∅ [].
Proof. intros n. rewrite lookup_empty. cbn. split; [done|]. by intros ?%elem_of_nil. Qed.

Lemma Legacy_ComputeRoutes_partial fuel rt :
  Legacy.ComputeRoutes Q R fuel src topo = Some rt → table_ok rt.
Proof.
  unfold Legacy.ComputeRoutes. rewrite legacy_init_forget. intros Hrt.
  destruct (legacy_loop_forget fuel [] _ ∅ spf_init_Inv visited_is_empty)
    as [[Hold _]|(sn & vis & Hold & Hnew)]; rewrite Hold in Hrt; [done|].
  cbn in Hrt. injection Hrt as <-.
  destruct (spf_loop_partial fuel [] _ sn spf_init_Inv Hnew) as (S & HI & Hempty).
  unfold Legacy.collect.
  destruct (legacy_collect_fold (forget sn vis)
              (range_of R (Legacy.distance (forget sn vis))) (NewRouteTable src))
    as (Hsrc & Hroutes).
  { apply range_of_NoDup_fst. }
  { intros d _. apply lookup_empty. }
  cbn [forget Legacy.distance Legacy.nextHop] in *.
  set (rt := fold_left _ _ _) in *.
  assert (∀ d r, routes rt !! d = Some r ↔
            ∃ x, distance sn !! d = Some x ∧ d ≠ src ∧ math_IsInf_pos x = false ∧
              r = {| Destination := d; NextHop := default "" (nextHop sn !! d);
                     Cost := x; Path := [] |}) as Hroutes'.
  { intros d r. rewrite Hroutes. cbn. rewrite lookup_empty. split.
    - intros [?|(x & Hin & Hrest)]; [done|].
      apply range_of_lookup in Hin. eauto.
    - intros (x & Hin & Hrest). right. exists x.
      split; [by apply range_of_lookup|done]. }
  assert (∀ d x, distance sn !! d = Some x → math_IsInf_pos x = false →
            ∃ c, x = Fin c) as Hfin.
  { intros d x Hd Hx. destruct (final_values S sn d x HI Hd) as [->|?]; done. }
  split.
  - done.
  - intros d r (x & _ & Hd & _ & ->)%Hroutes'. done.
  - intros d r (x & Hx & Hd & Hinf & ->)%Hroutes'.
    destruct (Hfin d x Hx Hinf) as [c ->]. exists c. split; [done|].
    by apply (final_distance S sn d c HI Hempty).
  - intros d c Hd Hsh. apply (final_distance S sn d c HI Hempty) in Hsh.
    eexists. split; [apply Hroutes'; eauto|done].
  - intros d r (x & Hx & Hd & Hinf & ->)%Hroutes'.
    destruct (Hfin d x Hx Hinf) as [c ->]. cbn.
    destruct (final_nexthop S sn d c HI Hempty Hd Hx) as (ch & c2 & ?).
    exists c, ch, c2. done.
Qed.

Lemma Legacy_ComputeRoutes_total fuel :
  (spf_fuel ≤ fuel)%nat → is_Some (Legacy.ComputeRoutes Q R fuel src topo).
Proof.
  intros Hfuel. unfold Legacy.ComputeRoutes. rewrite legacy_init_forget.
  destruct (legacy_loop_forget fuel [] _ ∅ spf_init_Inv visited_is_empty)
    as [[_ Hnew]|(sn & vis & -> & _)]; [|by eexists].
  destruct (spf_loop_terminates fuel [] _ spf_init_Inv) as [st Hloop]; [|congruence].
  unfold potential, spf_init, spf_fuel in *. cbn.
  rewrite (Permutation_length (pq_items_Enqueue Q _ _)), pq_items_New. cbn. lia.
Qed.

End SPF_invariant.

(** ** Results on the SPF calculator *)


Lemma table_ok_pairs topo src rt d x :
  table_ok topo src rt →
  (∃ r, routes rt !! d = Some r ∧ Destination r = d ∧ Cost r = x) ↔
  d ≠ src ∧ ∃ c, x = Fin c ∧ shortest topo src d c.
Proof.
  intros Hok. split.
  - intros (r & Hr & _ & <-).
    destruct (tbl_dest _ _ _ Hok d r Hr) as [_ Hd].
    destruct (tbl_cost _ _ _ Hok d r Hr) as (c & Hc & Hsh). eauto.
  - intros (Hd & c & -> & Hsh).
    destruct (tbl_complete _ _ _ Hok d c Hd Hsh) as (r & Hr & Hc).
    exists r. split_and!; try done. by apply (tbl_dest _ _ _ Hok d r Hr).
Qed.



Lemma triangle_costs_ok : costs_ok triangle.
Proof. apply (bool_decide_eq_true_1 (costs_ok triangle)). by vm_compute. Qed.











(** C10.  On a topology whose stored costs are finite and not negative,
    the earlier calculator (visited set) and the current one (stale
    queue entries skipped) both return a table, and the two tables hold
    the same {destination, cost} pairs, whatever the iteration orders
    and the queue implementations of the two runs. *)
Theorem legacy_same_costs (Q1 Q2 : PriorityQueue) (R1 R2 : RangeOrder)
    (topo : Topology) (src : string) (fuel1 fuel2 : nat) :
  costs_ok topo →
  (spf_fuel R1 topo src ≤ fuel1)%nat →
  (spf_fuel R2 topo src ≤ fuel2)%nat →
  ∃ rt1 rt2,
    Legacy.ComputeRoutes Q1 R1 fuel1 src topo = Some rt1 ∧
    ComputeRoutes Q2 R2 fuel2 src topo = Some rt2 ∧
    ∀ d x,
      (∃ r, routes rt1 !! d = Some r ∧ Destination r = d ∧ Cost r = x) ↔
      (∃ r, routes rt2 !! d = Some r ∧ Destination r = d ∧ Cost r = x).
Proof.
  intros Hcosts Hfuel1 Hfuel2.
  destruct (Legacy_ComputeRoutes_total R1 topo src Hcosts Q1 fuel1 Hfuel1) as [rt1 Hrt1].
  destruct (ComputeRoutes_total R2 topo src Hcosts Q2 fuel2 Hfuel2) as [rt2 Hrt2].
  exists rt1, rt2. split_and!; try done. intros d x.
  rewrite (table_ok_pairs topo src rt1), (table_ok_pairs topo src rt2); [done|..].
  - by eapply ComputeRoutes_partial.
  - by eapply Legacy_ComputeRoutes_partial.
Qed.

Lemma legacy_same_costs_witness :
  ∃ rt1 rt2,
    Legacy.ComputeRoutes list_pq canonical_order
      (spf_fuel canonical_order triangle "A") "A" triangle = Some rt1 ∧
    ComputeRoutes list_pq canonical_order
      (spf_fuel canonical_order triangle "A") "A" triangle = Some rt2 ∧
    ∀ d x,
      (∃ r, routes rt1 !! d = Some r ∧ Destination r = d ∧ Cost r = x) ↔
      (∃ r, routes rt2 !! d = Some r ∧ Destination r = d ∧ Cost r = x).
Proof.
  exact (legacy_same_costs list_pq list_pq canonical_order canonical_order triangle "A"
           _ _ triangle_costs_ok (le_n _) (le_n _)).
Defined.

(** ** Topology sync (type [TopologySync]) *)

(** [LinkUpdateEvent], [TopologyLinkEntry] and [TopologySyncEvent], as
    decoded from the gossip payloads. *)
Record LinkUpdateEvent : Type := {
  lu_From : string;
  lu_To : string;
  lu_Cost : float64;
  lu_Op : string
}.

Record TopologyLinkEntry : Type := {
  link_From : string;
  link_To : string;
  link_Cost : float64
}.

Record TopologySyncEvent : Type := {
  NodeID : string;
  Links : list TopologyLinkEntry
}.

(** What a handler does besides changing the graph: it invokes the
    change-notification callback, or hands a user event to the gossip
    layer. *)
Inductive effect : Type :=
| Notify
| GossipLinkUpdate (ev : LinkUpdateEvent)
| GossipTopologySync (ev : TopologySyncEvent).

#[global] Instance effect_inhabited : Inhabited effect := populate Notify.

(** The fields of a [TopologySync].  The graph it points to
    ([ts.topology]) is shared with the other components of the node; it
    is passed to every operation and returned by it.  [ts_nodeID] is
    [ts.node.ID]; [ts_serf] tells whether [ts.node.serf] is set;
    [onTopologyChange] tells whether a callback is registered. *)
Record TopologySync : Type := {
  ts_nodeID : string;
  ts_serf : bool;
  onTopologyChange : bool;
  syncInterval : Z;
  syncEnabled : bool
}.

(** [triggerTopologyChange]: the callback runs when one is registered. *)
Definition triggerTopologyChange (ts : TopologySync) : list effect :=
  if onTopologyChange ts then [Notify] else [].

(** [handleLinkUpdate] *)
Definition handleLinkUpdate (ts : TopologySync) (t : Topology) (event : LinkUpdateEvent)
  : Topology * list effect :=
  let t' :=
    if decide (lu_Op event = "add" ∨ lu_Op event = "update") then
      UpdateLink t (lu_From event) (lu_To event) (lu_Cost event)
    else if decide (lu_Op event = "remove") then
      RemoveLink t (lu_From event) (lu_To event)
    else t in
  (t', triggerTopologyChange ts).

(** The body of [for _, link := range event.Links] in
    [handleTopologySync]; the boolean is [topologyChanged]. *)
Definition merge_link (acc : Topology * bool) (link : TopologyLinkEntry)
  : Topology * bool :=
  let existing := GetCost acc.1 (link_From link) (link_To link) in
  if negb existing.2 then
    (UpdateLink acc.1 (link_From link) (link_To link) (link_Cost link), true)
  else if f64_neb existing.1 (link_Cost link) then
    if f64_ltb (link_Cost link) existing.1 then
      (UpdateLink acc.1 (link_From link) (link_To link) (link_Cost link), true)
    else acc
  else acc.

(** [handleTopologySync] *)
Definition handleTopologySync (ts : TopologySync) (t : Topology)
    (event : TopologySyncEvent) : Topology * list effect :=
  if decide (NodeID event = ts_nodeID ts) then (t, [])
  else
    let merged := fold_left merge_link (Links event) (t, false) in
    (merged.1, if merged.2 then triggerTopologyChange ts else []).

(** [json.Marshal] refuses a float that is not finite. *)
Definition json_can_marshal (cost : float64) : bool := f64_is_fin cost.

(** [RegisterLink].  [emit_ok] tells whether [serf.UserEvent] succeeds.
    The result carries the error flag. *)
Definition RegisterLink (ts : TopologySync) (t : Topology) (from to : string)
    (cost : float64) (emit_ok : bool) : Topology * list effect * bool :=
  let t' := UpdateLink t from to cost in
  let event := {| lu_From := from; lu_To := to; lu_Cost := cost; lu_Op := "update" |} in
  if ts_serf ts then
    if negb (json_can_marshal cost) then (t', [], true)
    else if negb emit_ok then (t', [], true)
    else (t', GossipLinkUpdate event :: triggerTopologyChange ts, false)
  else (t', triggerTopologyChange ts, false).

(** [UnregisterLink] *)
Definition UnregisterLink (ts : TopologySync) (t : Topology) (from to : string)
    (emit_ok : bool) : Topology * list effect * bool :=
  let t' := RemoveLink t from to in
  let event := {| lu_From := from; lu_To := to; lu_Cost := f64_zero; lu_Op := "remove" |} in
  if ts_serf ts then
    if negb emit_ok then (t', [], true)
    else (t', GossipLinkUpdate event :: triggerTopologyChange ts, false)
  else (t', triggerTopologyChange ts, false).

(** *** The merge, in the words of the specification *)

Definition locally_absent (t : Topology) (l : TopologyLinkEntry) : Prop :=
  (GetCost t (link_From l) (link_To l)).2 = false.

Definition strictly_lower (t : Topology) (l : TopologyLinkEntry) : Prop :=
  ∃ e, GetCost t (link_From l) (link_To l) = (e, true) ∧
       f64_ltb (link_Cost l) e = true.


(** [merged t links t' n]: going through [links] from [t] in order,
    adopting a link exactly when it is absent or strictly lower at that
    point, ends in [t'] with [n] links adopted. *)
Inductive merged : Topology → list TopologyLinkEntry → Topology → nat → Prop :=
| merged_nil t : merged t [] t 0
| merged_adopt t l ls t' n :
    locally_absent t l ∨ strictly_lower t l →
    merged (UpdateLink t (link_From l) (link_To l) (link_Cost l)) ls t' n →
    merged t (l :: ls) t' (S n)
| merged_keep t l ls t' n :
    ¬ (locally_absent t l ∨ strictly_lower t l) →
    merged t ls t' n →
    merged t (l :: ls) t' n.

Lemma f64_ltb_irrefl x : f64_ltb x x = false.
Proof.
  destruct x; cbn; try done. apply bool_decide_eq_false. intros ?. qc_lra.
Qed.

Lemma f64_ltb_neb a b : f64_ltb a b = true → f64_neb b a = true.
Proof.
  unfold f64_neb, f64_eqb. destruct a, b; cbn; try done.
  intros Hlt%bool_decide_eq_true. apply negb_true_iff, bool_decide_eq_false.
  intros [= ->]. qc_lra.
Qed.


(** If [c'] is below [e] and [c] is not, then [c] is not below [c']. *)
Lemma f64_ltb_chain c c' e :
  f64_ltb c' e = true → f64_ltb c e = false → f64_ltb c c' = false.
Proof.
  destruct c, c', e; cbn; try done;
    rewrite ?bool_decide_eq_true, ?bool_decide_eq_false; intros; qc_lra.
Qed.

Lemma merge_link_adopt t b l :
  locally_absent t l ∨ strictly_lower t l →
  merge_link (t, b) l = (UpdateLink t (link_From l) (link_To l) (link_Cost l), true).
Proof.
  unfold merge_link, locally_absent, strictly_lower. cbn [fst snd].
  destruct (GetCost t (link_From l) (link_To l)) as [e ex]. cbn [fst snd].
  intros [->|(e' & [= <- ->] & Hlt)]; [done|]. cbn.
  by rewrite (f64_ltb_neb _ _ Hlt), Hlt.
Qed.

Lemma merge_link_keep t b l :
  ¬ (locally_absent t l ∨ strictly_lower t l) → merge_link (t, b) l = (t, b).
Proof.
  unfold merge_link, locally_absent, strictly_lower. cbn [fst snd].
  destruct (GetCost t (link_From l) (link_To l)) as [e ex]. cbn [fst snd].
  intros Hno. destruct ex; cbn; [|exfalso; auto].
  destruct (f64_neb e (link_Cost l)); [|done].
  destruct (f64_ltb (link_Cost l) e) eqn:Hlt; [|done].
  exfalso. apply Hno. right. eauto.
Qed.

Lemma adopt_dec t l :
  (locally_absent t l ∨ strictly_lower t l) ∨ ¬ (locally_absent t l ∨ strictly_lower t l).
Proof.
  unfold locally_absent, strictly_lower.
  destruct (GetCost t (link_From l) (link_To l)) as [e [|]]; cbn; [|by left; left].
  destruct (f64_ltb (link_Cost l) e) eqn:Hlt.
  - left. right. eauto.
  - right. intros [?|(e' & [= <-] & ?)]; congruence.
Qed.

Lemma merge_fold_merged links : ∀ t b,
  ∃ n, merged t links (fold_left merge_link links (t, b)).1 n ∧
       (fold_left merge_link links (t, b)).2 = (b || bool_decide (0 < n)%nat).
Proof.
  induction links as [|l ls IH]; intros t b; cbn [fold_left].
  { exists 0%nat. split; [constructor|]. cbn. by rewrite orb_false_r. }
  destruct (adopt_dec t l) as [Had|Hkeep].
  - rewrite (merge_link_adopt t b l Had).
    destruct (IH (UpdateLink t (link_From l) (link_To l) (link_Cost l)) true) as (n & Hm & Hb).
    exists (S n). split; [by constructor|]. rewrite Hb. cbn.
    rewrite bool_decide_eq_true_2 by lia. by rewrite orb_true_r.
  - rewrite (merge_link_keep t b l Hkeep).
    destruct (IH t b) as (n & Hm & Hb). exists n. split; [by constructor|done].
Qed.


(** *** Idempotence of the merge *)

(** A link that the merge would leave alone. *)
Definition settled (t : Topology) (l : TopologyLinkEntry) : Prop :=
  ∃ e, edge t (link_From l) (link_To l) = Some e ∧ f64_ltb (link_Cost l) e = false.

Lemma settled_iff t l : settled t l ↔ ¬ (locally_absent t l ∨ strictly_lower t l).
Proof.
  unfold settled, locally_absent, strictly_lower. rewrite GetCost_edge.
  destruct (edge t (link_From l) (link_To l)) as [e|]; cbn.
  - split.
    + intros (e1 & [= <-] & Hlt) [?|(e2 & [= <-] & ?)]; congruence.
    + intros Hno. exists e. split; [done|].
      destruct (f64_ltb (link_Cost l) e) eqn:Hlt; [|done].
      exfalso. apply Hno. right. eauto.
  - split; [by intros (? & ? & _)|]. intros Hno. exfalso. apply Hno. by left.
Qed.

Lemma merge_link_cases t b l :
  (settled t l ∧ merge_link (t, b) l = (t, b)) ∨
  ((locally_absent t l ∨ strictly_lower t l) ∧
   merge_link (t, b) l = (UpdateLink t (link_From l) (link_To l) (link_Cost l), true)).
Proof.
  destruct (adopt_dec t l) as [Had|Hkeep].
  - right. split; [done|]. by apply merge_link_adopt.
  - left. split; [by apply settled_iff|]. by apply merge_link_keep.
Qed.

Lemma merge_link_symmetric t b l : symmetric t → symmetric (merge_link (t, b) l).1.
Proof.
  intros Hs. destruct (merge_link_cases t b l) as [[_ ->]|[_ ->]]; [done|].
  by apply UpdateLink_symmetric.
Qed.

Lemma merge_link_settles t b l : settled (merge_link (t, b) l).1 l.
Proof.
  destruct (merge_link_cases t b l) as [[? ->]|[_ ->]]; [done|]. cbn [fst].
  exists (link_Cost l). rewrite edge_UpdateLink, decide_True by auto.
  split; [done|]. apply f64_ltb_irrefl.
Qed.

Lemma merge_link_keeps_settled t b l l0 :
  symmetric t → settled t l0 → settled (merge_link (t, b) l).1 l0.
Proof.
  intros Hs (e & He & Hlt).
  destruct (merge_link_cases t b l) as [[_ ->]|[Had ->]]; [by exists e|].
  cbn [fst]. unfold settled. rewrite edge_UpdateLink.
  case_decide as Hmatch; [|by exists e].
  exists (link_Cost l). split; [done|].
  assert (edge t (link_From l) (link_To l) = Some e) as Hel.
  { destruct Hmatch as [[Hf Hg]|[Hf Hg]]; rewrite Hf, Hg in He; [done|by apply Hs]. }
  unfold locally_absent, strictly_lower in Had. rewrite GetCost_edge, Hel in Had.
  destruct Had as [?|(e' & [= <-] & Hlt')]; [done|].
  by eapply f64_ltb_chain.
Qed.

Lemma merge_fold_settles links : ∀ t b,
  symmetric t →
  symmetric (fold_left merge_link links (t, b)).1 ∧
  ∀ l, (settled t l ∨ l ∈ links) → settled (fold_left merge_link links (t, b)).1 l.
Proof.
  induction links as [|l0 ls IH]; intros t b Hs; cbn [fold_left].
  { split; [done|]. intros l [?|Hin]; [done|]. by apply elem_of_nil in Hin. }
  destruct (merge_link (t, b) l0) as [t1 b1] eqn:Hstep.
  assert (symmetric t1) as Hs1.
  { pose proof (merge_link_symmetric t b l0 Hs) as H. by rewrite Hstep in H. }
  destruct (IH t1 b1 Hs1) as [Hsym Hall]. split; [done|].
  intros l Hl. apply Hall. destruct Hl as [Hl|Hin].
  - left. pose proof (merge_link_keeps_settled t b l0 l Hs Hl) as H.
    by rewrite Hstep in H.
  - apply elem_of_cons in Hin as [->|Hin]; [|by right].
    left. pose proof (merge_link_settles t b l0) as H. by rewrite Hstep in H.
Qed.

Lemma merge_fold_settled_id links : ∀ t b,
  (∀ l, l ∈ links → settled t l) → fold_left merge_link links (t, b) = (t, b).
Proof.
  induction links as [|l0 ls IH]; intros t b Hall; [done|]. cbn [fold_left].
  rewrite merge_link_keep.
  - apply IH. intros l Hl. apply Hall. by right.
  - apply settled_iff, Hall. by left.
Qed.

(** C8.  On a symmetric graph (every graph built by the mutators is
    one), handling the same topology-sync event again right after
    handling it leaves the graph as it is and triggers no callback. *)
Theorem handleTopologySync_idempotent (ts : TopologySync) (t : Topology)
    (event : TopologySyncEvent) :
  symmetric t →
  handleTopologySync ts (handleTopologySync ts t event).1 event
    = ((handleTopologySync ts t event).1, []).
Proof.
  intros Hs. unfold handleTopologySync.
  destruct (decide (NodeID event = ts_nodeID ts)) as [Heq|Hne]; cbn [fst]; [done|].
  destruct (merge_fold_settles (Links event) t false Hs) as [_ Hall].
  rewrite merge_fold_settled_id; [done|].
  intros l Hl. apply Hall. by right.
Qed.

(** A knows A-B at cost 3; B's event says A-B costs 1. *)
Definition node_A_sync : TopologySync :=
  {| ts_nodeID := "A"; ts_serf := true; onTopologyChange := true;
     syncInterval := 30; syncEnabled := true |}.

Definition graph_AB3 : Topology :=
  UpdateLink (AddNode (AddNode NewTopology (mkNode "A")) (mkNode "B")) "A" "B" (f64_of_Z 3).

Definition event_from_B : TopologySyncEvent :=
  {| NodeID := "B";
     Links := [ {| link_From := "B"; link_To := "A"; link_Cost := f64_of_Z 1 |} ] |}.

Lemma graph_AB3_symmetric : symmetric graph_AB3.
Proof. apply (built_symmetric canonical_order). repeat constructor. Qed.

Example sync_merge_adopts_lower :
  GetCost (handleTopologySync node_A_sync graph_AB3 event_from_B).1 "A" "B"
    = (f64_of_Z 1, true) ∧
  (handleTopologySync node_A_sync graph_AB3 event_from_B).2 = [Notify].
Proof. split; vm_compute; reflexivity. Qed.


(** Why idempotence is stated for symmetric graphs.  A graph value whose
    two directions disagree (no sequence of [Topology] operations
    produces one, see [built_symmetric]) can keep a link against one
    direction, adopt a later one against the other, and then adopt the
    first on the second pass. *)
Definition lopsided : Topology :=
  {| nodes := ∅;
     edges := <["A" := {["B" := f64_of_Z 5]}]> (<["B" := {["A" := f64_of_Z 1]}]> ∅) |}.

Definition event_two_links : TopologySyncEvent :=
  {| NodeID := "B";
     Links := [ {| link_From := "B"; link_To := "A"; link_Cost := f64_of_Z 3 |};
                {| link_From := "A"; link_To := "B"; link_Cost := f64_of_Z 4 |} ] |}.

Example lopsided_second_pass :
  ¬ symmetric lopsided ∧
  GetCost (handleTopologySync node_A_sync lopsided event_two_links).1 "A" "B"
    = (f64_of_Z 4, true) ∧
  GetCost (handleTopologySync node_A_sync
             (handleTopologySync node_A_sync lopsided event_two_links).1
             event_two_links).1 "A" "B"
    = (f64_of_Z 3, true).
Proof.
  split_and!; [|vm_compute; reflexivity..].
  intros Hsym. specialize (Hsym "A" "B" (f64_of_Z 5) eq_refl). vm_compute in Hsym.
  congruence.
Qed.

Lemma handleTopologySync_idempotent_witness :
  handleTopologySync node_A_sync
    (handleTopologySync node_A_sync graph_AB3 event_from_B).1 event_from_B
    = ((handleTopologySync node_A_sync graph_AB3 event_from_B).1, []).
Proof.
  exact (handleTopologySync_idempotent node_A_sync graph_AB3 event_from_B
           graph_AB3_symmetric).
Defined.

(** ** Forward manager (type [ForwardManager]) *)

(** [pb.Packet] *)
Record Packet : Type := {
  Source : string;
  pk_Destination : string;
  PacketId : string;
  Payload : list Byte.byte;
  pk_NextHop : string;
  VisitedNodes : list string
}.

(** Why a forward failed, and the message of a [pb.ForwardResponse].
    The Go code carries these as formatted strings; the model keeps the
    case and its arguments. *)
Inductive fwd_error : Type :=
| ErrNoRoute (destination : string)
| ErrNextHopNotFound (nextHop : string)
| ErrForwardRpc
| ErrForwardFailed (message : fwd_message)
with fwd_message : Type :=
| MsgPacketDelivered
| MsgPacketForwarded
| MsgError (e : fwd_error).

(** [pb.ForwardResponse] *)
Record ForwardResponse : Type := {
  fr_Success : bool;
  fr_Message : fwd_message
}.

Record ForwardStats : Type := {
  PacketsSent : Z;
  PacketsReceived : Z;
  PacketsForwarded : Z;
  PacketsDelivered : Z;
  PacketsDropped : Z
}.

(** A forward manager with what it points to: the node's graph and the
    route manager's current table.  The connection pool only caches
    connections and is left out. *)
Record ForwardManager : Type := {
  fm_nodeID : string;
  fm_topology : Topology;
  fm_routeTable : RouteTable;
  stats : ForwardStats
}.

(** The processes of a cluster, by the address their gRPC server
    listens on. *)
Abbreviation Cluster := (gmap string ForwardManager).

(** What the run of a packet shows: it arrived at a node (the packet
    after the node appended itself), it was delivered there. *)
Inductive fwd_event : Type :=
| Arrived (node : string) (packet : Packet)
| Delivered (node : string) (packet : Packet).

Definition with_stats (f : ForwardStats → ForwardStats) (fm : ForwardManager)
  : ForwardManager :=
  {| fm_nodeID := fm_nodeID fm; fm_topology := fm_topology fm;
     fm_routeTable := fm_routeTable fm; stats := f (stats fm) |}.

Definition inc_sent (s : ForwardStats) : ForwardStats :=
  {| PacketsSent := PacketsSent s + 1; PacketsReceived := PacketsReceived s;
     PacketsForwarded := PacketsForwarded s; PacketsDelivered := PacketsDelivered s;
     PacketsDropped := PacketsDropped s |}.

Definition inc_received (s : ForwardStats) : ForwardStats :=
  {| PacketsSent := PacketsSent s; PacketsReceived := PacketsReceived s + 1;
     PacketsForwarded := PacketsForwarded s; PacketsDelivered := PacketsDelivered s;
     PacketsDropped := PacketsDropped s |}.

Definition inc_forwarded (s : ForwardStats) : ForwardStats :=
  {| PacketsSent := PacketsSent s; PacketsReceived := PacketsReceived s;
     PacketsForwarded := PacketsForwarded s + 1; PacketsDelivered := PacketsDelivered s;
     PacketsDropped := PacketsDropped s |}.

Definition inc_delivered (s : ForwardStats) : ForwardStats :=
  {| PacketsSent := PacketsSent s; PacketsReceived := PacketsReceived s;
     PacketsForwarded := PacketsForwarded s; PacketsDelivered := PacketsDelivered s + 1;
     PacketsDropped := PacketsDropped s |}.

Definition inc_dropped (s : ForwardStats) : ForwardStats :=
  {| PacketsSent := PacketsSent s; PacketsReceived := PacketsReceived s;
     PacketsForwarded := PacketsForwarded s; PacketsDelivered := PacketsDelivered s;
     PacketsDropped := PacketsDropped s + 1 |}.

(** The process at [self] updates one of its counters. *)
Definition bump (self : string) (f : ForwardStats → ForwardStats) (cl : Cluster)
  : Cluster :=
  alter (with_stats f) self cl.

(** The address [getClient] dials: [RPCAddr], or ["ip:port"] when that is
    empty. *)
Definition node_address (nodeInfo : NodeInfo) : string :=
  if decide (RPCAddr nodeInfo = "") then IP nodeInfo +:+ ":" +:+ pretty (Port nodeInfo)
  else RPCAddr nodeInfo.

Definition set_NextHop (nh : string) (p : Packet) : Packet :=
  {| Source := Source p; pk_Destination := pk_Destination p; PacketId := PacketId p;
     Payload := Payload p; pk_NextHop := nh; VisitedNodes := VisitedNodes p |}.

Definition set_VisitedNodes (v : list string) (p : Packet) : Packet :=
  {| Source := Source p; pk_Destination := pk_Destination p; PacketId := PacketId p;
     Payload := Payload p; pk_NextHop := pk_NextHop p; VisitedNodes := v |}.

Definition set_PacketId (id : string) (p : Packet) : Packet :=
  {| Source := Source p; pk_Destination := pk_Destination p; PacketId := id;
     Payload := Payload p; pk_NextHop := pk_NextHop p; VisitedNodes := VisitedNodes p |}.

(** The outcome of the [ForwardPacket] RPC: the cluster afterwards, what
    the run showed, and the response ([None]: the call failed, because
    nobody listens at the address or the deadline passed). *)
Abbreviation rpc_result := (Cluster * list fwd_event * option ForwardResponse)%type.

Section Forwarding.
(** The [ForwardPacket] RPC as the caller sees it. *)
Variable rpc : Cluster → string → Packet → rpc_result.

(** [forwardPacket], run by the process listening at [self]. *)
Definition forwardPacket (cl : Cluster) (self : string) (fm : ForwardManager)
    (packet : Packet) : Cluster * list fwd_event * option fwd_error :=
  match GetRoute (fm_routeTable fm) (pk_Destination packet) with
  | None => (bump self inc_dropped cl, [], Some (ErrNoRoute (pk_Destination packet)))
  | Some route =>
    let packet := set_NextHop (NextHop route) packet in
    match GetNode (fm_topology fm) (NextHop route) with
    | None =>
      (bump self inc_dropped cl, [], Some (ErrNextHopNotFound (NextHop route)))
    | Some nextHopNode =>
      match rpc cl (node_address nextHopNode) packet with
      | (cl', evs, None) => (bump self inc_dropped cl', evs, Some ErrForwardRpc)
      | (cl', evs, Some resp) =>
        if fr_Success resp then (bump self inc_forwarded cl', evs, None)
        else (bump self inc_dropped cl', evs, Some (ErrForwardFailed (fr_Message resp)))
      end
    end
  end.

(** [HandleIncomingPacket], run by the process listening at [self]. *)
Definition HandleIncomingPacket (cl : Cluster) (self : string) (fm : ForwardManager)
    (packet : Packet) : rpc_result :=
  let cl := bump self inc_received cl in
  let packet := set_VisitedNodes (VisitedNodes packet ++ [fm_nodeID fm]) packet in
  if decide (pk_Destination packet = fm_nodeID fm) then
    (bump self inc_delivered cl,
     [Arrived (fm_nodeID fm) packet; Delivered (fm_nodeID fm) packet],
     Some {| fr_Success := true; fr_Message := MsgPacketDelivered |})
  else
    match forwardPacket cl self fm packet with
    | (cl', evs, Some err) =>
      (cl', Arrived (fm_nodeID fm) packet :: evs,
       Some {| fr_Success := false; fr_Message := MsgError err |})
    | (cl', evs, None) =>
      (cl', Arrived (fm_nodeID fm) packet :: evs,
       Some {| fr_Success := true; fr_Message := MsgPacketForwarded |})
    end.

End Forwarding.

(** The [ForwardPacket] RPC to the process listening at [addr]
    ([NodeServer.ForwardPacket]).  [fuel] bounds the chain of nested
    calls, as the caller's deadline does. *)
Fixpoint rpc_ForwardPacket (fuel : nat) (cl : Cluster) (addr : string)
    (packet : Packet) : rpc_result :=
  match fuel with
  | O => (cl, [], None)
  | S fuel' =>
    match cl !! addr with
    | None => (cl, [], None)
    | Some fm => HandleIncomingPacket (rpc_ForwardPacket fuel') cl addr fm packet
    end
  end.

(** The packet [ForwardManager.SendPacket] creates; [now] is
    [time.Now().UnixNano()]. *)
Definition mint_packet (nodeID destination : string) (payload : list Byte.byte)
    (now : Z) : Packet :=
  {| Source := nodeID;
     pk_Destination := destination;
     PacketId := "pkt-" +:+ nodeID +:+ "-" +:+ pretty now;
     Payload := payload;
     pk_NextHop := "";
     VisitedNodes := [nodeID] |}.

(** [ForwardManager.SendPacket], run by the process listening at [self]. *)
Definition ForwardManager_SendPacket (fuel : nat) (cl : Cluster) (self : string)
    (fm : ForwardManager) (destination : string) (payload : list Byte.byte) (now : Z)
  : Cluster * list fwd_event * option fwd_error :=
  let packet := mint_packet (fm_nodeID fm) destination payload now in
  forwardPacket (rpc_ForwardPacket fuel) (bump self inc_sent cl) self fm packet.

(** ** Control-plane [SendPacket] *)

Record SendPacketRequest : Type := {
  SourceAddress : string;
  sp_Packet : option Packet
}.

Inductive send_message : Type :=
| MsgSourceAddressEmpty
| MsgPacketNil
| MsgSendFailed
| MsgForwardingFailed (message : fwd_message)
| MsgSentSuccessfully (message : fwd_message).

Record SendPacketResponse : Type := {
  sp_Success : bool;
  sp_Message : send_message;
  sp_PacketId : string
}.

(** The id [ControlServer.SendPacket] gives a packet, and the packet it
    sends on. *)
Definition control_packet_id (NodeID_ : string) (packet : Packet) (now : Z) : string :=
  if decide (PacketId packet = "") then "pkt-" +:+ pretty now +:+ "-" +:+ NodeID_
  else PacketId packet.

(** [ControlServer.SendPacket] on the server of node [NodeID_]. *)
Definition ControlServer_SendPacket (fuel : nat) (cl : Cluster) (NodeID_ : string)
    (req : SendPacketRequest) (now : Z)
  : Cluster * list fwd_event * SendPacketResponse :=
  if decide (SourceAddress req = "") then
    (cl, [], {| sp_Success := false; sp_Message := MsgSourceAddressEmpty;
                sp_PacketId := "" |})
  else
    match sp_Packet req with
    | None =>
      (cl, [], {| sp_Success := false; sp_Message := MsgPacketNil; sp_PacketId := "" |})
    | Some packet =>
      let packetID := control_packet_id NodeID_ packet now in
      let packet := set_PacketId packetID packet in
      match rpc_ForwardPacket fuel cl (SourceAddress req) packet with
      | (cl', evs, None) =>
        (cl', evs, {| sp_Success := false; sp_Message := MsgSendFailed;
                      sp_PacketId := packetID |})
      | (cl', evs, Some resp) =>
        if fr_Success resp then
          (cl', evs, {| sp_Success := true;
                        sp_Message := MsgSentSuccessfully (fr_Message resp);
                        sp_PacketId := packetID |})
        else
          (cl', evs, {| sp_Success := false;
                        sp_Message := MsgForwardingFailed (fr_Message resp);
                        sp_PacketId := packetID |})
      end
    end.

(** *** Facts on forwarding *)

Lemma bump_lookup self f (cl : Cluster) a :
  bump self f cl !! a = if decide (self = a) then with_stats f <$> cl !! a else cl !! a.
Proof. unfold bump. rewrite lookup_alter. case_decide; by subst. Qed.

(** A table returned by [ComputeRoutes] has no entry for its source. *)
Lemma ComputeRoutes_excludes_source Q R fuel src topo rt :
  ComputeRoutes Q R fuel src topo = Some rt →
  sourceNode rt = src ∧ routes rt !! src = None.
Proof.
  unfold ComputeRoutes. destruct (spf_loop Q R src topo fuel _) as [st|]; [|done].
  cbn. unfold collect. intros Hrt.
  apply collect_fold_spec in Hrt as (Hsrc & _ & Hroutes).
  - split; [done|]. destruct (routes rt !! src) as [r|] eqn:Hr; [|done].
    apply Hroutes in Hr as [Hr|(x & path & _ & Hne & _)]; [|done].
    cbn in Hr. by rewrite lookup_empty in Hr.
  - apply range_of_NoDup_fst.
  - intros d _. apply lookup_empty.
Qed.

(** The tables a node's route manager can hold: the empty table of
    [NewRouteManager], or one that [RecomputeRoutes] got from
    [ComputeRoutes] for the node's own id. *)
Definition routes_for (nodeID_ : string) (rt : RouteTable) : Prop :=
  rt = NewRouteTable nodeID_ ∨
  ∃ Q R fuel topo, ComputeRoutes Q R fuel nodeID_ topo = Some rt.

Lemma routes_for_excludes_self nodeID_ rt :
  routes_for nodeID_ rt → routes rt !! nodeID_ = None.
Proof.
  intros [->|(Q & R & fuel & topo & Hrt)].
  - apply lookup_empty.
  - by apply ComputeRoutes_excludes_source in Hrt as [_ ?].
Qed.






(** Two processes on one machine, A-B at cost 1, each holding the table
    it computed for itself. *)
Definition nodeA_info : NodeInfo :=
  {| ID := "A"; IP := "127.0.0.1"; Port := 5001; RPCAddr := ""; Status := NodeStatusAlive |}.

Definition nodeB_info : NodeInfo :=
  {| ID := "B"; IP := "127.0.0.1"; Port := 5002; RPCAddr := ""; Status := NodeStatusAlive |}.

Definition two_nodes : Topology :=
  UpdateLink (AddNode (AddNode NewTopology nodeA_info) nodeB_info) "A" "B" (f64_of_Z 1).

Definition table_of (id : string) : RouteTable :=
  default (NewRouteTable id) (ComputeRoutes list_pq canonical_order 10 id two_nodes).

Definition no_stats : ForwardStats :=
  {| PacketsSent := 0; PacketsReceived := 0; PacketsForwarded := 0;
     PacketsDelivered := 0; PacketsDropped := 0 |}.

Definition process (id : string) : ForwardManager :=
  {| fm_nodeID := id; fm_topology := two_nodes; fm_routeTable := table_of id;
     stats := no_stats |}.

Definition two_node_cluster : Cluster :=
  <["127.0.0.1:5001" := process "A"]> (<["127.0.0.1:5002" := process "B"]> ∅).

Definition payload_hi : list Byte.byte := [Byte.x68; Byte.x69].


Definition packet_seen_at_B : Packet :=
  {| Source := "A"; pk_Destination := "B"; PacketId := "pkt-A-42";
     Payload := payload_hi; pk_NextHop := "B"; VisitedNodes := ["A"; "B"] |}.

Lemma table_of_A_computed : routes_for "A" (table_of "A").
Proof.
  right. exists list_pq, canonical_order, 10%nat, two_nodes. vm_compute. reflexivity.
Qed.



(** *** Packet ids *)

(** The form the specification gives: ["pkt-{source}-{nanoseconds}"]. *)
Definition packet_id_form (source : string) (nanos : Z) : string :=
  "pkt-" +:+ source +:+ "-" +:+ pretty nanos.

Lemma mint_packet_id nodeID_ destination payload now :
  PacketId (mint_packet nodeID_ destination payload now)
    = packet_id_form (Source (mint_packet nodeID_ destination payload now)) now.
Proof. done. Qed.

Lemma control_packet_id_kept NodeID_ packet now :
  PacketId packet ≠ "" → control_packet_id NodeID_ packet now = PacketId packet.
Proof. intros Hne. unfold control_packet_id. by rewrite decide_False. Qed.

Lemma control_packet_id_assigned NodeID_ packet now :
  PacketId packet = "" →
  control_packet_id NodeID_ packet now = "pkt-" +:+ pretty now +:+ "-" +:+ NodeID_.
Proof. intros Heq. unfold control_packet_id. by rewrite decide_True. Qed.

Lemma ControlServer_SendPacket_id fuel cl NodeID_ SourceAddress_ packet now :
  SourceAddress_ ≠ "" →
  sp_PacketId (ControlServer_SendPacket fuel cl NodeID_
                 {| SourceAddress := SourceAddress_; sp_Packet := Some packet |} now).2
    = control_packet_id NodeID_ packet now.
Proof.
  intros Hne. unfold ControlServer_SendPacket. cbn. rewrite decide_False by done.
  destruct (rpc_ForwardPacket _ _ _ _) as [[cl' evs] [resp|]]; [|done].
  by destruct (fr_Success resp).
Qed.

(** A packet without id, injected for source A through A's own control
    server, as the control tool does. *)
Definition injected_packet : Packet :=
  {| Source := "A"; pk_Destination := "B"; PacketId := ""; Payload := payload_hi;
     pk_NextHop := ""; VisitedNodes := [] |}.

(** C6, at the input where the code departs from it.  The forward
    manager's send gives ["pkt-A-42"]; the control-plane [SendPacket]
    gives the same packet ["pkt-42-A"]: the timestamp comes first, and
    the id is the control server's. *)
Theorem control_packet_id_swapped :
  sp_PacketId (ControlServer_SendPacket 2 two_node_cluster "A"
                 {| SourceAddress := "127.0.0.1:5001";
                    sp_Packet := Some injected_packet |} 42).2 = "pkt-42-A" ∧
  packet_id_form (Source injected_packet) 42 = "pkt-A-42" ∧
  PacketId (mint_packet "A" "B" payload_hi 42) = "pkt-A-42".
Proof. split_and!; vm_compute; reflexivity. Qed.

(** ** Link probing and [AddLink] (gRPC servers) *)

(** [a * b] *)
Definition f64_mul (a b : float64) : float64 :=
  let inf_times (x : Qc) (positive : bool) : float64 :=
    if bool_decide (x = 0)%Qc then NaN
    else if bool_decide (bool_decide (0 < x)%Qc = positive) then PInf else NInf in
  match a, b with
  | NaN, _ | _, NaN => NaN
  | Fin x, Fin y => Fin (x * y)%Qc
  | Fin x, PInf | PInf, Fin x => inf_times x true
  | Fin x, NInf | NInf, Fin x => inf_times x false
  | PInf, PInf | NInf, NInf => PInf
  | PInf, NInf | NInf, PInf => NaN
  end.

Record ProbeRequest : Type := {
  pr_Source : string;
  pr_Target : string;
  SelfDebug : bool
}.

Record ProbeResponse : Type := {
  pr_Success : bool;
  pr_Message : string;
  RttMs : Z;
  pr_Cost : float64
}.

(** [NodeServer.ProbeLinkQuality].  The two random draws are inputs:
    [intn] is the value of [rand.Intn(50)] and [unit_float] that of
    [rand.Float64()].  [None] is the panic of the production branch. *)
Definition ProbeLinkQuality (req : ProbeRequest) (intn : Z) (unit_float : Qc)
  : option ProbeResponse :=
  if SelfDebug req then
    let rttMs := (1 + intn)%Z in
    let cost := f64_add (f64_of_Z 1) (f64_mul (Fin unit_float) (f64_of_Z 19)) in
    Some {| pr_Success := true; pr_Message := ""; RttMs := rttMs; pr_Cost := cost |}
  else None.

(** What [rand.Intn(50)] and [rand.Float64()] may return. *)
Definition rand_Intn_50 (n : Z) : Prop := (0 ≤ n < 50)%Z.

Definition rand_Float64 (f : Qc) : Prop := (0 ≤ f ∧ f < 1)%Qc.

Record AddLinkRequest : Type := {
  Neighbor : string;
  NeighborAddress : string;
  al_Cost : float64;
  AutoProbe : bool
}.

Inductive addlink_message : Type :=
  | MsgNeighborEmpty
  | MsgNeighborAddressEmpty
  | MsgProbeFailed
  | MsgLinkAdded (from to : string) (cost : float64).

Record AddLinkResponse : Type := {
  al_Success : bool;
  al_Message : addlink_message;
  alr_Cost : float64
}.

Record ControlServer : Type := {
  cs_NodeID : string;
  cs_TopologySync : option TopologySync
}.

(** The node service of the process listening on an address, as seen by
    a client: [None] is a failed dial or call. *)
Abbreviation probe_service := (string → ProbeRequest → option ProbeResponse).

(** [ControlServer.probeLinkCost]; [None] is the error return. *)
Definition probeLinkCost (peer : probe_service) (s : ControlServer) (address : string)
  : option float64 :=
  match peer address {| pr_Source := cs_NodeID s; pr_Target := ""; SelfDebug := true |} with
  | None => None
  | Some resp => if pr_Success resp then Some (pr_Cost resp) else None
  end.

(** The neighbour record [AddLink] registers. *)
Definition neighborNode (req : AddLinkRequest) : NodeInfo :=
  {| ID := Neighbor req; IP := ""; Port := 0; RPCAddr := NeighborAddress req;
     Status := NodeStatusUnknown |}.

(** [ControlServer.AddLink], on the graph [t] the server shares with the
    other components of the process. *)
Definition AddLink (peer : probe_service) (emit_ok : bool) (s : ControlServer)
    (t : Topology) (req : AddLinkRequest) : Topology * list effect * AddLinkResponse :=
  if decide (Neighbor req = "") then
    (t, [], {| al_Success := false; al_Message := MsgNeighborEmpty; alr_Cost := f64_zero |})
  else if decide (NeighborAddress req = "") then
    (t, [], {| al_Success := false; al_Message := MsgNeighborAddressEmpty;
               alr_Cost := f64_zero |})
  else
    let t1 := AddNode t (neighborNode req) in
    let probed :=
      if AutoProbe req || f64_leb (al_Cost req) f64_zero
      then probeLinkCost peer s (NeighborAddress req)
      else Some (al_Cost req) in
    match probed with
    | None =>
        (t1, [], {| al_Success := false; al_Message := MsgProbeFailed;
                    alr_Cost := f64_zero |})
    | Some finalCost =>
        let t2 := UpdateLink t1 (cs_NodeID s) (Neighbor req) finalCost in
        let '(t3, effects) :=
          match cs_TopologySync s with
          | Some ts =>
              (RegisterLink ts t2 (cs_NodeID s) (Neighbor req) finalCost emit_ok).1
          | None => (t2, [])
          end in
        (t3, effects,
         {| al_Success := true;
            al_Message := MsgLinkAdded (cs_NodeID s) (Neighbor req) finalCost;
            alr_Cost := finalCost |})
    end.

(** *** The debug probe *)

Lemma f64_leb_Fin a b : f64_leb (Fin a) (Fin b) = true ↔ (a ≤ b)%Qc.
Proof. cbn. apply bool_decide_eq_true. Qed.

(** C9: with [self_debug] set the probe answers successfully, with an
    [rtt_ms] between 1 and 50 and a finite cost between 1.0 and 20.0,
    whatever [rand.Intn(50)] and [rand.Float64()] draw. *)
Theorem ProbeLinkQuality_self_debug_ranges (req : ProbeRequest) (intn : Z)
    (unit_float : Qc) :
  SelfDebug req = true → rand_Intn_50 intn → rand_Float64 unit_float →
  ∃ resp, ProbeLinkQuality req intn unit_float = Some resp ∧
          pr_Success resp = true ∧
          (1 ≤ RttMs resp ≤ 50)%Z ∧
          f64_is_fin (pr_Cost resp) = true ∧
          f64_leb (f64_of_Z 1) (pr_Cost resp) = true ∧
          f64_leb (pr_Cost resp) (f64_of_Z 20) = true.
Proof.
  intros Hdebug Hn [Hf0 Hf1]. unfold ProbeLinkQuality. rewrite Hdebug.
  eexists. split; [reflexivity|]. cbn [pr_Success RttMs pr_Cost].
  unfold rand_Intn_50 in Hn. split_and!; [done|lia|lia|done|..].
  - apply f64_leb_Fin. unfold Qcle, Qclt in *.
    cbn [this Qcplus Qcmult Q2Qc] in *. rewrite ?Qred_correct in *.
    change (this 0%Qc) with 0%Q in *. change (this 1%Qc) with 1%Q in *.
    unfold inject_Z in *. lra.
  - apply f64_leb_Fin. unfold Qcle, Qclt in *.
    cbn [this Qcplus Qcmult Q2Qc] in *. rewrite ?Qred_correct in *.
    change (this 0%Qc) with 0%Q in *. change (this 1%Qc) with 1%Q in *.
    unfold inject_Z in *. lra.
Qed.

Lemma ProbeLinkQuality_self_debug_ranges_witness :
  ∃ resp, ProbeLinkQuality {| pr_Source := "A"; pr_Target := ""; SelfDebug := true |}
            49 (Q2Qc (1 # 2)) = Some resp ∧
          pr_Success resp = true ∧
          (1 ≤ RttMs resp ≤ 50)%Z ∧
          f64_is_fin (pr_Cost resp) = true ∧
          f64_leb (f64_of_Z 1) (pr_Cost resp) = true ∧
          f64_leb (pr_Cost resp) (f64_of_Z 20) = true.
Proof.
  apply (ProbeLinkQuality_self_debug_ranges
           {| pr_Source := "A"; pr_Target := ""; SelfDebug := true |} 49 (Q2Qc (1 # 2))).
  - reflexivity.
  - unfold rand_Intn_50. lia.
  - split; [by vm_compute|by vm_compute].
Defined.

(** The same draw, evaluated: rtt 50 ms, cost 1 + 19/2. *)
Example probe_half :
  ProbeLinkQuality {| pr_Source := "A"; pr_Target := ""; SelfDebug := true |}
    49 (Q2Qc (1 # 2))
  = Some {| pr_Success := true; pr_Message := ""; RttMs := 50;
            pr_Cost := Fin (Q2Qc (21 # 2)) |}.
Proof.
  unfold ProbeLinkQuality. cbn. do 2 f_equal.
Qed.

(** Outside debug mode the handler panics. *)
Lemma ProbeLinkQuality_production req intn unit_float :
  SelfDebug req = false → ProbeLinkQuality req intn unit_float = None.
Proof. intros Hoff. unfold ProbeLinkQuality. by rewrite Hoff. Qed.

(** *** Link costs on their way into the graph *)

Lemma RegisterLink_graph ts t from to cost emit_ok :
  (RegisterLink ts t from to cost emit_ok).1.1 = UpdateLink t from to cost.
Proof.
  unfold RegisterLink. destruct (ts_serf ts); [|done].
  destruct (json_can_marshal cost); [|done]. by destruct emit_ok.
Qed.

(** A gossip link-update with a negative cost, and an [AddLink] request
    with an infinite one. *)
Definition negative_update : LinkUpdateEvent :=
  {| lu_From := "A"; lu_To := "B"; lu_Cost := f64_of_Z (-1); lu_Op := "update" |}.

Definition infinite_link : AddLinkRequest :=
  {| Neighbor := "B"; NeighborAddress := "127.0.0.1:5002"; al_Cost := PInf;
     AutoProbe := false |}.

Definition control_A : ControlServer :=
  {| cs_NodeID := "A"; cs_TopologySync := Some node_A_sync |}.

(** A peer answering every debug probe with cost 1 + 19/2. *)
Definition steady_peer : probe_service :=
  λ _ req, ProbeLinkQuality req 49 (Q2Qc (1 # 2)).

(** C7 as stated fails on both paths: starting from the empty graph, the
    gossip handler stores the cost -1 and [AddLink] stores +Inf, and the
    graph no longer satisfies [costs_ok]. *)
Lemma bad_costs_reach_the_graph :
  costs_ok NewTopology ∧
  GetCost (handleLinkUpdate node_A_sync NewTopology negative_update).1 "A" "B"
    = (f64_of_Z (-1), true) ∧
  ¬ costs_ok (handleLinkUpdate node_A_sync NewTopology negative_update).1 ∧
  GetCost (AddLink steady_peer true control_A NewTopology infinite_link).1.1 "A" "B"
    = (PInf, true) ∧
  ¬ costs_ok (AddLink steady_peer true control_A NewTopology infinite_link).1.1.
Proof.
  split_and!.
  - apply (bool_decide_eq_true_1 (costs_ok NewTopology)). by vm_compute.
  - vm_compute. reflexivity.
  - apply (bool_decide_eq_false_1 (costs_ok _)). by vm_compute.
  - vm_compute. reflexivity.
  - apply (bool_decide_eq_false_1 (costs_ok _)). by vm_compute.
Qed.

Lemma f64_leb_zero_false c :
  f64_leb c f64_zero = false ↔ c = PInf ∨ c = NaN ∨ ∃ q, c = Fin q ∧ (0 < q)%Qc.
Proof.
  destruct c as [q| | |]; cbn.
  - rewrite bool_decide_eq_false. split.
    + intros Hq. right. right. exists q. split; [done|]. by apply Qcnot_le_lt.
    + intros [?|[?|(q' & [= <-] & Hq)]]; [done..|]. by apply Qclt_not_le.
  - split; [by left|done].
  - split; [done|]. intros [?|[?|(q' & ? & _)]]; done.
  - split; [by (right; left)|done].
Qed.

(** C7, as the code has it.  Neither path rejects a cost.  A gossip
    link-update with op add or update stores the decoded cost unchanged.
    [AddLink], once the neighbour id and address are non-empty, registers
    the neighbour first; when [auto_probe] is set or the supplied cost is
    [<= 0] it stores the probed cost instead (and stores no link if the
    probe fails); otherwise it stores the supplied cost unchanged, which
    is then positive, [+Inf] or NaN. *)
Theorem link_costs_unvalidated :
  (∀ ts t event,
     lu_Op event = "add" ∨ lu_Op event = "update" →
     GetCost (handleLinkUpdate ts t event).1 (lu_From event) (lu_To event)
       = (lu_Cost event, true)) ∧
  (∀ peer emit_ok s t req,
     Neighbor req ≠ "" → NeighborAddress req ≠ "" →
     let after := (AddLink peer emit_ok s t req).1.1 in
     if AutoProbe req || f64_leb (al_Cost req) f64_zero then
       match probeLinkCost peer s (NeighborAddress req) with
       | Some probed => GetCost after (cs_NodeID s) (Neighbor req) = (probed, true)
       | None => after = AddNode t (neighborNode req)
       end
     else
       GetCost after (cs_NodeID s) (Neighbor req) = (al_Cost req, true) ∧
       (al_Cost req = PInf ∨ al_Cost req = NaN ∨
        ∃ q, al_Cost req = Fin q ∧ (0 < q)%Qc)).
Proof.
  split.
  - intros ts t event Hop. unfold handleLinkUpdate. rewrite decide_True by done.
    cbn [fst]. apply GetCost_UpdateLink.
  - intros peer emit_ok s t req Hn Ha. cbn zeta. unfold AddLink.
    rewrite !decide_False by done.
    destruct (AutoProbe req || f64_leb (al_Cost req) f64_zero) eqn:Hguard.
    + destruct (probeLinkCost peer s (NeighborAddress req)) as [probed|]; [|done].
      destruct (cs_TopologySync s) as [ts|]; [|apply GetCost_UpdateLink].
      destruct (RegisterLink _ _ _ _ _ _) as [[t3 effects] err] eqn:Hreg.
      cbn [fst]. pose proof (RegisterLink_graph ts
        (UpdateLink (AddNode t (neighborNode req)) (cs_NodeID s) (Neighbor req) probed)
        (cs_NodeID s) (Neighbor req) probed emit_ok) as Hgraph.
      rewrite Hreg in Hgraph. cbn in Hgraph. subst t3. apply GetCost_UpdateLink.
    + apply orb_false_iff in Hguard as [_ Hpos]. split; [|by apply f64_leb_zero_false].
      destruct (cs_TopologySync s) as [ts|]; [|apply GetCost_UpdateLink].
      destruct (RegisterLink _ _ _ _ _ _) as [[t3 effects] err] eqn:Hreg.
      cbn [fst]. pose proof (RegisterLink_graph ts
        (UpdateLink (AddNode t (neighborNode req)) (cs_NodeID s) (Neighbor req)
           (al_Cost req))
        (cs_NodeID s) (Neighbor req) (al_Cost req) emit_ok) as Hgraph.
      rewrite Hreg in Hgraph. cbn in Hgraph. subst t3. apply GetCost_UpdateLink.
Qed.

(** A request with cost -1 and no [auto_probe]: the probed cost is stored. *)
Definition negative_link : AddLinkRequest :=
  {| Neighbor := "B"; NeighborAddress := "127.0.0.1:5002"; al_Cost := f64_of_Z (-1);
     AutoProbe := false |}.

Lemma link_costs_unvalidated_witness :
  GetCost (AddLink steady_peer true control_A NewTopology negative_link).1.1 "A" "B"
    = (Fin (Q2Qc (21 # 2)), true) ∧
  GetCost (handleLinkUpdate node_A_sync NewTopology negative_update).1 "A" "B"
    = (f64_of_Z (-1), true).
Proof.
  destruct link_costs_unvalidated as [Hgossip Hadd]. split.
  - pose proof (Hadd steady_peer true control_A NewTopology negative_link
                  ltac:(done) ltac:(done)) as Hrun.
    cbn zeta in Hrun.
    assert (AutoProbe negative_link || f64_leb (al_Cost negative_link) f64_zero = true)
      as Hguard by (by vm_compute).
    rewrite Hguard in Hrun.
    assert (probeLinkCost steady_peer control_A (NeighborAddress negative_link)
              = Some (Fin (Q2Qc (21 # 2)))) as Hprobe
      by (unfold probeLinkCost, steady_peer, ProbeLinkQuality; cbn; do 2 f_equal).
    rewrite Hprobe in Hrun. exact Hrun.
  - apply (Hgossip node_A_sync NewTopology negative_update). by right.
Defined.

(** * Further properties of the components *)

(** ** Topology graph: what each operation changes and what it leaves *)

(** X1.  [UpdateLink a b c] sets the cost of the pair in both directions
    and of nothing else: every other entry reads as before, the later of
    two writes to a pair wins, and no node is registered or dropped. *)
Theorem UpdateLink_only_the_pair (t : Topology) (a b : string) (c : float64) :
  (∀ x y, GetCost (UpdateLink t a b c) x y
            = if decide ((x = a ∧ y = b) ∨ (x = b ∧ y = a)) then (c, true)
              else GetCost t x y) ∧
  (∀ c0, GetCost (UpdateLink (UpdateLink t a b c0) b a c) a b = (c, true)) ∧
  (∀ n, GetNode (UpdateLink t a b c) n = GetNode t n).
Proof.
  split_and!.
  - intros x y. rewrite !GetCost_edge, edge_UpdateLink. by case_decide.
  - intros c0. rewrite GetCost_edge, edge_UpdateLink. by rewrite decide_True by auto.
  - done.
Qed.

(** X2.  [RemoveLink a b] removes the pair in both directions and
    leaves every other entry and every node; on a link that is not there
    (unknown endpoints included) it changes no cost.  A link written and
    then removed leaves all other entries as they were. *)
Theorem RemoveLink_only_the_pair (t : Topology) (a b : string) :
  (∀ x y, GetCost (RemoveLink t a b) x y
            = if decide ((x = a ∧ y = b) ∨ (x = b ∧ y = a)) then (f64_zero, false)
              else GetCost t x y) ∧
  (GetCost t a b = (f64_zero, false) → GetCost t b a = (f64_zero, false) →
     ∀ x y, GetCost (RemoveLink t a b) x y = GetCost t x y) ∧
  (∀ c x y, GetCost (RemoveLink (UpdateLink t a b c) a b) x y
              = if decide ((x = a ∧ y = b) ∨ (x = b ∧ y = a)) then (f64_zero, false)
                else GetCost t x y) ∧
  (∀ n, GetNode (RemoveLink t a b) n = GetNode t n).
Proof.
  assert (∀ t' x y, GetCost (RemoveLink t' a b) x y
            = if decide ((x = a ∧ y = b) ∨ (x = b ∧ y = a)) then (f64_zero, false)
              else GetCost t' x y) as Hrm.
  { intros t' x y. rewrite !GetCost_edge, edge_RemoveLink. by case_decide. }
  split_and!.
  - apply Hrm.
  - intros Hab Hba x y. rewrite Hrm. case_decide as Hp; [|done].
    by destruct Hp as [[-> ->]|[-> ->]].
  - intros c x y. rewrite Hrm. case_decide; [done|].
    rewrite !GetCost_edge, edge_UpdateLink. by rewrite decide_False.
  - done.
Qed.

(** X3.  [AddNode] registers (or replaces) the record under the node's
    id and nothing else: other records and every link, those of a node
    that was already there included, are kept. *)
Theorem AddNode_keeps_links (R : RangeOrder) (t : Topology) (node : NodeInfo) :
  (∀ n, GetNode (AddNode t node) n
          = if decide (n = ID node) then Some node else GetNode t n) ∧
  (∀ x y, GetCost (AddNode t node) x y = GetCost t x y) ∧
  (∀ n, GetNeighbors R (AddNode t node) n = GetNeighbors R t n).
Proof.
  split_and!.
  - intros n. unfold GetNode, AddNode. cbn. rewrite lookup_insert.
    by repeat case_decide.
  - intros x y. by rewrite !GetCost_edge, edge_AddNode.
  - intros n. apply map_eq. intros w. by rewrite !GetNeighbors_lookup, edge_AddNode.
Qed.

(** X4.  [RemoveNode a], on any graph and in any iteration order, drops
    the record of [a] and every entry leaving [a], and leaves the other
    records and every entry between other nodes. *)
Theorem RemoveNode_frame (R : RangeOrder) (t : Topology) (a : string) :
  (∀ n, GetNode (RemoveNode R t a) n = if decide (n = a) then None else GetNode t n) ∧
  (∀ y, GetCost (RemoveNode R t a) a y = (f64_zero, false)) ∧
  GetNeighbors R (RemoveNode R t a) a = ∅ ∧
  (∀ x y, x ≠ a → y ≠ a → GetCost (RemoveNode R t a) x y = GetCost t x y).
Proof.
  split_and!.
  - intros n. unfold GetNode, RemoveNode. cbn. rewrite lookup_delete.
    by repeat case_decide.
  - intros y. rewrite GetCost_edge, edge_RemoveNode. by rewrite decide_True.
  - apply map_eq. intros w. rewrite GetNeighbors_lookup, edge_RemoveNode.
    by rewrite decide_True.
  - intros x y Hx Hy. rewrite !GetCost_edge, edge_RemoveNode.
    rewrite decide_False by done. by rewrite decide_False by (intros [? _]; done).
Qed.

Lemma GetAdjacencyList_eq (R : RangeOrder) t : GetAdjacencyList R t = edges t.
Proof.
  assert (∀ l acc,
            fold_left (λ adj kv, <[kv.1 := copy_map R kv.2]> adj) l acc
            = fold_left (λ (adj : gmap string (gmap string float64)) kv,
                           <[kv.1 := kv.2]> adj) l acc) as Hfold.
  { induction l as [|kv l IH]; intros acc; [done|].
    cbn [fold_left]. by rewrite copy_map_id, IH. }
  unfold GetAdjacencyList. rewrite Hfold. apply (copy_map_id R (edges t)).
Qed.

(** X5.  The read operations return what is stored, whatever order Go
    iterates its maps in: [GetAdjacencyList] the whole adjacency,
    [GetNeighbors] the row of the node (empty for a node without one,
    never an error), [GetAllNodes] every registered record exactly once;
    and [GetNeighbors] agrees with [GetCost]. *)
Theorem queries_return_the_stored_graph (R : RangeOrder) (t : Topology) :
  GetAdjacencyList R t = edges t ∧
  (∀ n, edges t !! n = None → GetNeighbors R t n = ∅) ∧
  (∀ n w c, GetNeighbors R t n !! w = Some c ↔ GetCost t n w = (c, true)) ∧
  (∀ node, node ∈ GetAllNodes R t ↔ ∃ k, nodes t !! k = Some node) ∧
  length (GetAllNodes R t) = size (nodes t) ∧
  (∀ R', GetAllNodes R t ≡ₚ GetAllNodes R' t).
Proof.
  split_and!.
  - apply GetAdjacencyList_eq.
  - intros n Hn. rewrite GetNeighbors_eq. by rewrite Hn.
  - intros n w c. rewrite GetNeighbors_lookup, GetCost_edge.
    destruct (edge t n w); split; intros; by simplify_eq.
  - intros node. unfold GetAllNodes. rewrite list_elem_of_fmap. split.
    + intros ([k ni] & -> & Hin). exists k. by apply (range_of_lookup R).
    + intros (k & Hk). exists (k, node). split; [done|]. by apply range_of_lookup.
  - unfold GetAllNodes. by rewrite length_fmap, range_of_length.
  - intros R'. unfold GetAllNodes. apply fmap_Permutation.
    by rewrite (range_of_perm R), (range_of_perm R').
Qed.

(** ** Edge ids *)

(** [makeEdgeID]; Go compares strings byte by byte. *)
Definition makeEdgeID (from to : string) : string :=
  if String.ltb from to then from +:+ "-" +:+ to else to +:+ "-" +:+ from.

(** [containsNode].  The two slices [edgeID[:n+1]] and
    [edgeID[len(edgeID)-n-1:]], with [n = len(nodeName)], are taken only
    behind the test [len(edgeID) > n], where they are in range. *)
Definition containsNode (edgeID nodeName : string) : bool :=
  let n := String.length nodeName in
  bool_decide (edgeID = nodeName +:+ "-") || bool_decide (edgeID = "-" +:+ nodeName) ||
  (bool_decide (n < String.length edgeID)%nat &&
   (bool_decide (String.substring 0 (n + 1) edgeID = nodeName +:+ "-") ||
    bool_decide (String.substring (String.length edgeID - n - 1) (n + 1) edgeID
                   = "-" +:+ nodeName))).

Lemma string_app_cons a (x y : string) : String a x +:+ y = String a (x +:+ y).
Proof. reflexivity. Qed.

Lemma string_app_nil (y : string) : "" +:+ y = y.
Proof. reflexivity. Qed.

Lemma string_length_app (x y : string) :
  String.length (x +:+ y) = (String.length x + String.length y)%nat.
Proof.
  induction x as [|a x IH]; [done|].
  rewrite string_app_cons. cbn [String.length]. by rewrite IH.
Qed.

Lemma string_app_assoc (x y z : string) : (x +:+ y) +:+ z = x +:+ (y +:+ z).
Proof.
  induction x as [|a x IH]; [done|]. rewrite !string_app_cons. by rewrite IH.
Qed.

Lemma substring_all (y : string) : String.substring 0 (String.length y) y = y.
Proof. induction y as [|a y IH]; cbn; [done|]. by rewrite IH. Qed.

Lemma substring_app_l (x y : string) :
  String.substring 0 (String.length x) (x +:+ y) = x.
Proof.
  induction x as [|a x IH]; [by destruct y|].
  rewrite string_app_cons. cbn. by rewrite IH.
Qed.

Lemma substring_app_r (x y : string) :
  String.substring (String.length x) (String.length y) (x +:+ y) = y.
Proof.
  induction x as [|a x IH]; [apply substring_all|].
  rewrite string_app_cons. cbn. done.
Qed.

Lemma containsNode_front (p s : string) : containsNode (p +:+ "-" +:+ s) p = true.
Proof.
  unfold containsNode. apply orb_true_iff. right.
  rewrite !string_length_app. cbn [String.length].
  rewrite bool_decide_eq_true_2 by lia. cbn [andb].
  apply orb_true_iff. left. apply bool_decide_eq_true.
  rewrite <- (string_app_assoc p "-" s).
  replace (String.length p + 1)%nat with (String.length (p +:+ "-"))
    by (rewrite string_length_app; done).
  apply substring_app_l.
Qed.

Lemma containsNode_back (p s : string) : containsNode (p +:+ "-" +:+ s) s = true.
Proof.
  unfold containsNode. apply orb_true_iff. right.
  rewrite !string_length_app. cbn [String.length].
  rewrite bool_decide_eq_true_2 by lia. cbn [andb].
  apply orb_true_iff. right. apply bool_decide_eq_true.
  replace (String.length p + (1 + String.length s) - String.length s - 1)%nat
    with (String.length p) by lia.
  replace (String.length s + 1)%nat with (String.length ("-" +:+ s))
    by (rewrite string_length_app; cbn [String.length]; lia).
  apply substring_app_r.
Qed.

(** X6.  [makeEdgeID] does not depend on the order of its arguments, so
    the two directions of a link share one id; and [containsNode]
    recognises both endpoints in an id made by it. *)
Theorem makeEdgeID_unordered (a b : string) :
  makeEdgeID a b = makeEdgeID b a ∧
  containsNode (makeEdgeID a b) a = true ∧
  containsNode (makeEdgeID a b) b = true.
Proof.
  split_and!.
  - unfold makeEdgeID, String.ltb. rewrite (String.compare_antisym b a).
    destruct (String.compare a b) eqn:Hc; cbn; try done.
    by apply String.compare_eq_iff in Hc as ->.
  - unfold makeEdgeID. destruct (String.ltb a b);
      [apply containsNode_front|apply containsNode_back].
  - unfold makeEdgeID. destruct (String.ltb a b);
      [apply containsNode_back|apply containsNode_front].
Qed.

(** ** Routing table: entries written and read back *)

(** X7.  A route added is the one read back for its destination and
    replaces an earlier one; reading any other destination is not
    affected; a removed or never-added destination reads as an error,
    from [GetRoute] and [GetNextHop] alike; the size counts
    destinations, so replacing a route does not change it; [Clear]
    empties the table and keeps its source node; [GetAllRoutes] returns
    the stored entries in whatever order Go iterates. *)
Theorem RouteTable_entries (R : RangeOrder) (rt : RouteTable) (r : Route) (d : string) :
  (∀ d', GetRoute (AddRoute rt r) d'
           = if decide (d' = Destination r) then Some r else GetRoute rt d') ∧
  (∀ d', GetRoute (RemoveRoute rt d) d'
           = if decide (d' = d) then None else GetRoute rt d') ∧
  (GetNextHop rt d = None ↔ GetRoute rt d = None) ∧
  (∀ r', GetRoute rt d = Some r' → GetNextHop rt d = Some (NextHop r')) ∧
  Size (AddRoute rt r)
    = (if GetRoute rt (Destination r) is Some _ then Size rt else S (Size rt)) ∧
  Size (RemoveRoute (AddRoute rt r) (Destination r))
    = (if GetRoute rt (Destination r) is Some _ then Size rt - 1 else Size rt)%nat ∧
  (Size (Clear rt) = 0%nat ∧ sourceNode (Clear rt) = sourceNode rt ∧
   ∀ d', GetRoute (Clear rt) d' = None) ∧
  (∀ s d', Size (NewRouteTable s) = 0%nat ∧ GetRoute (NewRouteTable s) d' = None) ∧
  GetAllRoutes R rt = routes rt.
Proof.
  unfold GetRoute, GetNextHop, Size, AddRoute, RemoveRoute, Clear, NewRouteTable,
    GetAllRoutes. cbn [routes sourceNode].
  split_and!.
  - intros d'. rewrite lookup_insert. by repeat case_decide.
  - intros d'. rewrite lookup_delete. by repeat case_decide.
  - by destruct (routes rt !! d).
  - by intros r' ->.
  - destruct (routes rt !! Destination r) eqn:Hd.
    + apply map_size_insert_Some. eauto.
    + by apply map_size_insert_None.
  - rewrite delete_insert_eq. destruct (routes rt !! Destination r) eqn:Hd.
    + rewrite map_size_delete_Some by eauto. lia.
    + by rewrite delete_id.
  - apply map_size_empty.
  - done.
  - intros d'. apply lookup_empty.
  - intros s d'. split; [apply map_size_empty|apply lookup_empty].
  - apply copy_map_id.
Qed.

(** ** SPF calculator: the recorded paths *)



Section SPF_paths.
Variable R : RangeOrder.
Variable topo : Topology.
Variable src : string.
Hypothesis Hcosts : costs_ok topo.
Variable Q : PriorityQueue.

Local Open Scope Qc_scope.














End SPF_paths.


(** ** SPF calculator: the two versions side by side *)

Definition without_path (r : Route) : Route :=
  {| Destination := Destination r; NextHop := NextHop r; Cost := Cost r; Path := [] |}.

(** X9.  Run with the same queue and the same iteration order, the
    earlier calculator and the current one return the same table, next
    hops included; only the [Path] field, which the earlier version
    leaves empty, differs. *)
Theorem legacy_same_table (Q : PriorityQueue) (R : RangeOrder) (topo : Topology)
    (src : string) (fuel : nat) :
  costs_ok topo → (spf_fuel R topo src ≤ fuel)%nat →
  ∃ rt1 rt2,
    Legacy.ComputeRoutes Q R fuel src topo = Some rt1 ∧
    ComputeRoutes Q R fuel src topo = Some rt2 ∧
    sourceNode rt1 = sourceNode rt2 ∧
    ∀ d, GetRoute rt1 d = without_path <$> GetRoute rt2 d.
Proof.
  intros Hcosts Hfuel.
  destruct (Legacy_ComputeRoutes_total R topo src Hcosts Q fuel Hfuel) as [rt1 H1].
  destruct (ComputeRoutes_total R topo src Hcosts Q fuel Hfuel) as [rt2 H2].
  exists rt1, rt2. split; [done|]. split; [done|].
  unfold Legacy.ComputeRoutes in H1. unfold ComputeRoutes in H2.
  rewrite legacy_init_forget in H1.
  destruct (legacy_loop_forget R topo src Hcosts Q fuel [] _ ∅
              (spf_init_Inv R topo src Q) visited_is_empty)
    as [[Hold _]|(sn & vis & Hold & Hnew)]; rewrite Hold in H1; [done|].
  rewrite Hnew in H2. cbn in H1, H2. injection H1 as <-.
  unfold collect in H2. unfold Legacy.collect.
  apply collect_fold_spec in H2 as (Hsrc2 & Htb & Hr2).
  2: { apply range_of_NoDup_fst. }
  2: { intros d _. apply lookup_empty. }
  destruct (legacy_collect_fold src Q (forget Q sn vis)
              (range_of R (Legacy.distance (forget Q sn vis))) (NewRouteTable src))
    as (Hsrc1 & Hr1).
  { apply range_of_NoDup_fst. }
  { intros d _. apply lookup_empty. }
  cbn [forget Legacy.distance Legacy.nextHop] in *.
  split; [by rewrite Hsrc1, Hsrc2|].
  intros d. unfold GetRoute.
  destruct (routes rt2 !! d) as [r2|] eqn:Hd2; cbn.
  - apply Hr2 in Hd2 as [Hd2|(x & path & Hin & Hd & Hinf & _ & ->)].
    { cbn in Hd2. by rewrite lookup_empty in Hd2. }
    apply Hr1. right. exists x. done.
  - destruct (fold_left _ _ _) as [s1 m1] eqn:Hfold. cbn in *.
    destruct (m1 !! d) as [r1|] eqn:Hd1; [|done]. exfalso.
    apply Hr1 in Hd1 as [Hd1|(x & Hin & Hd & Hinf & _)].
    { by rewrite lookup_empty in Hd1. }
    destruct (Htb d x Hin Hd Hinf) as [path Hpath].
    assert (routes rt2 !! d = Some (route_for Q sn d x path)) as Habs.
    { apply Hr2. right. exists x, path. done. }
    congruence.
Qed.

Lemma legacy_same_table_witness :
  ∃ rt1 rt2,
    Legacy.ComputeRoutes list_pq canonical_order 11 "A" triangle = Some rt1 ∧
    ComputeRoutes list_pq canonical_order 11 "A" triangle = Some rt2 ∧
    sourceNode rt1 = sourceNode rt2 ∧
    ∀ d, GetRoute rt1 d = without_path <$> GetRoute rt2 d.
Proof.
  apply (legacy_same_table list_pq canonical_order triangle "A" 11 triangle_costs_ok).
  vm_compute. lia.
Defined.

(** ** Topology sync: what a merge can do to the graph *)

Lemma f64_ltb_trans a b c : f64_ltb a b = true → f64_ltb b c = true → f64_ltb a c = true.
Proof.
  destruct a, b, c; cbn; try done.
  intros H1%bool_decide_eq_true H2%bool_decide_eq_true.
  apply bool_decide_eq_true. qc_lra.
Qed.

(** [t'] keeps every entry of [t], at the same or a strictly lower cost,
    and every entry of [t'] is one of [t] or comes from [links]. *)
Definition lowered_by (links : list TopologyLinkEntry) (t t' : Topology) : Prop :=
  (∀ a b c, edge t a b = Some c →
     ∃ c', edge t' a b = Some c' ∧ (c' = c ∨ f64_ltb c' c = true)) ∧
  (∀ a b c', edge t' a b = Some c' →
     edge t a b = Some c' ∨
     ∃ l, l ∈ links ∧ link_Cost l = c' ∧
          ((a = link_From l ∧ b = link_To l) ∨ (a = link_To l ∧ b = link_From l))).

Lemma merge_link_lowered t b l :
  symmetric t → lowered_by [l] t (merge_link (t, b) l).1.
Proof.
  intros Hs. destruct (merge_link_cases t b l) as [[_ ->]|[Had ->]]; cbn [fst].
  { split; [by eauto|]. intros a b' c' ?. by left. }
  split.
  - intros a b' c Hab. rewrite edge_UpdateLink. case_decide as Hp; [|by eauto].
    exists (link_Cost l). split; [done|].
    assert (edge t (link_From l) (link_To l) = Some c) as Hl.
    { destruct Hp as [[-> ->]|[-> ->]]; [done|by apply Hs]. }
    unfold locally_absent, strictly_lower in Had. rewrite GetCost_edge, Hl in Had.
    destruct Had as [?|(e & [= <-] & Hlt)]; [done|]. by right.
  - intros a b' c'. rewrite edge_UpdateLink. case_decide as Hp; [|by left].
    intros [= <-]. right. exists l. split; [by left|done].
Qed.

Lemma merge_fold_lowered links : ∀ t b,
  symmetric t → lowered_by links t (fold_left merge_link links (t, b)).1.
Proof.
  induction links as [|l ls IH]; intros t b Hs; cbn [fold_left].
  { split; [by eauto|]. intros a b' c' ?. by left. }
  destruct (merge_link (t, b) l) as [t1 b1] eqn:Hstep.
  pose proof (merge_link_lowered t b l Hs) as [Hkeep1 Hfrom1].
  pose proof (merge_link_symmetric t b l Hs) as Hs1.
  rewrite Hstep in Hkeep1, Hfrom1, Hs1. cbn [fst] in *.
  destruct (IH t1 b1 Hs1) as [Hkeep Hfrom]. split.
  - intros a b' c Hab. destruct (Hkeep1 a b' c Hab) as (c1 & Hc1 & Hle1).
    destruct (Hkeep a b' c1 Hc1) as (c2 & Hc2 & Hle2). exists c2. split; [done|].
    destruct Hle1 as [->|Hlt1]; [done|]. right.
    destruct Hle2 as [->|Hlt2]; [done|]. by eapply f64_ltb_trans.
  - intros a b' c' Hab. destruct (Hfrom a b' c' Hab) as [H1|(l' & Hin & Hrest)].
    + destruct (Hfrom1 a b' c' H1) as [?|(l' & Hin & Hrest)]; [by left|].
      right. exists l'. apply list_elem_of_singleton in Hin as ->.
      split; [by left|done].
    + right. exists l'. split; [by right|done].
Qed.

(** X10.  On a symmetric graph, handling a topology-sync event keeps the
    graph symmetric, registers and drops no node, removes no link and
    raises no cost: each stored entry keeps its cost or gets a strictly
    lower one, and each entry of the result is an old one or a link of
    the event, in one of its two directions. *)
Theorem handleTopologySync_only_lowers (ts : TopologySync) (t : Topology)
    (event : TopologySyncEvent) :
  symmetric t →
  symmetric (handleTopologySync ts t event).1 ∧
  (∀ n, GetNode (handleTopologySync ts t event).1 n = GetNode t n) ∧
  lowered_by (Links event) t (handleTopologySync ts t event).1.
Proof.
  intros Hs. unfold handleTopologySync.
  destruct (decide (NodeID event = ts_nodeID ts)) as [Heq|Hne]; cbn [fst].
  { split_and!; [done..|]. split; [by eauto|]. intros a b c' ?. by left. }
  split_and!.
  - by apply merge_fold_settles.
  - assert (∀ links acc, nodes (fold_left merge_link links acc).1 = nodes acc.1) as Hn.
    { induction links as [|l ls IH]; intros [t0 b0]; [done|]. cbn [fold_left].
      rewrite IH. by destruct (merge_link_cases t0 b0 l) as [[_ ->]|[_ ->]]. }
    intros n. unfold GetNode. by rewrite Hn.
  - by apply merge_fold_lowered.
Qed.

Lemma handleTopologySync_only_lowers_witness :
  symmetric (handleTopologySync node_A_sync graph_AB3 event_from_B).1 ∧
  (∀ n, GetNode (handleTopologySync node_A_sync graph_AB3 event_from_B).1 n
          = GetNode graph_AB3 n) ∧
  lowered_by (Links event_from_B) graph_AB3
    (handleTopologySync node_A_sync graph_AB3 event_from_B).1.
Proof.
  exact (handleTopologySync_only_lowers node_A_sync graph_AB3 event_from_B
           graph_AB3_symmetric).
Defined.

(** ** Topology sync: link events *)

(** X11.  A gossip link-update with op remove deletes the pair in both
    directions and nothing else; with an op other than add, update and
    remove it leaves the graph as it is; no op registers or drops a
    node; and the change callback, when one is registered, runs for
    every event, an unknown op included. *)
Theorem handleLinkUpdate_ops (ts : TopologySync) (t : Topology)
    (event : LinkUpdateEvent) :
  (lu_Op event = "remove" →
     ∀ x y, GetCost (handleLinkUpdate ts t event).1 x y
              = if decide ((x = lu_From event ∧ y = lu_To event) ∨
                           (x = lu_To event ∧ y = lu_From event))
                then (f64_zero, false) else GetCost t x y) ∧
  (lu_Op event ≠ "add" → lu_Op event ≠ "update" → lu_Op event ≠ "remove" →
     (handleLinkUpdate ts t event).1 = t) ∧
  (∀ n, GetNode (handleLinkUpdate ts t event).1 n = GetNode t n) ∧
  (onTopologyChange ts = true → (handleLinkUpdate ts t event).2 = [Notify]).
Proof.
  unfold handleLinkUpdate. cbn [fst snd]. split_and!.
  - intros Hop x y. rewrite decide_False by (rewrite Hop; intros [?|?]; done).
    rewrite decide_True by done. rewrite !GetCost_edge, edge_RemoveLink.
    by case_decide.
  - intros H1 H2 H3. rewrite decide_False by (intros [?|?]; done).
    by rewrite decide_False.
  - intros n. by repeat case_decide.
  - intros Hcb. unfold triggerTopologyChange. by rewrite Hcb.
Qed.

(** X12.  [RegisterLink] writes the link into the local graph in every
    case.  It fails exactly when a gossip layer is attached and either
    the cost cannot be encoded (it is not finite) or the emission fails;
    then nothing is gossiped and the change callback does not run,
    although the graph has changed.  Otherwise the update is gossiped
    (when a gossip layer is attached) and the callback runs. *)
Theorem RegisterLink_outcomes (ts : TopologySync) (t : Topology) (from to : string)
    (cost : float64) (emit_ok : bool) :
  let run := RegisterLink ts t from to cost emit_ok in
  let event := {| lu_From := from; lu_To := to; lu_Cost := cost; lu_Op := "update" |} in
  GetCost run.1.1 from to = (cost, true) ∧
  GetCost run.1.1 to from = (cost, true) ∧
  (run.2 = true ↔ ts_serf ts = true ∧ (f64_is_fin cost = false ∨ emit_ok = false)) ∧
  (run.2 = true → run.1.2 = []) ∧
  (run.2 = false →
     run.1.2 = (if ts_serf ts then [GossipLinkUpdate event] else [])
                 ++ triggerTopologyChange ts).
Proof.
  cbn zeta. rewrite RegisterLink_graph.
  pose proof (GetCost_UpdateLink t from to cost) as [H1 H2].
  unfold RegisterLink, json_can_marshal.
  destruct (ts_serf ts), (f64_is_fin cost), emit_ok; cbn; split_and!; try done;
    try (split; [done|intros [_ [?|?]]; done]);
    try (split; [intros _; split; [done|]; by (left + right)|done]);
    try (split; [done|intros [? _]; done]).
Qed.

(** X13.  Gossip of a link reaches the peers: when [RegisterLink]
    succeeds on a node with a gossip layer, the event it emits, handled
    by any peer, gives the peer the same cost for the pair as the sender
    has; and the event of a successful [UnregisterLink] removes the pair
    at the peer. *)
Theorem link_gossip_reaches_peer (ts peer : TopologySync) (t t_peer : Topology)
    (from to : string) (cost : float64) :
  ts_serf ts = true → f64_is_fin cost = true →
  (∃ event,
     (RegisterLink ts t from to cost true).1.2
       = GossipLinkUpdate event :: triggerTopologyChange ts ∧
     GetCost (handleLinkUpdate peer t_peer event).1 from to
       = GetCost (RegisterLink ts t from to cost true).1.1 from to ∧
     GetCost (handleLinkUpdate peer t_peer event).1 to from
       = GetCost (RegisterLink ts t from to cost true).1.1 to from) ∧
  (∃ event,
     (UnregisterLink ts t from to true).1.2
       = GossipLinkUpdate event :: triggerTopologyChange ts ∧
     GetCost (handleLinkUpdate peer t_peer event).1 from to = (f64_zero, false) ∧
     GetCost (handleLinkUpdate peer t_peer event).1 to from = (f64_zero, false) ∧
     GetCost (UnregisterLink ts t from to true).1.1 from to = (f64_zero, false) ∧
     GetCost (UnregisterLink ts t from to true).1.1 to from = (f64_zero, false)).
Proof.
  intros Hserf Hfin. split.
  - exists {| lu_From := from; lu_To := to; lu_Cost := cost; lu_Op := "update" |}.
    rewrite RegisterLink_graph. unfold RegisterLink, json_can_marshal.
    rewrite Hserf, Hfin. cbn [negb fst snd]. split; [done|].
    unfold handleLinkUpdate. cbn [lu_Op lu_From lu_To lu_Cost fst].
    rewrite decide_True by (by right).
    pose proof (GetCost_UpdateLink t from to cost) as [-> ->].
    pose proof (GetCost_UpdateLink t_peer from to cost) as [-> ->]. done.
  - exists {| lu_From := from; lu_To := to; lu_Cost := f64_zero; lu_Op := "remove" |}.
    unfold UnregisterLink. rewrite Hserf. cbn [negb fst snd]. split; [done|].
    unfold handleLinkUpdate. cbn [lu_Op lu_From lu_To lu_Cost fst].
    rewrite decide_False by (intros [?|?]; done). rewrite decide_True by done.
    rewrite !GetCost_edge, !edge_RemoveLink. by rewrite !decide_True by auto.
Qed.

Lemma link_gossip_reaches_peer_witness :
  ∃ event,
    (RegisterLink node_A_sync graph_AB3 "A" "B" (f64_of_Z 2) true).1.2
      = GossipLinkUpdate event :: triggerTopologyChange node_A_sync ∧
    GetCost (handleLinkUpdate node_A_sync NewTopology event).1 "A" "B"
      = GetCost (RegisterLink node_A_sync graph_AB3 "A" "B" (f64_of_Z 2) true).1.1
          "A" "B" ∧
    GetCost (handleLinkUpdate node_A_sync NewTopology event).1 "B" "A"
      = GetCost (RegisterLink node_A_sync graph_AB3 "A" "B" (f64_of_Z 2) true).1.1
          "B" "A".
Proof.
  exact (proj1 (link_gossip_reaches_peer node_A_sync node_A_sync graph_AB3 NewTopology
                  "A" "B" (f64_of_Z 2) eq_refl eq_refl)).
Defined.

(** ** Topology sync: the periodic full broadcast *)

(** The body of the inner loop of [broadcastFullTopology]: the entry
    [from -> to] is appended unless its edge id was seen. *)
Definition broadcast_step (acc : list TopologyLinkEntry * gmap string bool)
    (e : string * string * float64) : list TopologyLinkEntry * gmap string bool :=
  let edgeID := makeEdgeID e.1.1 e.1.2 in
  if default false (acc.2 !! edgeID) then acc
  else (acc.1 ++ [{| link_From := e.1.1; link_To := e.1.2; link_Cost := e.2 |}],
        <[edgeID := true]> acc.2).

(** [for from, neighbors := range adj { for to, cost := range neighbors
    { ... } }], giving [links]. *)
Definition collect_links (R : RangeOrder) (adj : gmap string (gmap string float64))
  : list TopologyLinkEntry :=
  (fold_left
     (λ acc fn,
        fold_left (λ acc tc, broadcast_step acc (fn.1, tc.1, tc.2))
          (range_of R fn.2) acc)
     (range_of R adj) ([], ∅)).1.

(** [broadcastFullTopology]; the boolean is the error. *)
Definition broadcastFullTopology (R : RangeOrder) (ts : TopologySync) (t : Topology)
    (emit_ok : bool) : list effect * bool :=
  if negb (ts_serf ts) then ([], false)
  else if negb (syncEnabled ts) then ([], false)
  else
    let adj := GetAdjacencyList R t in
    let links := collect_links R adj in
    let syncEvent := {| NodeID := ts_nodeID ts; Links := links |} in
    if negb (forallb (λ l, json_can_marshal (link_Cost l)) links) then ([], true)
    else if negb emit_ok then ([], true)
    else ([GossipTopologySync syncEvent], false).

(** The entries in the order the two loops visit them. *)
Definition entries_in_order (R : RangeOrder) (adj : gmap string (gmap string float64))
  : list (string * string * float64) :=
  range_of R adj ≫= λ fn, (λ tc, (fn.1, tc.1, tc.2)) <$> range_of R fn.2.

Lemma collect_links_flat R adj :
  collect_links R adj = (fold_left broadcast_step (entries_in_order R adj) ([], ∅)).1.
Proof.
  unfold collect_links, entries_in_order. f_equal.
  generalize (([], ∅) : list TopologyLinkEntry * gmap string bool).
  induction (range_of R adj) as [|fn l IH]; intros acc; [done|].
  cbn [fold_left mbind list_bind]. rewrite fold_left_app, <- IH. f_equal.
  generalize acc. induction (range_of R fn.2) as [|tc l' IH']; intros acc'; [done|].
  cbn [fold_left fmap list_fmap]. by rewrite IH'.
Qed.

Lemma entries_in_order_elem R adj a b c :
  (a, b, c) ∈ entries_in_order R adj ↔ adj !! a ≫= (λ m, m !! b) = Some c.
Proof.
  unfold entries_in_order. rewrite list_elem_of_bind. split.
  - intros ([a' m] & Hin & Hadj). apply list_elem_of_fmap in Hin as ([b' c'] & [= -> -> ->] & Hin).
    apply range_of_lookup in Hadj, Hin. cbn in *. by rewrite Hadj.
  - intros Hab. destruct (adj !! a) as [m|] eqn:Ha; [|done]. cbn in Hab.
    exists (a, m). split; [|by apply range_of_lookup].
    apply list_elem_of_fmap. exists (b, c). split; [done|]. by apply range_of_lookup.
Qed.

Definition link_id (l : TopologyLinkEntry) : string :=
  makeEdgeID (link_From l) (link_To l).

(** The seen set holds exactly the ids of the links collected. *)
Definition seen_ok (acc : list TopologyLinkEntry * gmap string bool) : Prop :=
  (∀ id, default false (acc.2 !! id) = true ↔ id ∈ link_id <$> acc.1) ∧
  NoDup (link_id <$> acc.1).

Lemma broadcast_fold_spec es : ∀ acc,
  seen_ok acc →
  seen_ok (fold_left broadcast_step es acc) ∧
  (∀ l, l ∈ (fold_left broadcast_step es acc).1 →
     l ∈ acc.1 ∨ (link_From l, link_To l, link_Cost l) ∈ es) ∧
  (∀ l, l ∈ acc.1 → l ∈ (fold_left broadcast_step es acc).1) ∧
  (∀ e, e ∈ es →
     makeEdgeID e.1.1 e.1.2 ∈ link_id <$> (fold_left broadcast_step es acc).1).
Proof.
  induction es as [|e es IH]; intros acc Hok; cbn [fold_left].
  { split_and!; [done|by left|done|]. intros e Hin. by apply elem_of_nil in Hin. }
  assert (seen_ok (broadcast_step acc e) ∧
          (∀ l, l ∈ (broadcast_step acc e).1 →
             l ∈ acc.1 ∨ (link_From l, link_To l, link_Cost l) = e) ∧
          (∀ l, l ∈ acc.1 → l ∈ (broadcast_step acc e).1) ∧
          makeEdgeID e.1.1 e.1.2 ∈ link_id <$> (broadcast_step acc e).1)
    as (Hok1 & Hfrom1 & Hkeep1 & Hcov1).
  { destruct Hok as [Hseen Hnd]. unfold broadcast_step.
    destruct (default false (acc.2 !! makeEdgeID e.1.1 e.1.2)) eqn:Hv.
    - split_and!; [done|by left|done|by apply Hseen].
    - cbn [fst snd]. split_and!.
      + unfold seen_ok. cbn [fst snd]. split.
        * intros id. rewrite lookup_insert, fmap_app, elem_of_app. cbn.
          rewrite list_elem_of_singleton. case_decide as Hid.
          -- subst id. cbn. split; [by right|done].
          -- rewrite Hseen. split; [by left|]. intros [?|?]; [done|].
             unfold link_id in *. cbn in *. congruence.
        * rewrite fmap_app. apply NoDup_app. split_and!; [done| |apply NoDup_singleton].
          intros id Hin ->%list_elem_of_singleton. apply Hseen in Hin.
          unfold link_id in Hin. cbn in Hin. congruence.
      + intros l [?| ->%list_elem_of_singleton]%elem_of_app; [by left|].
        right. by destruct e as [[??]?].
      + intros l ?. apply elem_of_app. by left.
      + rewrite fmap_app, elem_of_app. right. by apply list_elem_of_singleton. }
  destruct (IH _ Hok1) as (Hok2 & Hfrom2 & Hkeep2 & Hcov2).
  split_and!; [done| | |].
  - intros l Hl. destruct (Hfrom2 l Hl) as [Hin|Hin]; [|right; by right].
    destruct (Hfrom1 l Hin) as [?|Heq]; [by left|]. right. rewrite Heq. by left.
  - intros l Hl. by apply Hkeep2, Hkeep1.
  - intros e' [->|Hin]%elem_of_cons; [|by apply Hcov2].
    apply list_elem_of_fmap in Hcov1 as (l & Hid & Hl).
    apply list_elem_of_fmap. exists l. split; [done|]. by apply Hkeep2.
Qed.

(** Two entries of the graph share an edge id only when they are the
    same link, in the same or the opposite direction.  (Ids are built
    with a ["-"] between the node ids, so node ids that contain one can
    collide.) *)
Definition distinct_ids (t : Topology) : Prop :=
  ∀ a b a' b', is_Some (edge t a b) → is_Some (edge t a' b') →
    makeEdgeID a b = makeEdgeID a' b' → (a = a' ∧ b = b') ∨ (a = b' ∧ b = a').

Fixpoint dash_free (s : string) : bool :=
  match s with
  | EmptyString => true
  | String c s' => negb (bool_decide (String c "" = "-")) && dash_free s'
  end.

Lemma split_at_dash (x x' y y' : string) :
  dash_free x = true → dash_free x' = true →
  x +:+ "-" +:+ y = x' +:+ "-" +:+ y' → x = x' ∧ y = y'.
Proof.
  revert x'. induction x as [|c x IH]; intros [|c' x'] Hx Hx' Heq.
  - rewrite !string_app_nil, !string_app_cons, !string_app_nil in Heq.
    by injection Heq as <-.
  - rewrite string_app_nil, (string_app_cons c' x'), string_app_cons in Heq.
    injection Heq as <- _.
    cbn [dash_free] in Hx'. by rewrite bool_decide_eq_true_2 in Hx' by done.
  - rewrite string_app_nil, (string_app_cons c x), string_app_cons in Heq.
    injection Heq as -> _.
    cbn [dash_free] in Hx. by rewrite bool_decide_eq_true_2 in Hx by done.
  - rewrite (string_app_cons c x), (string_app_cons c' x') in Heq.
    injection Heq as -> Heq.
    cbn [dash_free] in Hx, Hx'.
    apply andb_true_iff in Hx as [_ Hx], Hx' as [_ Hx'].
    destruct (IH x' Hx Hx' Heq) as [-> ->]. done.
Qed.

Lemma dash_free_distinct_ids t :
  (∀ a b, is_Some (edge t a b) → dash_free a = true ∧ dash_free b = true) →
  distinct_ids t.
Proof.
  intros Hfree a b a' b' Hab Hab' Hid.
  destruct (Hfree a b Hab) as [Ha Hb], (Hfree a' b' Hab') as [Ha' Hb'].
  unfold makeEdgeID in Hid.
  destruct (String.ltb a b), (String.ltb a' b');
    apply split_at_dash in Hid as [-> ->]; auto.
Qed.

Lemma collect_links_seen R t :
  seen_ok (fold_left broadcast_step (entries_in_order R (edges t)) ([], ∅)).
Proof.
  apply broadcast_fold_spec. split; [|constructor]. intros id. cbn.
  rewrite lookup_empty. cbn. split; [done|]. by intros ?%elem_of_nil.
Qed.

Lemma collect_links_cover R t :
  symmetric t → distinct_ids t →
  (∀ l, l ∈ collect_links R (GetAdjacencyList R t) →
     edge t (link_From l) (link_To l) = Some (link_Cost l)) ∧
  (∀ a b c, edge t a b = Some c →
     ∃ l, l ∈ collect_links R (GetAdjacencyList R t) ∧ link_Cost l = c ∧
          ((link_From l = a ∧ link_To l = b) ∨ (link_From l = b ∧ link_To l = a))).
Proof.
  intros Hs Hids. rewrite collect_links_flat, GetAdjacencyList_eq.
  destruct (broadcast_fold_spec (entries_in_order R (edges t)) ([], ∅))
    as (_ & Hfrom & _ & Hcov).
  { split; [|constructor]. intros id. cbn. rewrite lookup_empty. cbn.
    split; [done|]. by intros ?%elem_of_nil. }
  assert (∀ l, l ∈ (fold_left broadcast_step (entries_in_order R (edges t)) ([], ∅)).1 →
            edge t (link_From l) (link_To l) = Some (link_Cost l)) as Hentry.
  { intros l Hl. destruct (Hfrom l Hl) as [Hin|Hin]; [by apply elem_of_nil in Hin|].
    by apply entries_in_order_elem in Hin. }
  split; [done|].
  intros a b c Hab.
  assert ((a, b, c) ∈ entries_in_order R (edges t)) as Hin
    by (by apply entries_in_order_elem).
  apply Hcov in Hin. cbn in Hin.
  apply list_elem_of_fmap in Hin as (l & Hid & Hl).
  pose proof (Hentry l Hl) as Hle.
  exists l. split; [done|].
  destruct (Hids a b (link_From l) (link_To l)) as [[-> ->]|[-> ->]]; eauto.
  - split; [congruence|by left].
  - split; [|by right]. apply Hs in Hle. congruence.
Qed.

(** X14.  On a symmetric graph whose links have distinct edge ids, the
    list that [broadcastFullTopology] builds holds only entries of the
    graph, holds no edge id twice, and holds every link of the graph, in
    one of its two directions, whatever order the two loops run in. *)
Theorem broadcast_lists_every_link_once (R : RangeOrder) (t : Topology) :
  symmetric t → distinct_ids t →
  let links := collect_links R (GetAdjacencyList R t) in
  (∀ l, l ∈ links → edge t (link_From l) (link_To l) = Some (link_Cost l)) ∧
  NoDup (link_id <$> links) ∧
  (∀ a b c, edge t a b = Some c →
     ∃ l, l ∈ links ∧ link_Cost l = c ∧
          ((link_From l = a ∧ link_To l = b) ∨ (link_From l = b ∧ link_To l = a))).
Proof.
  intros Hs Hids. cbn zeta.
  destruct (collect_links_cover R t Hs Hids) as [Hentry Hcov].
  split_and!; [exact Hentry| |exact Hcov].
  rewrite collect_links_flat, GetAdjacencyList_eq.
  by destruct (collect_links_seen R t) as [_ Hnd].
Qed.

Lemma dash_free_ids_checked t :
  map_Forall (λ a m, dash_free a = true ∧ map_Forall (λ b _, dash_free b = true) m)
    (edges t) →
  ∀ a b, is_Some (edge t a b) → dash_free a = true ∧ dash_free b = true.
Proof.
  intros Hall a b [c Hab]. unfold edge in Hab.
  destruct (edges t !! a) as [m|] eqn:Ha; [|done]. cbn in Hab.
  destruct (Hall a m Ha) as [Hfa Hm]. split; [done|]. exact (Hm b c Hab).
Qed.

Lemma triangle_symmetric : symmetric triangle.
Proof. apply (built_symmetric canonical_order), triangle_built. Qed.

Lemma triangle_distinct_ids : distinct_ids triangle.
Proof.
  apply dash_free_distinct_ids, dash_free_ids_checked.
  apply (bool_decide_eq_true_1 _). by vm_compute.
Qed.

Lemma broadcast_lists_every_link_once_witness :
  (∀ l, l ∈ collect_links canonical_order (GetAdjacencyList canonical_order triangle) →
     edge triangle (link_From l) (link_To l) = Some (link_Cost l)) ∧
  NoDup (link_id <$> collect_links canonical_order
                       (GetAdjacencyList canonical_order triangle)) ∧
  (∀ a b c, edge triangle a b = Some c →
     ∃ l, l ∈ collect_links canonical_order (GetAdjacencyList canonical_order triangle) ∧
          link_Cost l = c ∧
          ((link_From l = a ∧ link_To l = b) ∨ (link_From l = b ∧ link_To l = a))).
Proof.
  exact (broadcast_lists_every_link_once canonical_order triangle
           triangle_symmetric triangle_distinct_ids).
Defined.

(** The triangle has three links and six entries; three are listed. *)
Example triangle_broadcast :
  length (collect_links canonical_order (GetAdjacencyList canonical_order triangle))
    = 3%nat.
Proof. vm_compute. reflexivity. Qed.



(** Node ids with a dash can share an edge id, and then the broadcast
    lists one link for two. *)
Example colliding_edge_ids :
  makeEdgeID "a-b" "c" = makeEdgeID "a" "b-c" ∧
  length (collect_links canonical_order
            (edges (UpdateLink (UpdateLink NewTopology "a-b" "c" (f64_of_Z 1))
                      "a" "b-c" (f64_of_Z 2)))) = 1%nat.
Proof. split; vm_compute; reflexivity. Qed.

(** ** Forwarding: the run of a packet *)

(** The packet as the node [n] has it after appending itself. *)
Definition arrive (n : string) (p : Packet) : Packet :=
  set_VisitedNodes (VisitedNodes p ++ [n]) p.

(** The shape of a run started by handing [p] to a node; the flag tells
    whether the hand-over was answered with success.  Nobody answers
    (no listener, or the deadline has passed); or node [n] takes the
    packet and is its destination; or [n] takes it and forwards it, with
    [NextHop] set, the rest of the run being that of the forwarded
    packet (empty when [n] finds no route or no next hop). *)
Inductive good_run : Packet → list fwd_event → bool → Prop :=
| run_none p : good_run p [] false
| run_deliver p n :
    pk_Destination p = n →
    good_run p [Arrived n (arrive n p); Delivered n (arrive n p)] true
| run_hop p n nh evs ok :
    pk_Destination p ≠ n →
    good_run (set_NextHop nh (arrive n p)) evs ok →
    good_run p (Arrived n (arrive n p) :: evs) ok.

Definition answered_ok (resp : option ForwardResponse) : bool :=
  match resp with Some r => fr_Success r | None => false end.

(** [err == nil] *)
Definition no_error (err : option fwd_error) : bool :=
  match err with None => true | Some _ => false end.

Lemma forwardPacket_run rpc cl self fm packet :
  (∀ c a p, good_run p (rpc c a p).1.2 (answered_ok (rpc c a p).2)) →
  ∃ nh, good_run (set_NextHop nh packet) (forwardPacket rpc cl self fm packet).1.2
          (no_error (forwardPacket rpc cl self fm packet).2).
Proof.
  intros Hrpc. unfold forwardPacket.
  destruct (GetRoute _ _) as [route|]; [|exists ""; constructor].
  exists (NextHop route).
  destruct (GetNode _ _) as [nh|]; [|constructor].
  match goal with
  | |- context [rpc ?c ?a ?p] =>
    pose proof (Hrpc c a p) as Hev; destruct (rpc c a p) as [[cl' evs] resp]
  end.
  destruct resp as [resp|]; cbn in Hev |- *; [destruct (fr_Success resp)|];
    exact Hev.
Qed.

Lemma rpc_ForwardPacket_run fuel : ∀ cl addr packet,
  good_run packet (rpc_ForwardPacket fuel cl addr packet).1.2
    (answered_ok (rpc_ForwardPacket fuel cl addr packet).2).
Proof.
  induction fuel as [|fuel IH]; intros cl addr packet; cbn; [constructor|].
  destruct (cl !! addr) as [fm|]; [|constructor].
  unfold HandleIncomingPacket. cbn [pk_Destination set_VisitedNodes].
  fold (arrive (fm_nodeID fm) packet).
  case_decide as Hd.
  { cbn. by constructor. }
  match goal with
  | |- context [forwardPacket ?r ?c ?a ?f ?p] =>
    destruct (forwardPacket_run r c a f p IH) as [nh Hev];
      destruct (forwardPacket r c a f p) as [[cl' evs] err]
  end.
  cbn in Hev. destruct err; cbn; by apply (run_hop _ _ nh).
Qed.

Definition ev_packet (ev : fwd_event) : Packet :=
  match ev with Arrived _ p | Delivered _ p => p end.

(** The nodes a run arrives at, in order. *)
Definition arrivals (evs : list fwd_event) : list string :=
  omap (λ ev, match ev with Arrived n _ => Some n | Delivered _ _ => None end) evs.

(** Source, destination, id and payload. *)
Definition same_header (p q : Packet) : Prop :=
  Source q = Source p ∧ pk_Destination q = pk_Destination p ∧
  PacketId q = PacketId p ∧ Payload q = Payload p.

Lemma good_run_header p evs ok :
  good_run p evs ok → ∀ ev, ev ∈ evs → same_header p (ev_packet ev).
Proof.
  induction 1 as [p|p n Hd|p n nh evs ok Hd Hrun IH]; intros ev Hev.
  - by apply elem_of_nil in Hev.
  - apply elem_of_cons in Hev as [->|Hev]; [done|].
    by apply list_elem_of_singleton in Hev as ->.
  - apply elem_of_cons in Hev as [->|Hev]; [done|]. by apply IH in Hev.
Qed.

Lemma good_run_visited p evs ok :
  good_run p evs ok →
  ∀ i n q, evs !! i = Some (Arrived n q) →
    VisitedNodes q = VisitedNodes p ++ take (S i) (arrivals evs).
Proof.
  induction 1 as [p|p n Hd|p n nh evs ok Hd Hrun IH]; intros i m q Hi.
  - done.
  - destruct i as [|[|i]]; cbn in Hi; by simplify_eq.
  - destruct i as [|i]; cbn in Hi; [by simplify_eq|].
    rewrite (IH i m q Hi). cbn. by rewrite <- app_assoc.
Qed.



Lemma SendPacket_run fuel cl self fm destination payload now :
  ∃ nh,
    good_run (set_NextHop nh (mint_packet (fm_nodeID fm) destination payload now))
      (ForwardManager_SendPacket fuel cl self fm destination payload now).1.2
      (no_error (ForwardManager_SendPacket fuel cl self fm destination payload now).2).
Proof. apply forwardPacket_run, rpc_ForwardPacket_run. Qed.

(** X16.  Along the whole run of a packet, however many hops it takes,
    no node changes its source, destination, id or payload, and its
    visited list is the one it started with followed by the nodes it
    has arrived at so far, in order; for a packet sent by
    [ForwardManager.SendPacket] that is the sender followed by those
    nodes. *)
Theorem run_records_path (fuel : nat) (cl : Cluster) :
  (∀ addr packet,
     let evs := (rpc_ForwardPacket fuel cl addr packet).1.2 in
     (∀ ev, ev ∈ evs → same_header packet (ev_packet ev)) ∧
     (∀ i n q, evs !! i = Some (Arrived n q) →
        VisitedNodes q = VisitedNodes packet ++ take (S i) (arrivals evs))) ∧
  (∀ self fm destination payload now,
     let evs := (ForwardManager_SendPacket fuel cl self fm destination payload now).1.2 in
     (∀ ev, ev ∈ evs →
        same_header (mint_packet (fm_nodeID fm) destination payload now) (ev_packet ev)) ∧
     (∀ i n q, evs !! i = Some (Arrived n q) →
        VisitedNodes q = fm_nodeID fm :: take (S i) (arrivals evs))).
Proof.
  split.
  - intros addr packet. cbn zeta.
    pose proof (rpc_ForwardPacket_run fuel cl addr packet) as Hrun. split.
    + by apply (good_run_header _ _ _ Hrun).
    + by apply (good_run_visited _ _ _ Hrun).
  - intros self fm destination payload now. cbn zeta.
    destruct (SendPacket_run fuel cl self fm destination payload now) as [nh Hrun].
    split.
    + intros ev Hev. by apply (good_run_header _ _ _ Hrun).
    + intros i n q Hi. by rewrite (good_run_visited _ _ _ Hrun i n q Hi).
Qed.


(** X18.  A send without a route fails at once: the error is "no route",
    nothing leaves the node, and the only change is to the sender's
    counters, sent and dropped going up by one each.  This is the case
    for every destination missing from the table, and always for the
    node's own id, which a computed table never holds. *)
Theorem send_without_route (fuel : nat) (cl : Cluster) (self : string)
    (fm : ForwardManager) (destination : string) (payload : list Byte.byte) (now : Z) :
  GetRoute (fm_routeTable fm) destination = None ∨
  (destination = fm_nodeID fm ∧ routes_for (fm_nodeID fm) (fm_routeTable fm)) →
  let run := ForwardManager_SendPacket fuel cl self fm destination payload now in
  run.2 = Some (ErrNoRoute destination) ∧
  run.1.2 = [] ∧
  (∀ a, a ≠ self → run.1.1 !! a = cl !! a) ∧
  (∀ p, cl !! self = Some p →
     run.1.1 !! self = Some (with_stats inc_dropped (with_stats inc_sent p)) ∧
     PacketsSent (stats (with_stats inc_dropped (with_stats inc_sent p)))
       = (PacketsSent (stats p) + 1)%Z ∧
     PacketsDropped (stats (with_stats inc_dropped (with_stats inc_sent p)))
       = (PacketsDropped (stats p) + 1)%Z).
Proof.
  intros Hnone.
  assert (GetRoute (fm_routeTable fm) destination = None) as Hroute.
  { destruct Hnone as [?|[-> Hfor]]; [done|]. by apply routes_for_excludes_self. }
  cbn zeta. unfold ForwardManager_SendPacket, forwardPacket.
  cbn [mint_packet pk_Destination]. rewrite Hroute. cbn [fst snd].
  split_and!; [done..| |].
  - intros a Ha. rewrite !bump_lookup. by rewrite !decide_False by done.
  - intros p Hp. rewrite !bump_lookup, !decide_True by done. rewrite Hp. done.
Qed.

Lemma send_without_route_witness :
  (ForwardManager_SendPacket 5 two_node_cluster "127.0.0.1:5001" (process "A")
     "A" payload_hi 42).2 = Some (ErrNoRoute "A") ∧
  (ForwardManager_SendPacket 5 two_node_cluster "127.0.0.1:5001" (process "A")
     "A" payload_hi 42).1.2 = [].
Proof.
  destruct (send_without_route 5 two_node_cluster "127.0.0.1:5001" (process "A")
              "A" payload_hi 42) as (Herr & Hevs & _).
  - right. split; [done|]. exact table_of_A_computed.
  - split; [exact Herr|exact Hevs].
Defined.


(** ** The node application ([RouteNode]) and the SDK wrapper *)

(** The parts of a [RouteNode] that [AddLink] uses: whether [n.node]
    is set, [n.config.NodeID] and [n.topologySync].  The graph of
    [n.node] is passed to the operation and returned by it. *)
Record RouteNode : Type := {
  rn_initialized : bool;
  rn_NodeID : string;
  rn_topologySync : option TopologySync
}.

Inductive addlink_error : Type :=
| ErrNodeNotInitialized
| ErrProbeLink.

(** [RouteNode.probeLinkCost]; [None] is the error return. *)
Definition RouteNode_probeLinkCost (peer : probe_service) (n : RouteNode)
    (targetAddr : string) : option float64 :=
  match peer targetAddr {| pr_Source := rn_NodeID n; pr_Target := ""; SelfDebug := true |} with
  | None => None
  | Some resp => if pr_Success resp then Some (pr_Cost resp) else None
  end.

(** [RouteNode.AddLink] *)
Definition RouteNode_AddLink (peer : probe_service) (emit_ok : bool) (n : RouteNode)
    (t : Topology) (neighborID neighborAddr : string) (cost : float64)
    (autoProbe : bool) : Topology * list effect * option addlink_error :=
  if negb (rn_initialized n) then (t, [], Some ErrNodeNotInitialized)
  else
    let neighborNode :=
      {| ID := neighborID; IP := ""; Port := 0; RPCAddr := neighborAddr;
         Status := NodeStatusUnknown |} in
    let t1 := AddNode t neighborNode in
    let probed :=
      if autoProbe || f64_leb cost f64_zero
      then RouteNode_probeLinkCost peer n neighborAddr
      else Some cost in
    match probed with
    | None => (t1, [], Some ErrProbeLink)
    | Some finalCost =>
        let t2 := UpdateLink t1 (rn_NodeID n) neighborID finalCost in
        let '(t3, effects) :=
          match rn_topologySync n with
          | Some ts => (RegisterLink ts t2 (rn_NodeID n) neighborID finalCost emit_ok).1
          | None => (t2, [])
          end in
        (t3, effects, None)
    end.

(** The SDK's [Node.AddLink]: it passes [autoProbe = true]. *)
Definition Node_AddLink (peer : probe_service) (emit_ok : bool) (n : RouteNode)
    (t : Topology) (neighborID neighborAddr : string) (cost : float64)
  : Topology * list effect * option addlink_error :=
  RouteNode_AddLink peer emit_ok n t neighborID neighborAddr cost true.

(** X20.  [RouteNode.AddLink] and the control server's [AddLink] agree
    on a request with a neighbour id and an address: same graph, same
    effects, and an error on one side exactly when the other reports
    failure.  They differ on an empty neighbour id: the control server
    refuses it and leaves the graph alone, [RouteNode.AddLink] has no
    such check and registers a node under the empty id. *)
Theorem RouteNode_AddLink_like_control (peer : probe_service) (emit_ok : bool)
    (n : RouteNode) (t : Topology) (req : AddLinkRequest) :
  rn_initialized n = true →
  let s := {| cs_NodeID := rn_NodeID n; cs_TopologySync := rn_topologySync n |} in
  let sdk := RouteNode_AddLink peer emit_ok n t (Neighbor req) (NeighborAddress req)
               (al_Cost req) (AutoProbe req) in
  let control := AddLink peer emit_ok s t req in
  (Neighbor req ≠ "" → NeighborAddress req ≠ "" →
     sdk.1 = control.1 ∧ (sdk.2 = None ↔ al_Success control.2 = true)) ∧
  (Neighbor req = "" →
     control.1 = (t, []) ∧ al_Success control.2 = false ∧
     GetNode sdk.1.1 "" = Some (neighborNode req)).
Proof.
  intros Hinit. cbn zeta. unfold RouteNode_AddLink, AddLink. rewrite Hinit.
  cbn [negb cs_NodeID cs_TopologySync]. split.
  - intros Hn Ha. rewrite !decide_False by done.
    fold (neighborNode req).
    change (RouteNode_probeLinkCost peer n (NeighborAddress req))
      with (probeLinkCost peer {| cs_NodeID := rn_NodeID n;
                                  cs_TopologySync := rn_topologySync n |}
              (NeighborAddress req)).
    destruct (if AutoProbe req || f64_leb (al_Cost req) f64_zero then _ else _)
      as [finalCost|]; [|done].
    destruct (rn_topologySync n) as [ts|]; [|done].
    by destruct (RegisterLink _ _ _ _ _ _) as [[t3 effects] err].
  - intros Hn. rewrite decide_True by done. split_and!; [done..|].
    fold (neighborNode req).
    assert (∀ t', GetNode t' "" = Some (neighborNode req) →
              ∀ a b c, GetNode (UpdateLink t' a b c) "" = Some (neighborNode req))
      as Hup by done.
    assert (GetNode (AddNode t (neighborNode req)) "" = Some (neighborNode req)) as Hadd.
    { unfold GetNode, AddNode, neighborNode. cbn. rewrite Hn. apply lookup_insert_eq. }
    destruct (if AutoProbe req || f64_leb (al_Cost req) f64_zero then _ else _)
      as [finalCost|]; [|done].
    destruct (rn_topologySync n) as [ts|]; [|by apply Hup].
    pose proof (RegisterLink_graph ts
                  (UpdateLink (AddNode t (neighborNode req)) (rn_NodeID n)
                     (Neighbor req) finalCost)
                  (rn_NodeID n) (Neighbor req) finalCost emit_ok) as Hg.
    destruct (RegisterLink _ _ _ _ _ _) as [[t3 effects] err]. cbn in Hg |- *.
    subst t3. by apply Hup, Hup.
Qed.

Lemma RouteNode_AddLink_like_control_witness :
  (RouteNode_AddLink steady_peer true
     {| rn_initialized := true; rn_NodeID := "A"; rn_topologySync := Some node_A_sync |}
     NewTopology "B" "127.0.0.1:5002" PInf false).1
  = (AddLink steady_peer true control_A NewTopology infinite_link).1.
Proof.
  destruct (RouteNode_AddLink_like_control steady_peer true
              {| rn_initialized := true; rn_NodeID := "A";
                 rn_topologySync := Some node_A_sync |}
              NewTopology infinite_link eq_refl) as [Hsame _].
  destruct (Hsame ltac:(done) ltac:(done)) as [Heq _]. exact Heq.
Defined.

(** X21.  The SDK's [Node.AddLink] never uses the cost it is given: it
    always probes.  Two calls that differ only in the cost have the
    same outcome; on an initialised node the link gets the cost the
    probe returned, and when the probe fails the call fails, with the
    neighbour registered and no link written. *)
Theorem Node_AddLink_ignores_cost (peer : probe_service) (emit_ok : bool)
    (n : RouteNode) (t : Topology) (neighborID neighborAddr : string)
    (cost cost' : float64) :
  Node_AddLink peer emit_ok n t neighborID neighborAddr cost
    = Node_AddLink peer emit_ok n t neighborID neighborAddr cost' ∧
  (rn_initialized n = true →
     let run := Node_AddLink peer emit_ok n t neighborID neighborAddr cost in
     match RouteNode_probeLinkCost peer n neighborAddr with
     | Some probed =>
         run.2 = None ∧ GetCost run.1.1 (rn_NodeID n) neighborID = (probed, true)
     | None =>
         run.2 = Some ErrProbeLink ∧ run.1.2 = [] ∧
         ∀ x y, GetCost run.1.1 x y = GetCost t x y
     end).
Proof.
  split; [done|]. intros Hinit. cbn zeta.
  unfold Node_AddLink, RouteNode_AddLink. rewrite Hinit. cbn [negb orb].
  destruct (RouteNode_probeLinkCost peer n neighborAddr) as [probed|].
  - destruct (rn_topologySync n) as [ts|].
    + match goal with
      | |- context [RegisterLink ts ?t2 ?a ?b ?c ?e] =>
        pose proof (RegisterLink_graph ts t2 a b c e) as Hg;
          destruct (RegisterLink ts t2 a b c e) as [[t3 effects] err]
      end.
      cbn in Hg |- *. subst t3. split; [done|]. apply GetCost_UpdateLink.
    + cbn. split; [done|]. apply GetCost_UpdateLink.
  - cbn. split_and!; [done..|]. intros x y. by rewrite !GetCost_edge, edge_AddNode.
Qed.

(** ** Route manager and the change callback *)

(** [RouteManager]: the node id and the current table; the graph is the
    shared one. *)
Record RouteManager : Type := {
  rm_nodeID : string;
  rm_routeTable : RouteTable
}.



Definition RouteManager_GetNextHop (rm : RouteManager) (destination : string)
  : option string :=
  GetNextHop (rm_routeTable rm) destination.

Section Recompute.
Variable Q : PriorityQueue.
Variable R : RangeOrder.



End Recompute.

Lemma costs_ok_edges t :
  costs_ok t ↔ ∀ a b x, edge t a b = Some x → f64_nonneg_fin x = true.
Proof.
  unfold costs_ok, edge. split.
  - intros Hc a b x Hab. destruct (edges t !! a) as [m|] eqn:Ha; [|done].
    exact (Hc a m Ha b x Hab).
  - intros He a m Ha b x Hb. apply (He a b x). by rewrite Ha.
Qed.

Lemma costs_ok_AddNode t node : costs_ok t → costs_ok (AddNode t node).
Proof.
  rewrite !costs_ok_edges. intros Hc a b x. rewrite edge_AddNode. apply Hc.
Qed.

Lemma costs_ok_UpdateLink t a b c :
  costs_ok t → f64_nonneg_fin c = true → costs_ok (UpdateLink t a b c).
Proof.
  rewrite !costs_ok_edges. intros Hc Hx a' b' x. rewrite edge_UpdateLink.
  case_decide; [by intros [= <-]|apply Hc].
Qed.

Lemma costs_ok_RemoveLink t a b : costs_ok t → costs_ok (RemoveLink t a b).
Proof.
  rewrite !costs_ok_edges. intros Hc a' b' x. rewrite edge_RemoveLink.
  case_decide; [done|apply Hc].
Qed.

Lemma costs_ok_RemoveNode R t a : costs_ok t → costs_ok (RemoveNode R t a).
Proof.
  rewrite !costs_ok_edges. intros Hc a' b' x. rewrite edge_RemoveNode.
  repeat case_decide; [done..|apply Hc].
Qed.


(** X22.  The mutators keep the stored costs finite and not negative:
    [AddNode], [RemoveLink] and [RemoveNode] always, [UpdateLink] when
    the cost it is given is so, and [handleTopologySync] when the costs
    of the event are.  (These are the graphs [ComputeRoutes] is correct
    on.) *)
Theorem mutators_keep_costs_ok (R : RangeOrder) (t : Topology) :
  costs_ok t →
  (∀ node, costs_ok (AddNode t node)) ∧
  (∀ a b, costs_ok (RemoveLink t a b)) ∧
  (∀ a, costs_ok (RemoveNode R t a)) ∧
  (∀ a b c, f64_nonneg_fin c = true → costs_ok (UpdateLink t a b c)) ∧
  (∀ ts event,
     Forall (λ l, f64_nonneg_fin (link_Cost l) = true) (Links event) →
     costs_ok (handleTopologySync ts t event).1).
Proof.
  intros Hc. split_and!.
  - intros node. by apply costs_ok_AddNode.
  - intros a b. by apply costs_ok_RemoveLink.
  - intros a. by apply costs_ok_RemoveNode.
  - intros a b c Hx. by apply costs_ok_UpdateLink.
  - intros ts event Hall. unfold handleTopologySync. case_decide; [done|]. cbn [fst].
    generalize false. revert t Hc.
    induction (Links event) as [|l ls IH]; intros t Hc b; [done|].
    apply Forall_cons in Hall as [Hl Hall]. cbn [fold_left].
    destruct (merge_link_cases t b l) as [[_ ->]|[_ ->]]; apply IH; try done.
    by apply costs_ok_UpdateLink.
Qed.

Lemma mutators_keep_costs_ok_witness :
  costs_ok (UpdateLink triangle "A" "D" (f64_of_Z 4)) ∧
  costs_ok (RemoveNode canonical_order triangle "B").
Proof.
  destruct (mutators_keep_costs_ok canonical_order triangle triangle_costs_ok)
    as (_ & _ & Hrm & Hup & _).
  split; [apply Hup; by vm_compute|apply Hrm].
Defined.

Section AddLink_route.
Variable Q : PriorityQueue.
Variable R : RangeOrder.


End AddLink_route.



(** ** Topology sync: removals are not remembered *)

Lemma merged_none t links t' : merged t links t' 0 → t' = t.
Proof.
  remember 0%nat as n eqn:Hn. induction 1; [done|done|auto].
Qed.

(** X24.  A removal does not survive a sync event that still lists the
    link.  Whatever was removed before ([RemoveLink], [RemoveNode], a
    gossip remove), after a symmetric graph handles a topology-sync
    event of another node every link listed in the event is present, in
    both directions, at a cost the listed one is not below; and when
    the link was absent the callback runs. *)
Theorem sync_restores_listed_links (ts : TopologySync) (t : Topology)
    (event : TopologySyncEvent) (l : TopologyLinkEntry) :
  symmetric t → NodeID event ≠ ts_nodeID ts → l ∈ Links event →
  let t' := (handleTopologySync ts t event).1 in
  (∃ e, GetCost t' (link_From l) (link_To l) = (e, true) ∧
        GetCost t' (link_To l) (link_From l) = (e, true) ∧
        f64_ltb (link_Cost l) e = false) ∧
  (GetCost t (link_From l) (link_To l) = (f64_zero, false) →
     onTopologyChange ts = true →
     (handleTopologySync ts t event).2 = [Notify]).
Proof.
  intros Hs Hne Hl. cbn zeta. unfold handleTopologySync.
  rewrite decide_False by done. cbn [fst snd].
  destruct (merge_fold_settles (Links event) t false Hs) as [Hsym Hall].
  destruct (Hall l (or_intror Hl)) as (e & He & Hlt).
  split.
  - exists e. rewrite !GetCost_edge, He, (Hsym _ _ _ He). done.
  - intros Habs Hcb.
    destruct (merge_fold_merged (Links event) t false) as (n & Hm & Hb).
    rewrite Hb. cbn [orb]. destruct n as [|n].
    + apply merged_none in Hm. rewrite Hm in He.
      rewrite GetCost_edge, He in Habs. done.
    + rewrite bool_decide_eq_true_2 by lia. unfold triggerTopologyChange.
      by rewrite Hcb.
Qed.

Lemma sync_restores_listed_links_witness :
  ∃ e, GetCost (handleTopologySync node_A_sync (RemoveLink graph_AB3 "A" "B")
                  event_from_B).1 "B" "A" = (e, true) ∧
       GetCost (handleTopologySync node_A_sync (RemoveLink graph_AB3 "A" "B")
                  event_from_B).1 "A" "B" = (e, true) ∧
       f64_ltb (f64_of_Z 1) e = false.
Proof.
  refine (proj1 (sync_restores_listed_links node_A_sync (RemoveLink graph_AB3 "A" "B")
                   event_from_B
                   {| link_From := "B"; link_To := "A"; link_Cost := f64_of_Z 1 |}
                   _ _ _)).
  - apply RemoveLink_symmetric, graph_AB3_symmetric.
  - done.
  - by left.
Defined.

(** ** Topology sync: membership events *)

(** [serf.Member] and [serf.MemberEvent], as far as the handlers read
    them. *)
Record Member : Type := {
  Name : string;
  Tags : gmap string string
}.

Inductive EventType : Type :=
| EventMemberJoin
| EventMemberLeave
| EventMemberFailed
| EventMemberUpdate
| EventMemberReap.

Record MemberEvent : Type := {
  me_Type : EventType;
  Members : list Member
}.

Section Membership.
(** [fmt.Sscanf(portStr, "%d", &port)]: the integer scanned, if any; the
    handler ignores the error and keeps 0. *)
Variable Sscanf_d : string → option Z.
Variable R : RangeOrder.

(** The record [handleNodeJoin] builds for a member. *)
Definition joined_node (member : Member) : NodeInfo :=
  let port :=
    match Tags member !! "port" with
    | Some portStr => default 0%Z (Sscanf_d portStr)
    | None => 0%Z
    end in
  {| ID := Name member; IP := default "" (Tags member !! "ip"); Port := port;
     RPCAddr := ""; Status := NodeStatusAlive |}.

Definition handleNodeJoin (ts : TopologySync) (t : Topology) (member : Member)
  : Topology * list effect :=
  (AddNode t (joined_node member), triggerTopologyChange ts).

Definition handleNodeLeave (ts : TopologySync) (t : Topology) (member : Member)
  : Topology * list effect :=
  (RemoveNode R t (Name member), triggerTopologyChange ts).

Definition handleNodeUpdate (ts : TopologySync) (t : Topology) (member : Member)
  : Topology * list effect :=
  (t, []).

(** [handleMemberEvent]: the members in order, each by the event's type. *)
Definition handleMemberEvent (ts : TopologySync) (t : Topology) (event : MemberEvent)
  : Topology * list effect :=
  fold_left
    (λ acc member,
       let step :=
         match me_Type event with
         | EventMemberJoin => handleNodeJoin ts acc.1 member
         | EventMemberLeave | EventMemberFailed => handleNodeLeave ts acc.1 member
         | EventMemberUpdate => handleNodeUpdate ts acc.1 member
         | EventMemberReap => (acc.1, [])
         end in
       (step.1, acc.2 ++ step.2))
    (Members event) (t, []).

Lemma join_leave_fresh ts t member :
  nodes t !! Name member = None → edges t !! Name member = None →
  (handleNodeLeave ts (handleNodeJoin ts t member).1 member).1 = t.
Proof.
  intros Hn He. unfold handleNodeLeave, handleNodeJoin, RemoveNode, AddNode.
  cbn [fst nodes edges joined_node ID]. unfold ensure_adj. rewrite He.
  rewrite lookup_insert_eq. destruct t as [ns es]. cbn in *. f_equal.
  - rewrite delete_insert_eq. by apply delete_id.
  - assert (range_of R (∅ : gmap string float64) = []) as ->.
    { apply Permutation_nil_r. rewrite (range_of_perm R). by rewrite map_to_list_empty. }
    cbn. rewrite delete_insert_eq. by apply delete_id.
Qed.

(** X25.  Membership events.  A join registers the member as alive,
    with the ip tag and the port scanned from the port tag (0 when the
    tag is missing or no integer is scanned), and touches no link; a
    leave or a failure removes the member's record and the entries
    leaving it; an update and a reap change nothing and run no callback.
    A member that was unknown and had no entries, joining and then
    leaving, leaves the graph exactly as it was.  With a callback
    registered, a join or leave event runs it once per member. *)
Theorem member_events (ts : TopologySync) (t : Topology) (member : Member) :
  (GetNode (handleNodeJoin ts t member).1 (Name member) = Some (joined_node member) ∧
   Status (joined_node member) = NodeStatusAlive ∧
   (Tags member !! "port" = None → Port (joined_node member) = 0%Z) ∧
   ∀ x y, GetCost (handleNodeJoin ts t member).1 x y = GetCost t x y) ∧
  (GetNode (handleNodeLeave ts t member).1 (Name member) = None ∧
   ∀ y, GetCost (handleNodeLeave ts t member).1 (Name member) y = (f64_zero, false)) ∧
  (∀ ms, handleMemberEvent ts t {| me_Type := EventMemberUpdate; Members := ms |} = (t, []) ∧
         handleMemberEvent ts t {| me_Type := EventMemberReap; Members := ms |} = (t, [])) ∧
  (nodes t !! Name member = None → edges t !! Name member = None →
     (handleMemberEvent ts
        (handleMemberEvent ts t {| me_Type := EventMemberJoin; Members := [member] |}).1
        {| me_Type := EventMemberLeave; Members := [member] |}).1 = t) ∧
  (onTopologyChange ts = true →
   ∀ ms,
     (handleMemberEvent ts t {| me_Type := EventMemberJoin; Members := ms |}).2
       = replicate (length ms) Notify ∧
     (handleMemberEvent ts t {| me_Type := EventMemberLeave; Members := ms |}).2
       = replicate (length ms) Notify ∧
     (handleMemberEvent ts t {| me_Type := EventMemberFailed; Members := ms |}).2
       = replicate (length ms) Notify).
Proof.
  split_and!.
  - unfold handleNodeJoin, GetNode, AddNode. cbn. apply lookup_insert_eq.
  - done.
  - intros Hp. unfold joined_node. by rewrite Hp.
  - intros x y. unfold handleNodeJoin. cbn [fst]. by rewrite !GetCost_edge, edge_AddNode.
  - unfold handleNodeLeave, GetNode, RemoveNode. cbn. apply lookup_delete_eq.
  - intros y. unfold handleNodeLeave. cbn [fst].
    rewrite GetCost_edge, edge_RemoveNode. by rewrite decide_True.
  - intros ms. unfold handleMemberEvent. cbn [me_Type Members].
    split; induction ms as [|m ms IH]; try done.
  - intros Hn He. unfold handleMemberEvent. cbn [me_Type Members fold_left fst].
    by apply join_leave_fresh.
  - intros Hcb ms. unfold handleMemberEvent. cbn [me_Type Members].
    assert (∀ (f : Topology → Member → Topology) ms t0 effs,
              (fold_left (λ (acc : Topology * list effect) m,
                            ((f acc.1 m, triggerTopologyChange ts).1,
                             acc.2 ++ (f acc.1 m, triggerTopologyChange ts).2))
                 ms (t0, effs)).2 = effs ++ replicate (length ms) Notify) as Hrep.
    { intros f. induction ms0 as [|m ms0 IH]; intros t0 effs; cbn [fold_left].
      - by rewrite app_nil_r.
      - cbn [fst snd]. rewrite IH. unfold triggerTopologyChange. rewrite Hcb.
        by rewrite <- app_assoc. }
    split_and!.
    + apply (Hrep (λ t0 m, AddNode t0 (joined_node m)) ms t []).
    + apply (Hrep (λ t0 m, RemoveNode R t0 (Name m)) ms t []).
    + apply (Hrep (λ t0 m, RemoveNode R t0 (Name m)) ms t []).
Qed.

End Membership.

(** ** Configuration and the links a node starts with *)


Record EdgeConfig : Type := {
  ec_From : string;
  ec_To : string;
  ec_Cost : Z
}.






(** The edge is a link between [a] and [b], in either direction. *)
Definition links_pair (a b : string) (e : EdgeConfig) : Prop :=
  (ec_From e = a ∧ ec_To e = b) ∨ (ec_From e = b ∧ ec_To e = a).

#[global] Instance links_pair_dec a b e : Decision (links_pair a b e).
Proof. unfold links_pair. apply _. Defined.




(** ** The sync switch *)

Record EnableSyncRequest : Type := { es_Enabled : bool }.

Record EnableSyncResponse : Type := {
  esr_Success : bool;
  esr_Message : string;
  esr_Enabled : bool
}.

(** [TopologySync.EnableSync] *)
Definition TopologySync_EnableSync (ts : TopologySync) (enabled : bool) : TopologySync :=
  {| ts_nodeID := ts_nodeID ts; ts_serf := ts_serf ts;
     onTopologyChange := onTopologyChange ts; syncInterval := syncInterval ts;
     syncEnabled := enabled |}.

(** [TopologySync.IsSyncEnabled] *)
Definition IsSyncEnabled (ts : TopologySync) : bool := syncEnabled ts.

(** [ControlServer.EnableSync]; the sync component is shared, so the
    server is returned with it. *)
Definition ControlServer_EnableSync (s : ControlServer) (req : EnableSyncRequest)
  : ControlServer * EnableSyncResponse :=
  match cs_TopologySync s with
  | None =>
      (s, {| esr_Success := false; esr_Message := "topology sync is not initialized";
             esr_Enabled := false |})
  | Some ts =>
      let ts' := TopologySync_EnableSync ts (es_Enabled req) in
      let currentState := IsSyncEnabled ts' in
      let message :=
        if currentState then "topology sync enabled" else "topology sync disabled" in
      ({| cs_NodeID := cs_NodeID s; cs_TopologySync := Some ts' |},
       {| esr_Success := true; esr_Message := message; esr_Enabled := currentState |})
  end.

(** X27.  The sync switch governs the periodic full broadcast and
    nothing else.  [EnableSync] fails on a server without a sync
    component and otherwise reports the state asked for; while sync is
    off [broadcastFullTopology] emits nothing and reports no error;
    but [RegisterLink] and [UnregisterLink] still gossip, and incoming
    link-update and topology-sync events are still merged, exactly as
    with sync on. *)
Theorem EnableSync_scope (R : RangeOrder) (s : ControlServer) (req : EnableSyncRequest)
    (t : Topology) :
  (cs_TopologySync s = None →
     ControlServer_EnableSync s req
       = (s, {| esr_Success := false; esr_Message := "topology sync is not initialized";
                esr_Enabled := false |})) ∧
  (∀ ts, cs_TopologySync s = Some ts →
     let ts' := TopologySync_EnableSync ts (es_Enabled req) in
     cs_TopologySync (ControlServer_EnableSync s req).1 = Some ts' ∧
     esr_Success (ControlServer_EnableSync s req).2 = true ∧
     esr_Enabled (ControlServer_EnableSync s req).2 = es_Enabled req ∧
     IsSyncEnabled ts' = es_Enabled req ∧
     (es_Enabled req = false → ∀ emit_ok,
        broadcastFullTopology R ts' t emit_ok = ([], false)) ∧
     (∀ from to cost emit_ok,
        RegisterLink ts' t from to cost emit_ok = RegisterLink ts t from to cost emit_ok ∧
        UnregisterLink ts' t from to emit_ok = UnregisterLink ts t from to emit_ok) ∧
     (∀ event, handleLinkUpdate ts' t event = handleLinkUpdate ts t event) ∧
     (∀ event, handleTopologySync ts' t event = handleTopologySync ts t event)).
Proof.
  split.
  - intros Hnone. unfold ControlServer_EnableSync. by rewrite Hnone.
  - intros ts Hts. cbn zeta. unfold ControlServer_EnableSync. rewrite Hts.
    cbn [fst snd cs_TopologySync esr_Success esr_Enabled].
    split_and!; try done.
    intros Hoff emit_ok. unfold broadcastFullTopology. cbn [ts_serf syncEnabled
      TopologySync_EnableSync]. rewrite Hoff. by destruct (ts_serf ts).
Qed.

(** ** Forwarding: only the destination matters *)

(** What happened at which node, without the packet. *)
Definition ev_kind (ev : fwd_event) : bool * string :=
  match ev with
  | Arrived n _ => (false, n)
  | Delivered n _ => (true, n)
  end.

Lemma forwardPacket_same_destination rpc cl self fm p p' :
  (∀ c a q q', pk_Destination q = pk_Destination q' →
     (rpc c a q).1.1 = (rpc c a q').1.1 ∧ (rpc c a q).2 = (rpc c a q').2 ∧
     ev_kind <$> (rpc c a q).1.2 = ev_kind <$> (rpc c a q').1.2) →
  pk_Destination p = pk_Destination p' →
  (forwardPacket rpc cl self fm p).1.1 = (forwardPacket rpc cl self fm p').1.1 ∧
  (forwardPacket rpc cl self fm p).2 = (forwardPacket rpc cl self fm p').2 ∧
  ev_kind <$> (forwardPacket rpc cl self fm p).1.2
    = ev_kind <$> (forwardPacket rpc cl self fm p').1.2.
Proof.
  intros Hrpc Hd. unfold forwardPacket. rewrite <- Hd.
  destruct (GetRoute _ _) as [route|]; [|done].
  destruct (GetNode _ _) as [nh|]; [|done].
  destruct (Hrpc cl (node_address nh) (set_NextHop (NextHop route) p)
              (set_NextHop (NextHop route) p')) as (Hcl & Hresp & Hevs); [done|].
  destruct (rpc cl _ (set_NextHop (NextHop route) p)) as [[cl1 evs1] resp1].
  destruct (rpc cl _ (set_NextHop (NextHop route) p')) as [[cl2 evs2] resp2].
  cbn in Hcl, Hresp, Hevs. subst cl2 resp2.
  destruct resp1 as [resp|]; [destruct (fr_Success resp)|]; done.
Qed.

(** X28.  What the nodes do with a packet depends on its destination
    only.  Two packets with the same destination, handed to the same
    node of the same cluster, visit the same nodes in the same order,
    get the same answer and leave the same counters, whatever their
    visited lists, next hops, sources, ids and payloads are.  So a node
    that a packet has visited before forwards it again as it did: the
    visited list is recorded and never consulted. *)
Theorem forwarding_ignores_history (fuel : nat) (cl : Cluster) (addr : string)
    (p p' : Packet) :
  pk_Destination p = pk_Destination p' →
  (rpc_ForwardPacket fuel cl addr p).1.1 = (rpc_ForwardPacket fuel cl addr p').1.1 ∧
  (rpc_ForwardPacket fuel cl addr p).2 = (rpc_ForwardPacket fuel cl addr p').2 ∧
  ev_kind <$> (rpc_ForwardPacket fuel cl addr p).1.2
    = ev_kind <$> (rpc_ForwardPacket fuel cl addr p').1.2.
Proof.
  revert cl addr p p'. induction fuel as [|fuel IH]; intros cl addr p p' Hd; [done|].
  cbn [rpc_ForwardPacket]. destruct (cl !! addr) as [fm|]; [|done].
  unfold HandleIncomingPacket. cbn [pk_Destination set_VisitedNodes]. rewrite <- Hd.
  case_decide as Hdest; [done|].
  match goal with
  | |- context [forwardPacket ?r ?c ?a ?f ?q] =>
    match goal with
    | |- context [forwardPacket r c a f ?q'] =>
      assert_fails (constr_eq q q');
      destruct (forwardPacket_same_destination r c a f q q' IH Hd)
        as (Hcl & Herr & Hevs);
      destruct (forwardPacket r c a f q) as [[cl1 evs1] err1];
      destruct (forwardPacket r c a f q') as [[cl2 evs2] err2]
    end
  end.
  cbn in Hcl, Herr, Hevs. subst cl2 err2.
  destruct err1; cbn; rewrite Hevs; done.
Qed.

Lemma forwarding_ignores_history_witness :
  ev_kind <$> (rpc_ForwardPacket 3 two_node_cluster "127.0.0.1:5001" injected_packet).1.2
  = ev_kind <$> (rpc_ForwardPacket 3 two_node_cluster "127.0.0.1:5001"
                   packet_seen_at_B).1.2.
Proof.
  destruct (forwarding_ignores_history 3 two_node_cluster "127.0.0.1:5001"
              injected_packet packet_seen_at_B eq_refl) as (_ & _ & Hevs).
  exact Hevs.
Defined.

(** A packet that has already been at A and B takes the same way again. *)
Example revisit_forwarded_again :
  VisitedNodes
    <$> (ev_packet <$> (rpc_ForwardPacket 3 two_node_cluster "127.0.0.1:5001"
                          packet_seen_at_B).1.2)
  = [["A"; "B"; "A"]; ["A"; "B"; "A"; "B"]; ["A"; "B"; "A"; "B"]].
Proof. vm_compute. reflexivity. Qed.

(** ** Probed links *)

(** A peer whose node service answers probes in debug mode, with the
    given random draws. *)
Definition debug_peer (intn : Z) (unit_float : Qc) : probe_service :=
  λ _ req, ProbeLinkQuality req intn unit_float.

Lemma debug_probe_cost (unit_float : Qc) :
  rand_Float64 unit_float →
  ∃ c, f64_add (f64_of_Z 1) (f64_mul (Fin unit_float) (f64_of_Z 19)) = Fin c ∧
       (Q2Qc (inject_Z 1) ≤ c)%Qc ∧ (c ≤ Q2Qc (inject_Z 20))%Qc.
Proof.
  intros [Hf0 Hf1]. eexists. split; [reflexivity|].
  unfold Qcle, Qclt in *. cbn [this Qcplus Qcmult Q2Qc] in *.
  rewrite ?Qred_correct in *.
  change (this 0%Qc) with 0%Q in *. change (this 1%Qc) with 1%Q in *.
  unfold inject_Z in *. split; lra.
Qed.

(** X29.  A probed link gets a valid cost.  When the neighbour answers
    probes in debug mode, [AddLink] with [auto_probe] set, or with a
    cost [<= 0], succeeds for any non-empty neighbour id and address,
    stores for the link the cost the probe drew, which lies between 1
    and 20, reports that cost in its answer, and keeps the stored costs
    of the graph finite and not negative. *)
Theorem AddLink_probed_cost (intn : Z) (unit_float : Qc) (emit_ok : bool)
    (s : ControlServer) (t : Topology) (req : AddLinkRequest) :
  rand_Intn_50 intn → rand_Float64 unit_float → costs_ok t →
  Neighbor req ≠ "" → NeighborAddress req ≠ "" →
  AutoProbe req || f64_leb (al_Cost req) f64_zero = true →
  let run := AddLink (debug_peer intn unit_float) emit_ok s t req in
  al_Success run.2 = true ∧
  costs_ok run.1.1 ∧
  ∃ c, GetCost run.1.1 (cs_NodeID s) (Neighbor req) = (Fin c, true) ∧
       GetCost run.1.1 (Neighbor req) (cs_NodeID s) = (Fin c, true) ∧
       alr_Cost run.2 = Fin c ∧
       (Q2Qc (inject_Z 1) ≤ c)%Qc ∧ (c ≤ Q2Qc (inject_Z 20))%Qc.
Proof.
  intros _ Hf Hcosts Hn Ha Hguard. cbn zeta. unfold AddLink.
  rewrite !decide_False by done. rewrite Hguard.
  destruct (debug_probe_cost unit_float Hf) as (c & Hc & Hlo & Hhi).
  unfold probeLinkCost, debug_peer, ProbeLinkQuality.
  cbn [SelfDebug pr_Success pr_Cost]. rewrite Hc.
  assert (f64_nonneg_fin (Fin c) = true) as Hfin.
  { cbn. apply bool_decide_eq_true.
    apply Qcle_trans with (Q2Qc (inject_Z 1)); [done|exact Hlo]. }
  set (t2 := UpdateLink (AddNode t (neighborNode req)) (cs_NodeID s) (Neighbor req)
               (Fin c)).
  assert (costs_ok t2) as Hc2
    by (apply costs_ok_UpdateLink; [by apply costs_ok_AddNode|done]).
  destruct (cs_TopologySync s) as [ts|].
  - pose proof (RegisterLink_graph ts t2 (cs_NodeID s) (Neighbor req) (Fin c) emit_ok)
      as Hg.
    destruct (RegisterLink ts t2 _ _ _ _) as [[t3 effects] err].
    cbn in Hg |- *. subst t3.
    destruct (GetCost_UpdateLink t2 (cs_NodeID s) (Neighbor req) (Fin c)) as [H1 H2].
    split_and!; [done|by apply costs_ok_UpdateLink|]. exists c. done.
  - cbn.
    destruct (GetCost_UpdateLink (AddNode t (neighborNode req)) (cs_NodeID s)
                (Neighbor req) (Fin c)) as [H1 H2].
    split_and!; [done..|]. exists c. done.
Qed.

Lemma AddLink_probed_cost_witness :
  ∃ c, GetCost (AddLink (debug_peer 49 (Q2Qc (1 # 2))) true control_A NewTopology
                  negative_link).1.1 "A" "B" = (Fin c, true) ∧
       (Q2Qc (inject_Z 1) ≤ c)%Qc ∧ (c ≤ Q2Qc (inject_Z 20))%Qc.
Proof.
  destruct (AddLink_probed_cost 49 (Q2Qc (1 # 2)) true control_A NewTopology
              negative_link) as (_ & _ & c & Hcost & _ & _ & Hlo & Hhi).
  - unfold rand_Intn_50. lia.
  - split; by vm_compute.
  - apply (bool_decide_eq_true_1 (costs_ok NewTopology)). by vm_compute.
  - done.
  - done.
  - by vm_compute.
  - exists c. split; [exact Hcost|]. split; [exact Hlo|exact Hhi].
Defined.

(** Why the path property asks for non-empty ids: with the empty string
    as source id the reconstruction loop stops before it appends the
    source, and the recorded path lacks it. *)
Example path_without_empty_source :
  Path <$> route_to
    (ComputeRoutes list_pq canonical_order 10 ""
       (UpdateLink (AddNode (AddNode NewTopology (mkNode "")) (mkNode "B")) "" "B"
          (f64_of_Z 1))) "B"
  = Some ["B"].
Proof. vm_compute. reflexivity. Qed.

(** ** SPF calculator: a source without links *)

Lemma init_distance_values (l : list NodeInfo) src n x :
  init_distance src l !! n = Some x → (n = src ∧ x = f64_zero) ∨ (n ≠ src ∧ x = PInf).
Proof.
  unfold init_distance. rewrite lookup_insert. case_decide as Hn.
  - intros [= <-]. by left.
  - rewrite fold_mark_lookup. case_decide; [|by rewrite lookup_empty].
    intros [= <-]. right. split; [congruence|done].
Qed.

Lemma collect_fold_skip Q fuel src (st : spf_state Q) (l : list (string * float64)) rt :
  (∀ d x, (d, x) ∈ l → d = src ∨ x = PInf) →
  fold_left (collect_route Q fuel src st) l (Some rt) = Some rt.
Proof.
  induction l as [|[d x] l IH]; intros Hall; [done|]. cbn [fold_left].
  unfold collect_route at 2. cbn [fst snd mbind option_bind].
  destruct (Hall d x (list_elem_of_here _ _)) as [->| ->].
  - rewrite decide_True by done. apply IH. intros ???. apply Hall. by right.
  - case_decide; cbn [math_IsInf_pos]; apply IH; intros ???; apply Hall; by right.
Qed.

(** X30.  A source without links gets the empty table: when the graph
    stores no entry leaving the source (the source may even be
    unregistered, and the rest of the graph may hold any costs),
    [ComputeRoutes] ends after one iteration of its main loop and
    returns a table for the source with no route, for every queue
    implementation and iteration order. *)
Theorem ComputeRoutes_isolated_source (Q : PriorityQueue) (R : RangeOrder)
    (topo : Topology) (src : string) (fuel : nat) :
  GetNeighbors R topo src = ∅ →
  ComputeRoutes Q R (S fuel) src topo = Some (NewRouteTable src) ∧
  ∀ d, GetRoute (NewRouteTable src) d = None.
Proof.
  intros Hnb. split; [|intros d; apply lookup_empty].
  unfold ComputeRoutes. cbn [spf_loop].
  set (q0 := Enqueue Q {| nodeID := src; priority := f64_zero |} (pq_New Q)).
  assert (pq_items Q q0 ≡ₚ [{| nodeID := src; priority := f64_zero |}]) as Hq0.
  { unfold q0. by rewrite pq_items_Enqueue, pq_items_New. }
  change (pq (spf_init Q R src topo)) with q0.
  destruct (Dequeue Q q0) as [[it q']|] eqn:Hdq.
  2: { apply pq_Dequeue_None in Hdq. rewrite Hdq in Hq0.
       by apply Permutation_nil_cons in Hq0. }
  pose proof (pq_Dequeue_Some Q _ _ _ Hdq) as Hperm. rewrite Hq0 in Hperm.
  apply Permutation_singleton_l in Hperm. injection Hperm as <- Hq'.
  assert (spf_step Q R src topo (spf_init Q R src topo)
            {| nodeID := src; priority := f64_zero |} q'
          = {| distance := init_distance src (GetAllNodes R topo); nextHop := ∅;
               previous := ∅; pq := q';
               neighborCache := {[src := ∅]} |}) as Hstep.
  { unfold spf_step, spf_init. cbn [nodeID priority distance nextHop previous
      neighborCache]. rewrite init_distance_src.
    change (f64_gtb f64_zero (default f64_zero (Some f64_zero))) with false.
    cbn iota. unfold cached_neighbors. rewrite lookup_empty. cbn [fst snd]. rewrite Hnb.
    assert (range_of R (∅ : gmap string float64) = []) as ->.
    { apply Permutation_nil_r. rewrite (range_of_perm R). by rewrite map_to_list_empty. }
    cbn. by rewrite insert_empty. }
  rewrite Hstep.
  assert (Dequeue Q q' = None) as Hend.
  { destruct (Dequeue Q q') as [[it' q'']|] eqn:Hdq'; [|done].
    apply pq_Dequeue_Some in Hdq'. rewrite <- Hq' in Hdq'.
    by apply Permutation_nil_cons in Hdq'. }
  destruct fuel; cbn [spf_loop pq]; rewrite Hend; cbn [mbind option_bind];
    unfold collect; cbn [distance]; apply collect_fold_skip;
    intros d x Hin%range_of_lookup;
    (destruct (init_distance_values _ _ _ _ Hin) as [[-> _]|[_ ->]]; [by left|by right]).
Qed.

Lemma ComputeRoutes_isolated_source_witness :
  ComputeRoutes list_pq canonical_order 1 "Z" triangle = Some (NewRouteTable "Z").
Proof.
  refine (proj1 (ComputeRoutes_isolated_source list_pq canonical_order triangle "Z" 0 _)).
  by vm_compute.
Defined.
